(** * shooter: a shallow embedding of the capture engine

    The development follows three source files of the repository:
    - [shooter/actions.py]      the declarative actions and their scripts,
    - [shooter/draw.py]         [ElementItem] and the CSS selector synthesis,
    - [shooter/drivers/base.py] [BaseScreenshooter]: driver rotation, the
      page-load gate, the action replay and the DOM traversal.

    Python values are modelled as follows.  [str] is [string]; [int] is [Z];
    [Optional[T]] is [option T]; a raising computation returns [result];
    the [dict] of the traversal is an insertion-ordered association list;
    the mutable screenshooter object is a record threaded through every
    method, together with the trace of the effects it had on the outside
    world (connections opened and closed, scripts run, log lines, sleeps). *)

From Stdlib Require Import List String Ascii ZArith Lia Bool Arith.
From Stdlib Require Import DecimalString.
From Stdlib Require QArith DecimalPos.
Import ListNotations.
Open Scope string_scope.

Set Implicit Arguments.

(* ================================================================== *)
(** ** Python preliminaries *)

Module Py.

(** Exceptions that the modelled code raises or catches. *)
Inductive exn : Type :=
| StaleElementReferenceException
| TimeoutException
| JavascriptException
| RuntimeError
| AttributeError
| ValueError
| TypeError
| NoDriverRemainingError.

Definition exn_eqb (a b : exn) : bool :=
  match a, b with
  | StaleElementReferenceException, StaleElementReferenceException
  | TimeoutException, TimeoutException
  | JavascriptException, JavascriptException
  | RuntimeError, RuntimeError
  | AttributeError, AttributeError
  | ValueError, ValueError
  | TypeError, TypeError
  | NoDriverRemainingError, NoDriverRemainingError => true
  | _, _ => false
  end.

(** The outcome of a call: a value or a raised exception. *)
Inductive result (A : Type) : Type :=
| Ok (a : A)
| Raise (e : exn).
Arguments Ok {A} a.
Arguments Raise {A} e.

Definition bind {A B} (r : result A) (k : A -> result B) : result B :=
  match r with
  | Ok a => k a
  | Raise e => Raise e
  end.

(** The double quote character, used inside the generated scripts. *)
Definition dq : string := String (ascii_of_nat 34) EmptyString.

(** [str(n)] for an [int]. *)
Definition str_of_int (n : Z) : string := NilZero.string_of_int (Z.to_int n).
Definition str_of_nat (n : nat) : string := str_of_int (Z.of_nat n).

(** Truthiness of an [Optional[str]]: [None] and the empty string are
    falsy. *)
Definition truthy (o : option string) : bool :=
  match o with
  | None => false
  | Some EmptyString => false
  | Some (String _ _) => true
  end.

(** Interpolation of an [Optional[str]] in an f-string. *)
Definition fmt (o : option string) : string :=
  match o with
  | None => "None"
  | Some s => s
  end.

(** [s.startswith(p)]. *)
Fixpoint startswith (p s : string) : bool :=
  match p, s with
  | EmptyString, _ => true
  | String a p', String b s' => Ascii.eqb a b && startswith p' s'
  | String _ _, EmptyString => false
  end.

(** [p in s] for strings. *)
Fixpoint contains (p s : string) : bool :=
  startswith p s
  || match s with
     | EmptyString => false
     | String _ s' => contains p s'
     end.

(** [s.replace(old, new)] for a non-empty [old]: occurrences are found
    from left to right and do not overlap.  [skip] counts the characters
    of the occurrence just replaced that are still to be passed over. *)
Fixpoint replace_from (old new : string) (skip : nat) (s : string) : string :=
  match s with
  | EmptyString => EmptyString
  | String c s' =>
      match skip with
      | S k => replace_from old new k s'
      | O =>
          if startswith old s
          then new ++ replace_from old new (String.length old - 1) s'
          else String c (replace_from old new 0 s')
      end
  end.

Definition replace (old new s : string) : string := replace_from old new 0 s.

(** [c.isspace()] for a character below U+0100: the ASCII white space,
    the next-line control U+0085 and the no-break space U+00A0. *)
Definition isspace (c : ascii) : bool :=
  let n := nat_of_ascii c in
  (((9 <=? n) && (n <=? 13)) || ((28 <=? n) && (n <=? 32))
   || (n =? 133) || (n =? 160))%nat.

Fixpoint lstrip (s : string) : string :=
  match s with
  | EmptyString => EmptyString
  | String c s' => if isspace c then lstrip s' else s
  end.

Fixpoint rstrip (s : string) : string :=
  match s with
  | EmptyString => EmptyString
  | String c s' =>
      match rstrip s' with
      | EmptyString => if isspace c then EmptyString else String c EmptyString
      | r => String c r
      end
  end.

(** [s.strip()]. *)
Definition strip (s : string) : string := rstrip (lstrip s).

End Py.

Import Py.

Notation "x <- c ;; k" := (bind c (fun x => k))
  (at level 61, c at next level, right associativity).

(* ================================================================== *)
(** ** shooter/actions.py *)

Module Actions.

(** The classes of the actions, by their fields ([kind] is the
    constructor of [BaseAction] below). *)
Record ScrollDownAction := { sd_how_much : Z; sd_element_query_selector : option string }.
Record ScrollUpAction := { su_how_much : Z; su_element_query_selector : option string }.
Record ClickAtAction := { click_x : Z; click_y : Z }.
Record ClickElementAction := {
  element_id : option string;
  element_class : option string;
  element_query_selector : option string }.

(** [AvailableActionsUnion]. *)
Inductive BaseAction : Type :=
| ScrollDown (a : ScrollDownAction)
| ScrollUp (a : ScrollUpAction)
| ScrollToTop
| ClickAt (a : ClickAtAction)
| ClickElement (a : ClickElementAction).

(** [ClickElementAction.validate_at_least_one_attribute_is_not_null]. *)
Definition validate_at_least_one_attribute_is_not_null
  (a : ClickElementAction) : result ClickElementAction :=
  match element_id a, element_class a, element_query_selector a with
  | None, None, None => Raise ValueError
  | _, _, _ => Ok a
  end.

Definition scroll_down_to_javascript (a : ScrollDownAction) : string :=
  match sd_element_query_selector a with
  | None => "window.scrollBy(0, " ++ str_of_int (sd_how_much a) ++ ");"
  | Some q =>
      "document.querySelector(" ++ dq ++ q ++ dq ++ ").scrollBy(0, "
        ++ str_of_int (sd_how_much a) ++ ");"
  end.

Definition scroll_up_to_javascript (a : ScrollUpAction) : string :=
  match su_element_query_selector a with
  | None => "window.scrollBy(0, -" ++ str_of_int (su_how_much a) ++ ");"
  | Some q =>
      "document.querySelector(" ++ dq ++ q ++ dq ++ ").scrollBy(0, -"
        ++ str_of_int (su_how_much a) ++ ");"
  end.

Definition scroll_to_top_to_javascript : string := "window.scrollTo(0, 0);".

Definition click_at_to_javascript (a : ClickAtAction) : string :=
  "document.elementFromPoint(" ++ str_of_int (click_x a) ++ ", "
    ++ str_of_int (click_y a) ++ ").click();".

(** [ClickElementAction.to_javascript]: the two [if]s test truthiness. *)
Definition click_element_to_javascript (a : ClickElementAction) : string :=
  if truthy (element_id a) then
    "document.getElementById(" ++ dq ++ fmt (element_id a) ++ dq ++ ").click();"
  else if truthy (element_class a) then
    "document.getElementsByClassName(" ++ dq ++ fmt (element_class a) ++ dq
      ++ ")[0].click();"
  else
    "document.querySelector(" ++ dq ++ fmt (element_query_selector a) ++ dq
      ++ ").click();".

Definition to_javascript (a : BaseAction) : string :=
  match a with
  | ScrollDown x => scroll_down_to_javascript x
  | ScrollUp x => scroll_up_to_javascript x
  | ScrollToTop => scroll_to_top_to_javascript
  | ClickAt x => click_at_to_javascript x
  | ClickElement x => click_element_to_javascript x
  end.

End Actions.

(* ================================================================== *)
(** ** The Selenium interface the code relies on

    A [WebElement] is a handle on a node of the rendered page.  Every
    remote call on a handle whose node has left the document raises
    [StaleElementReferenceException]; the flag [stale] records that, and
    the page does not change while it is traversed.  The remaining fields
    are what the remote calls answer: the serialized markup, the tag, the
    [id] and [class] attributes, whether the element is displayed, its
    CSS [position], its geometry in the document and in the viewport
    (in whole pixels), and its child elements in document order. *)

Module Selenium.

Record Rect := { left : Z; top : Z; width : Z; height : Z }.

Unset Elimination Schemes.
Inductive WebElement : Type :=
| mkWebElement
    (stale : bool)
    (outerHTML : string)
    (tag : string)
    (id_attr class_attr : option string)
    (displayed : bool)
    (css_position : string)
    (location_size client_rect : Rect)
    (child_nodes : list WebElement).
Set Elimination Schemes.

Definition stale (e : WebElement) : bool :=
  match e with mkWebElement b _ _ _ _ _ _ _ _ _ => b end.
Definition outerHTML (e : WebElement) : string :=
  match e with mkWebElement _ h _ _ _ _ _ _ _ _ => h end.
Definition tag (e : WebElement) : string :=
  match e with mkWebElement _ _ t _ _ _ _ _ _ _ => t end.
Definition id_attr (e : WebElement) : option string :=
  match e with mkWebElement _ _ _ i _ _ _ _ _ _ => i end.
Definition class_attr (e : WebElement) : option string :=
  match e with mkWebElement _ _ _ _ c _ _ _ _ _ => c end.
Definition displayed (e : WebElement) : bool :=
  match e with mkWebElement _ _ _ _ _ d _ _ _ _ => d end.
Definition css_position (e : WebElement) : string :=
  match e with mkWebElement _ _ _ _ _ _ p _ _ _ => p end.
Definition location_size (e : WebElement) : Rect :=
  match e with mkWebElement _ _ _ _ _ _ _ r _ _ => r end.
Definition client_rect (e : WebElement) : Rect :=
  match e with mkWebElement _ _ _ _ _ _ _ _ r _ => r end.
Definition child_nodes (e : WebElement) : list WebElement :=
  match e with mkWebElement _ _ _ _ _ _ _ _ _ l => l end.

(** A remote call on [e] answering [a]. *)
Definition remote {A} (e : WebElement) (a : A) : result A :=
  if stale e then Raise StaleElementReferenceException else Ok a.

(** [element.tag_name] *)
Definition tag_name (e : WebElement) : result string := remote e (tag e).

(** [element.get_attribute(name)] *)
Definition get_attribute (e : WebElement) (name : string) : result (option string) :=
  remote e
    (if String.eqb name "outerHTML" then Some (outerHTML e)
     else if String.eqb name "id" then id_attr e
     else if String.eqb name "class" then class_attr e
     else None).

(** [element.is_displayed()] *)
Definition is_displayed (e : WebElement) : result bool := remote e (displayed e).

(** [element.value_of_css_property("position")] *)
Definition value_of_css_property (e : WebElement) (name : string) : result string :=
  remote e (if String.eqb name "position" then css_position e else "").

(** [element.find_elements(By.XPATH, "./*")] *)
Definition find_children (e : WebElement) : result (list WebElement) :=
  remote e (child_nodes e).

End Selenium.

Import Selenium.

(* ================================================================== *)
(** ** shooter/draw.py *)

Module Draw.

(** Modelled from the spec: the base class [shooter.base.BaseModel] of
    [ElementItem] is not among the sources.  Following the data model of
    the specification a record is a plain object with the eight fields
    below; as [traverse_dom] does, its [parent_id] can be assigned after
    construction, and as an object without [__bool__] or [__len__] it is
    truthy. *)
Record ElementItem := {
  id : Z;
  parent_id : option Z;
  bbox : Z * Z * Z * Z;
  tag_name : string;
  label : string;
  position : string;
  is_visible : bool;
  css_selector : string }.

(** [sum(1 for sib in siblings if sib.tag_name == element_tag)] *)
Fixpoint count_same_tag (element_tag : string) (siblings : list WebElement)
  : result nat :=
  match siblings with
  | [] => Ok 0%nat
  | sib :: rest =>
      t <- Selenium.tag_name sib ;;
      n <- count_same_tag element_tag rest ;;
      Ok (if String.eqb t element_tag then S n else n)
  end.

(** [siblings[:element_index]]; the root is traversed with
    [siblings = None] and never reaches the slice. *)
Definition slice_to (siblings : option (list WebElement)) (element_index : nat)
  : result (list WebElement) :=
  match siblings with
  | None => Raise TypeError
  | Some l => Ok (firstn element_index l)
  end.

(** [ElementItem.get_css_selector] *)
Definition get_css_selector
  (element : WebElement) (element_index : option nat)
  (siblings : option (list WebElement)) (parent_selector : string)
  : result string :=
  element_tag <- Selenium.tag_name element ;;
  element_id_attr <- get_attribute element "id" ;;
  cls <- get_attribute element "class" ;;
  let class_attr := if truthy cls then replace " " "." (fmt cls) else "" in
  let id_selector := if truthy element_id_attr then "#" ++ fmt element_id_attr else "" in
  let class_selector :=
    if truthy (Some class_attr) then "." ++ class_attr else "" in
  let combined_selector := element_tag ++ id_selector ++ class_selector in
  current_selector <-
    match element_index with
    | None => Ok combined_selector
    | Some i =>
        before <- slice_to siblings i ;;
        same_tag_count <- count_same_tag element_tag before ;;
        if (1 <? same_tag_count)%nat then
          before' <- slice_to siblings i ;;
          n <- count_same_tag element_tag before' ;;
          let nth_type_index := (n + 1)%nat in
          Ok (parent_selector ++ " " ++ combined_selector
                ++ ":nth-of-type(" ++ str_of_nat nth_type_index ++ ")")
        else
          Ok (parent_selector ++ " " ++ combined_selector)
    end ;;
  Ok (strip current_selector).

(** [ElementItem.from_web_element].  [rect] is the dictionary returned by
    [get_bounding_rect]; [pixel_ratio v] stands for [int(v * pixel_ratio)],
    a floating-point product truncated to an integer. *)
Definition from_web_element
  (element : WebElement) (rect : Rect) (is_visible : bool)
  (pixel_ratio : Z -> Z) (element_index : option nat)
  (siblings : option (list WebElement)) (parent_selector : string)
  (element_id : Z) (parent_id : option Z) : result ElementItem :=
  let bbox :=
    (pixel_ratio (left rect),
     pixel_ratio (top rect),
     pixel_ratio (left rect + width rect)%Z,
     pixel_ratio (top rect + height rect)%Z) in
  tag_name <- Selenium.tag_name element ;;
  position <- value_of_css_property element "position" ;;
  css_selector <- get_css_selector element element_index siblings parent_selector ;;
  Ok {| id := element_id;
        parent_id := parent_id;
        bbox := bbox;
        tag_name := tag_name;
        label := tag_name;
        position := position;
        is_visible := is_visible;
        css_selector := css_selector |}.

End Draw.

(* ================================================================== *)
(** ** An insertion-ordered dictionary with integer keys

    [id_to_element] of [get_elements] is a Python [dict]: assignment to a
    fresh key appends, assignment to a present key replaces in place, and
    [values()] lists the entries in insertion order.  The values are
    objects: [update] is the mutation of the object stored under a key. *)

Module PyDict.
Section Dict.
Variable V : Type.

Definition t := list (Z * V).

Definition empty : t := [].

Fixpoint get (k : Z) (d : t) : option V :=
  match d with
  | [] => None
  | (k', v) :: d' => if Z.eqb k k' then Some v else get k d'
  end.

Definition mem (k : Z) (d : t) : bool :=
  match get k d with
  | Some _ => true
  | None => false
  end.

Fixpoint set (k : Z) (v : V) (d : t) : t :=
  match d with
  | [] => [(k, v)]
  | (k', v') :: d' =>
      if Z.eqb k k' then (k, v) :: d' else (k', v') :: set k v d'
  end.

Fixpoint update (k : Z) (f : V -> V) (d : t) : t :=
  match d with
  | [] => []
  | (k', v') :: d' =>
      if Z.eqb k k' then (k', f v') :: d' else (k', v') :: update k f d'
  end.

Definition keys (d : t) : list Z := map fst d.
Definition values (d : t) : list V := map snd d.
End Dict.
End PyDict.

(* ================================================================== *)
(** ** shooter/drivers/base.py: the DOM traversal *)

Module Traversal.
Import Draw.

Definition IdToElement := PyDict.t ElementItem.

(** [child_item.parent_id = element_id] *)
Definition set_parent_id (p : Z) (it : ElementItem) : ElementItem :=
  {| id := id it;
     parent_id := Some p;
     bbox := bbox it;
     tag_name := tag_name it;
     label := label it;
     position := position it;
     is_visible := is_visible it;
     css_selector := css_selector it |}.

Section GetElements.
(** [str.__hash__] *)
Variable str_hash : string -> Z.
(** The arguments of [get_elements]. *)
Variable full_page_screenshot : bool.
Variable pixel_ratio : Z -> Z.
Variable capture_invisible_elements : bool.

(** [BaseScreenshooter.get_element_hash] *)
Definition get_element_hash (element : WebElement) : result Z :=
  text <- get_attribute element "outerHTML" ;;
  match text with
  | Some s => Ok (str_hash s)
  | None => Raise AttributeError
  end.

(** [BaseScreenshooter.get_bounding_rect]: absolute positions come
    from [element.location] and [element.size], positions relative to
    the viewport from a script run on the element, which is taken to
    answer. *)
Definition get_bounding_rect (element : WebElement) (absolute : bool)
  : result Rect :=
  if absolute then remote element (location_size element)
  else remote element (client_rect element).

(** The [for child_index, child in enumerate(children)] loop of
    [traverse_dom].  [traverse] is the recursive call with the
    selector and the sibling list of the current element fixed.  A
    returned item is the object stored under its own hash, whether it
    was just built or found in the dictionary: it is denoted by that
    key, [if child_item:] holds of it, and giving it a parent updates
    the entry, for every holder of the object. *)
Definition for_children
  (traverse : WebElement -> nat -> IdToElement -> IdToElement * result (option Z))
  (element_id : Z) :=
  fix loop (rest : list WebElement) (child_index : nat) (d : IdToElement)
    {struct rest} : IdToElement * result unit :=
    match rest with
    | [] => (d, Ok tt)
    | child :: rest' =>
        match traverse child child_index d with
        | (d', Raise StaleElementReferenceException) =>
            loop rest' (S child_index) d'
        | (d', Raise e) => (d', Raise e)
        | (d', Ok None) => loop rest' (S child_index) d'
        | (d', Ok (Some child_item)) =>
            loop rest' (S child_index)
              (PyDict.update child_item (set_parent_id element_id) d')
        end
    end.

(** [traverse_dom], the closure of [get_elements]; the dictionary
    [id_to_element] it closes over is threaded through. *)
Fixpoint traverse_dom
  (element : WebElement) (parent_selector : string)
  (siblings : option (list WebElement)) (index : option nat)
  (d : IdToElement) {struct element} : IdToElement * result (option Z) :=
  match get_element_hash element with
  | Raise e => (d, Raise e)
  | Ok element_id =>
      if PyDict.mem element_id d then (d, Ok (Some element_id))
      else
        match is_displayed element with
        | Raise e => (d, Raise e)
        | Ok is_visible =>
            if negb (is_visible || capture_invisible_elements)
            then (d, Ok None)
            else
              match get_bounding_rect element full_page_screenshot with
              | Raise e => (d, Raise e)
              | Ok rect =>
                  match from_web_element element rect is_visible pixel_ratio
                          index siblings parent_selector element_id None with
                  | Raise e => (d, Raise e)
                  | Ok item =>
                      let d1 := PyDict.set element_id item d in
                      match find_children element with
                      | Raise e => (d1, Raise e)
                      | Ok _ =>
                          let children := child_nodes element in
                          match
                            for_children
                              (fun child child_index =>
                                 traverse_dom child (css_selector item)
                                   (Some children) (Some child_index))
                              element_id children 0%nat d1
                          with
                          | (d2, Raise e) => (d2, Raise e)
                          | (d2, Ok _) => (d2, Ok (Some element_id))
                          end
                      end
                  end
              end
        end
  end.

(** [BaseScreenshooter.get_elements], on the root element that
    [get_root_element] returned ([None] when there is none).  The reflow
    script that is run first goes to the browser and leaves the
    dictionary alone; it is part of the session below
    ([Base.trigger_reflow]). *)
Definition get_elements (root_element : option WebElement)
  : result (list ElementItem) :=
  match root_element with
  | None => Ok []
  | Some root =>
      match traverse_dom root "" None None (PyDict.empty _) with
      | (_, Raise StaleElementReferenceException) => Ok []
      | (_, Raise e) => Raise e
      | (d, Ok _) => Ok (PyDict.values d)
      end
  end.

End GetElements.
End Traversal.

(* ================================================================== *)
(** ** The page as a tree, and what the traversal is expected to list *)

Module DomView.
Import Draw Traversal.

(** Induction on a [WebElement] with the hypothesis for every child. *)
Unset Implicit Arguments.
Fixpoint WebElement_forall_ind (P : WebElement -> Prop)
  (step : forall st h t i c v p r1 r2 kids,
      Forall P kids -> P (mkWebElement st h t i c v p r1 r2 kids))
  (e : WebElement) {struct e} : P e :=
  match e with
  | mkWebElement st h t i c v p r1 r2 kids =>
      step st h t i c v p r1 r2 kids
        ((fix all (l : list WebElement) : Forall P l :=
            match l with
            | [] => Forall_nil P
            | k :: l' =>
                @Forall_cons _ P k l' (WebElement_forall_ind P step k) (all l')
            end) kids)
  end.
Set Implicit Arguments.

(** The element and its descendants, in document order. *)
Fixpoint nodes (e : WebElement) : list WebElement :=
  match e with
  | mkWebElement _ _ _ _ _ _ _ _ _ kids => e :: flat_map nodes kids
  end.

(** No handle of the tree is stale. *)
Definition fresh (e : WebElement) : Prop :=
  Forall (fun n => stale n = false) (nodes e).

(** No node is displayed below a node that is not. *)
Definition hidden_below (e : WebElement) : Prop :=
  Forall (fun n => displayed n = false ->
                   Forall (fun m => displayed m = false) (nodes n)) (nodes e).

(** [sum(1 for sib in l if sib.tag_name == element_tag)] when no handle
    is stale. *)
Definition same_tag_count (element_tag : string) (l : list WebElement) : nat :=
  List.length (filter (fun sib => String.eqb (tag sib) element_tag) l).

Definition combined_selector (e : WebElement) : string :=
  let class_attr :=
    if truthy (class_attr e) then replace " " "." (fmt (class_attr e)) else "" in
  tag e
    ++ (if truthy (id_attr e) then "#" ++ fmt (id_attr e) else "")
    ++ (if truthy (Some class_attr) then "." ++ class_attr else "").

(** The same-tag siblings before position [i]. *)
Definition before (siblings : option (list WebElement)) (i : nat) : list WebElement :=
  match siblings with
  | Some l => firstn i l
  | None => []
  end.

(** The qualifier for the element that comes after [c] siblings of its
    tag. *)
Definition qualifier (c : nat) : string :=
  ":nth-of-type(" ++ str_of_nat (c + 1) ++ ")".

(** The selector [get_css_selector] answers when no handle is stale. *)
Definition selector_of (e : WebElement) (index : option nat)
  (siblings : option (list WebElement)) (parent_selector : string) : string :=
  strip
    match index with
    | None => combined_selector e
    | Some i =>
        let c := same_tag_count (tag e) (before siblings i) in
        if (1 <? c)%nat
        then parent_selector ++ " " ++ combined_selector e ++ qualifier c
        else parent_selector ++ " " ++ combined_selector e
    end.

(** Every record is stored under its own identity. *)
Definition keyed (d : IdToElement) : Prop :=
  forall k it, In (k, it) d -> id it = k.

(** Every parent identity is the key of a record of the dictionary. *)
Definition parents_listed (d : IdToElement) : Prop :=
  forall k it p, In (k, it) d -> parent_id it = Some p -> In p (PyDict.keys d).

(** No record is that of an element that was not displayed. *)
Definition all_visible (d : IdToElement) : Prop :=
  forall k it, In (k, it) d -> is_visible it = true.

(** What the traversal keeps true of [id_to_element]; the last part when
    invisible elements are not captured. *)
Definition consistent (capture_invisible_elements : bool) (d : IdToElement) : Prop :=
  NoDup (PyDict.keys d) /\ keyed d /\ parents_listed d
  /\ (capture_invisible_elements = false -> all_visible d).

Section Listing.
Variable str_hash : string -> Z.
Variable full_page_screenshot : bool.
Variable pixel_ratio : Z -> Z.
Variable capture_invisible_elements : bool.

(** The identity of an element, and the identities of a subtree. *)
Definition hash_of (e : WebElement) : Z := str_hash (outerHTML e).
Definition hashes (e : WebElement) : list Z := map hash_of (nodes e).

(** The record of an element whose handle is not stale, before it is
    given a parent. *)
Definition item_of (e : WebElement) (index : option nat)
  (siblings : option (list WebElement)) (parent_selector : string) : ElementItem :=
  let rect := if full_page_screenshot then location_size e else client_rect e in
  {| id := hash_of e;
     parent_id := None;
     bbox := (pixel_ratio (left rect), pixel_ratio (top rect),
              pixel_ratio (left rect + width rect)%Z,
              pixel_ratio (top rect + height rect)%Z);
     tag_name := tag e;
     label := tag e;
     position := css_position e;
     is_visible := displayed e;
     css_selector := selector_of e index siblings parent_selector |}.

(** The records of a subtree once its root has been given the parent
    [p]: the root's record comes first. *)
Definition adopt (p : Z) (l : IdToElement) : IdToElement :=
  match l with
  | [] => []
  | (k, it) :: rest => (k, set_parent_id p it) :: rest
  end.

(** The records of the children [rest], from position [i] on, each
    subtree listed by [list_child] and adopted by [p]. *)
Definition children_records (list_child : WebElement -> nat -> IdToElement) (p : Z) :=
  fix go (rest : list WebElement) (i : nat) {struct rest} : IdToElement :=
    match rest with
    | [] => []
    | child :: rest' => (adopt p (list_child child i) ++ go rest' (S i))%list
    end.

(** Whether an element passes the visibility test of [traverse_dom]. *)
Definition gate (e : WebElement) : bool := displayed e || capture_invisible_elements.

(** Whether the handle of a sibling before position [index] is stale:
    the selector of the element cannot be computed then. *)
Definition stale_before (siblings : option (list WebElement)) (index : option nat)
  : bool :=
  match index with
  | None => false
  | Some i => existsb stale (before siblings i)
  end.

(** Whether the traversal builds a record for the element. *)
Definition recorded (e : WebElement) (index : option nat)
  (siblings : option (list WebElement)) : bool :=
  negb (stale e) && gate e && negb (stale_before siblings index).

(** What the traversal of an element with a new identity returns. *)
Definition answer (e : WebElement) (index : option nat)
  (siblings : option (list WebElement)) : result (option Z) :=
  if stale e then Raise StaleElementReferenceException
  else if negb (gate e) then Ok None
  else if stale_before siblings index then Raise StaleElementReferenceException
  else Ok (Some (hash_of e)).

(** The records that the traversal of a page is expected to list, in
    order, when no two elements share an identity: none for an element
    that is not displayed, unless invisible elements are captured, nor
    for one whose handle or the handle of an earlier sibling is stale,
    nor for what is below such elements. *)
Fixpoint records (e : WebElement) (parent_selector : string)
  (siblings : option (list WebElement)) (index : option nat) {struct e}
  : IdToElement :=
  match e with
  | mkWebElement _ _ _ _ _ _ _ _ _ kids =>
      if recorded e index siblings then
        let item := item_of e index siblings parent_selector in
        (hash_of e, item)
          :: children_records
               (fun child i => records child (css_selector item) (Some kids) (Some i))
               (hash_of e) kids 0%nat
      else []
  end.

(** A child is traversed as expected, and lists what is expected of it:
    a first record under its identity when its traversal returns it,
    nothing otherwise. *)
Definition child_listed
  (trav : WebElement -> nat -> IdToElement -> IdToElement * result (option Z))
  (list_child : WebElement -> nat -> IdToElement)
  (ans : WebElement -> nat -> result (option Z)) (c : WebElement) : Prop :=
  (forall i d,
      NoDup (hashes c) ->
      (forall h, In h (hashes c) -> ~ In h (PyDict.keys d)) ->
      trav c i d = ((d ++ list_child c i)%list, ans c i))
  /\ (forall i,
        incl (PyDict.keys (list_child c i)) (hashes c)
        /\ ((ans c i = Ok (Some (hash_of c))
             /\ exists it tl, list_child c i = (hash_of c, it) :: tl)
            \/ ((ans c i = Ok None \/ ans c i = Raise StaleElementReferenceException)
                /\ list_child c i = []))).

(** A record that is that of an element of [l] that passes the gate,
    under its identity and with its visibility. *)
Definition of_node (l : list WebElement) (entry : Z * ElementItem) : Prop :=
  exists m, In m l /\ hash_of m = fst entry /\ id (snd entry) = fst entry
            /\ is_visible (snd entry) = displayed m
            /\ displayed m || capture_invisible_elements = true.

End Listing.

(** An element that has an index has a list of siblings, as in every
    call of [traverse_dom]. *)
Definition siblings_given (index : option nat) (siblings : option (list WebElement))
  : Prop :=
  index <> None -> siblings <> None.

(** What one call of [traverse_dom] keeps and adds. *)
Definition keeps (capture_invisible_elements : bool)
  (run : IdToElement -> IdToElement * result (option Z)) : Prop :=
  forall d d' r,
    run d = (d', r) ->
    consistent capture_invisible_elements d ->
    consistent capture_invisible_elements d'
    /\ incl (PyDict.keys d) (PyDict.keys d')
    /\ (forall k, r = Ok (Some k) -> In k (PyDict.keys d')).

(** The only exception that leaves a call. *)
Definition stale_only (run : IdToElement -> IdToElement * result (option Z)) : Prop :=
  forall d ex, snd (run d) = Raise ex -> ex = StaleElementReferenceException.

(** Whether the record of a dictionary entry has [is_visible] true. *)
Definition shown (entry : Z * ElementItem) : bool := is_visible (snd entry).

(** The records with the flag off, seen from those with the flag on:
    nothing, or the same first record followed by some of the others. *)
Definition pruned (off on : IdToElement) : Prop :=
  off = [] \/ exists x tf tn, off = x :: tf /\ on = x :: tn /\ incl tf tn.

(** The first record is shown, or no record is. *)
Definition led_or_hidden (l : IdToElement) : Prop :=
  (exists k it tl, l = (k, it) :: tl /\ is_visible it = true)
  \/ (forall entry, In entry l -> shown entry = false).

End DomView.

(* ================================================================== *)
(** ** Small pages, for the examples *)

Module Pages.

(** The length of its markup as the hash of a string. *)
Definition by_length (markup : string) : Z := Z.of_nat (String.length markup).

(** An element whose handle is not stale, with some geometry. *)
Definition element (markup tag_name : string) (id_attr class_attr : option string)
  (displayed : bool) (kids : list WebElement) : WebElement :=
  mkWebElement false markup tag_name id_attr class_attr displayed "static"
    (Build_Rect 10 20 100 200) (Build_Rect 10 20 100 200) kids.

(** The page of the end-to-end case: a header and its title. *)
Definition header_page : WebElement :=
  element "<div id=header><span class=title></span></div>" "div" (Some "header") None
    true [element "<span class=title></span>" "span" None (Some "title") true []].

(** A page with twice the same hidden paragraph. *)
Definition hidden_twins : WebElement :=
  element "<html><p hidden></p><p hidden></p></html>" "html" None None true
    [element "<p hidden></p>" "p" None None false [];
     element "<p hidden></p>" "p" None None false []].

(** A page with twice the same displayed paragraph. *)
Definition twins : WebElement :=
  element "<html><p></p><p></p></html>" "html" None None true
    [element "<p></p>" "p" None None true [];
     element "<p></p>" "p" None None true []].

(** A displayed emphasis inside a paragraph that is not displayed. *)
Definition shown_in_hidden : WebElement :=
  element "<html><p><em></em></p></html>" "html" None None true
    [element "<p><em></em></p>" "p" None None false
       [element "<em></em>" "em" None None true []]].

(** A paragraph that is not displayed, nor is the emphasis inside it,
    next to a displayed one. *)
Definition hidden_branch : WebElement :=
  element "<html><p><em></em></p><b></b></html>" "html" None None true
    [element "<p><em></em></p>" "p" None None false
       [element "<em></em>" "em" None None false []];
     element "<b></b>" "b" None None true []].

(** Twice the same paragraph, the first one not displayed. *)
Definition first_twin_hidden : WebElement :=
  element "<html><p></p><p></p></html>" "html" None None true
    [element "<p></p>" "p" None None false [];
     element "<p></p>" "p" None None true []].

End Pages.

(* ================================================================== *)
(** ** shooter/drivers/base.py: the driver session *)

Module Base.
Import Actions.

(** A connection built by [setup_driver]: the proxy it goes through and
    the position of its entry in [_setup_driver_list]. *)
Record WebDriver := { proxy : option string; endpoint : nat }.

(** Durations handed to [time.sleep] and to the selector wait. *)
Definition seconds := Z.

(** What a method does to the outside world, in the order it happens.
    Of the [logger.info] lines only the one announcing an action is
    kept. *)
Inductive Effect : Type :=
| SetupDriver (d : WebDriver)
| Quit (d : WebDriver)
| Get (d : WebDriver) (url : string)
| Sleep (t : seconds)
| WaitForSelector (d : WebDriver) (css_selector : string) (timeout : seconds)
| ExecuteScript (d : WebDriver) (script : string)
| LogPerforming (action : BaseAction) (script : string)
| LogWarning (e : exn)
| LogError (e : exn)
| PerformFullPageScreenshot (file_path : string)
| PerformViewportScreenshot (file_path : string).

(** The fields of a [BaseScreenshooter] that the methods read and write,
    and the effects it has had so far. *)
Record BaseScreenshooter := {
  setup_driver_list : list (option string);
  current_driver_index : nat;
  current_driver : option WebDriver;
  effects : list Effect }.

(** The [proxy] argument of [__init__]: absent, one connection string,
    or a list of them. *)
Inductive ProxyArg : Type :=
| NoProxy
| ProxyStr (conn : string)
| ProxyList (conns : list string).

(** [BaseScreenshooter.__init__]: anything that is not a list is wrapped
    in a one-element list; one lazy driver is set up per entry. *)
Definition init (proxy : ProxyArg) : BaseScreenshooter :=
  let proxy :=
    match proxy with
    | ProxyList l => map Some l
    | ProxyStr c => [Some c]
    | NoProxy => [None]
    end in
  {| setup_driver_list := proxy;
     current_driver_index := 0;
     current_driver := None;
     effects := [] |}.

(** A method: it may change the object, and returns or raises. *)
Definition M (A : Type) : Type := BaseScreenshooter -> BaseScreenshooter * result A.

Definition ret {A} (a : A) : M A := fun s => (s, Ok a).
Definition raise {A} (e : exn) : M A := fun s => (s, Raise e).
(** A computation that does not touch the object. *)
Definition lift {A} (r : result A) : M A := fun s => (s, r).
Definition mbind {A B} (m : M A) (k : A -> M B) : M B :=
  fun s =>
    match m s with
    | (s', Ok a) => k a s'
    | (s', Raise e) => (s', Raise e)
    end.
Definition emit (ev : Effect) : M unit :=
  fun s =>
    ({| setup_driver_list := setup_driver_list s;
        current_driver_index := current_driver_index s;
        current_driver := current_driver s;
        effects := effects s ++ [ev] |}, Ok tt).

Notation "x <<- c ;; k" := (mbind c (fun x => k))
  (at level 61, c at next level, right associativity).
Notation "c ;;; k" := (mbind c (fun _ => k))
  (at level 61, right associativity).

(** The [driver] property. *)
Definition driver : M WebDriver :=
  fun s =>
    if (List.length (setup_driver_list s) <=? current_driver_index s)%nat
    then (s, Raise NoDriverRemainingError)
    else
      match current_driver s with
      | None =>
          let d := {| proxy := nth (current_driver_index s) (setup_driver_list s) None;
                      endpoint := current_driver_index s |} in
          ({| setup_driver_list := setup_driver_list s;
              current_driver_index := current_driver_index s;
              current_driver := Some d;
              effects := effects s ++ [SetupDriver d] |}, Ok d)
      | Some d => (s, Ok d)
      end.

(** [rotate_driver]: [self._current_driver.quit()] on [None] is an
    [AttributeError]. *)
Definition rotate_driver : M unit :=
  fun s =>
    match current_driver s with
    | None => (s, Raise AttributeError)
    | Some d =>
        ({| setup_driver_list := setup_driver_list s;
            current_driver_index := current_driver_index s + 1;
            current_driver := None;
            effects := effects s ++ [Quit d] |}, Ok tt)
    end.

(** [time.sleep]: a negative duration is a [ValueError], raised before
    any time passes. *)
Definition sleep (t : seconds) : M unit :=
  if (t <? 0)%Z then raise ValueError else emit (Sleep t).

(** [_normalize_hostname] *)
Definition _normalize_hostname (hostname : string) : string :=
  replace "www." "" hostname.

(** [self._normalize_hostname(urlparse(...).hostname)] on what
    [urlparse(...).hostname] answers: [None.replace] is an
    [AttributeError], and the exception of a URL that does not parse goes
    through. *)
Definition host_of (parsed : result (option string)) : result string :=
  match parsed with
  | Ok (Some hostname) => Ok (_normalize_hostname hostname)
  | Ok None => Raise AttributeError
  | Raise e => Raise e
  end.

Section Browser.
(** [urlparse(url).hostname]: the host of the URL, [None] when it has
    none, or the [ValueError] of a URL that does not parse. *)
Variable hostname : string -> result (option string).
(** [driver.current_url] once the page has been requested. *)
Variable current_url : WebDriver -> string.
(** Whether the selector shows up on the page within the timeout. *)
Variable selector_located : WebDriver -> string -> bool.
(** Whether running the script raises [JavascriptException]. *)
Variable script_fails : WebDriver -> string -> bool.

(** [wait_for_selector] *)
Definition wait_for_selector (css_selector : string) (timeout : seconds) : M unit :=
  d <<- driver ;;
  emit (WaitForSelector d css_selector timeout) ;;;
  if selector_located d css_selector then ret tt else raise TimeoutException.

(** [load_page_and_check] *)
Definition load_page_and_check
  (url : string) (wait_after_load wait_before_load : seconds)
  (wait_for_sel : option string) (wait_for_selector_timeout : seconds) : M unit :=
  sleep wait_before_load ;;;
  d <<- driver ;;
  emit (Get d url) ;;;
  sleep wait_after_load ;;;
  match wait_for_sel with
  | Some sel => wait_for_selector sel wait_for_selector_timeout
  | None => ret tt
  end ;;;
  expected_hostname <<- lift (host_of (hostname url)) ;;
  d' <<- driver ;;
  current_hostname <<- lift (host_of (hostname (current_url d'))) ;;
  if String.eqb expected_hostname current_hostname then ret tt
  else raise RuntimeError.

(** The [while not page_loaded] loop of [load_page_with_checks];
    [fuel] bounds the number of iterations. *)
Fixpoint load_loop (fuel : nat)
  (url : string) (wait_after_load wait_before_load : seconds)
  (wait_for_sel : option string) (wait_for_selector_timeout : seconds)
  (s : BaseScreenshooter) : option (BaseScreenshooter * result bool) :=
  match fuel with
  | O => None
  | S fuel' =>
      match load_page_and_check url wait_after_load wait_before_load
              wait_for_sel wait_for_selector_timeout s with
      | (s1, Ok _) => Some (s1, Ok true)
      | (s1, Raise NoDriverRemainingError) => Some (s1, Ok false)
      | (s1, Raise exc) =>
          if exn_eqb exc RuntimeError || exn_eqb exc TimeoutException then
            match (rotate_driver ;;; emit (LogError exc)) s1 with
            | (s2, Ok _) =>
                load_loop fuel' url wait_after_load wait_before_load
                  wait_for_sel wait_for_selector_timeout s2
            | (s2, Raise e) => Some (s2, Raise e)
            end
          else Some (s1, Raise exc)
      end
  end.

(** [load_page_with_checks].  Every retry follows a rotation, which
    moves the cursor one step towards the end of the list: one
    iteration per remaining endpoint and one more are enough. *)
Definition load_page_with_checks
  (url : string) (wait_after_load wait_before_load : seconds)
  (wait_for_sel : option string) (wait_for_selector_timeout : seconds)
  (s : BaseScreenshooter) : option (BaseScreenshooter * result bool) :=
  load_loop (S (List.length (setup_driver_list s) - current_driver_index s))
    url wait_after_load wait_before_load wait_for_sel
    wait_for_selector_timeout s.

(** [safe_execute], for the scripts whose value is not used. *)
Definition safe_execute (script : string) : M unit :=
  d <<- driver ;;
  emit (ExecuteScript d script) ;;;
  if script_fails d script then emit (LogWarning JavascriptException)
  else ret tt.

(** [trigger_reflow] *)
Definition trigger_reflow : M unit :=
  safe_execute "return document.body.offsetHeight;".

(** [perform_actions] *)
Fixpoint perform_actions (actions : list BaseAction) (pause_between_actions : seconds)
  : M unit :=
  match actions with
  | [] => ret tt
  | action :: rest =>
      let script := to_javascript action in
      emit (LogPerforming action script) ;;;
      safe_execute script ;;;
      trigger_reflow ;;;
      sleep pause_between_actions ;;;
      perform_actions rest pause_between_actions
  end.

(** [take_full_page_screenshot] *)
Definition take_full_page_screenshot
  (file_path : string) (scroll_pause_time : seconds)
  (actions : option (list BaseAction)) : M unit :=
  match actions with
  | Some actions =>
      perform_actions (actions ++ [ScrollToTop])%list scroll_pause_time
  | None => ret tt
  end ;;;
  emit (PerformFullPageScreenshot file_path).

(** [take_viewport_screenshot] *)
Definition take_viewport_screenshot
  (file_path : string) (scroll_pause_time : seconds)
  (actions : option (list BaseAction)) : M unit :=
  match actions with
  | Some actions => perform_actions actions scroll_pause_time
  | None => ret tt
  end ;;;
  emit (PerformViewportScreenshot file_path).

End Browser.
End Base.

(* ================================================================== *)
(** ** Vocabulary of the statements *)

Module Observe.
Import Actions Base.

(** [s] after the effects [evs], nothing else changed. *)
Definition add_effects (evs : list Effect) (s : BaseScreenshooter) : BaseScreenshooter :=
  {| setup_driver_list := setup_driver_list s;
     current_driver_index := current_driver_index s;
     current_driver := current_driver s;
     effects := effects s ++ evs |}.

(** A session whose current connection [d] is open. *)
Definition live (s : BaseScreenshooter) (d : WebDriver) : Prop :=
  current_driver s = Some d
  /\ (current_driver_index s < List.length (setup_driver_list s))%nat.

Definition is_setup (ev : Effect) : bool :=
  match ev with SetupDriver _ => true | _ => false end.
Definition is_quit (ev : Effect) : bool :=
  match ev with Quit _ => true | _ => false end.
Definition is_get (ev : Effect) : bool :=
  match ev with Get _ _ => true | _ => false end.
Definition is_log_error (ev : Effect) : bool :=
  match ev with LogError _ => true | _ => false end.

(** How many connections were opened, closed, asked for a page; how
    many errors were logged. *)
Definition connections (evs : list Effect) : nat := List.length (filter is_setup evs).
Definition rotations (evs : list Effect) : nat := List.length (filter is_quit evs).
Definition page_loads (evs : list Effect) : nat := List.length (filter is_get evs).
Definition logged_errors (evs : list Effect) : nat := List.length (filter is_log_error evs).

(** The actions announced, and the scripts sent to the browser. *)
Fixpoint actions_performed (evs : list Effect) : list BaseAction :=
  match evs with
  | [] => []
  | LogPerforming a _ :: evs' => a :: actions_performed evs'
  | _ :: evs' => actions_performed evs'
  end.

Fixpoint scripts_run (evs : list Effect) : list string :=
  match evs with
  | [] => []
  | ExecuteScript _ script :: evs' => script :: scripts_run evs'
  | _ :: evs' => scripts_run evs'
  end.

Definition reflow_script : string := "return document.body.offsetHeight;".

(** The effects of replaying one action on the open connection [d]. *)
Definition replay_one (script_fails : WebDriver -> string -> bool)
  (d : WebDriver) (pause : seconds) (a : BaseAction) : list Effect :=
  [LogPerforming a (to_javascript a); ExecuteScript d (to_javascript a)]
  ++ (if script_fails d (to_javascript a) then [LogWarning JavascriptException] else [])
  ++ [ExecuteScript d reflow_script]
  ++ (if script_fails d reflow_script then [LogWarning JavascriptException] else [])
  ++ [Sleep pause].

Definition replay (script_fails : WebDriver -> string -> bool)
  (d : WebDriver) (pause : seconds) (l : list BaseAction) : list Effect :=
  flat_map (replay_one script_fails d pause) l.

(** One access to [driver] followed by one rotation, [k] times over;
    the result is the state reached, or the first exception. *)
Fixpoint use_and_rotate (k : nat) : M unit :=
  match k with
  | O => ret tt
  | S k' => (_ <<- driver ;; rotate_driver) ;;; use_and_rotate k'
  end.

(** Calls on the session, in any order, exceptions ignored. *)
Inductive Call : Type := AccessDriver | RotateDriver.

Definition call (c : Call) (s : BaseScreenshooter) : BaseScreenshooter :=
  match c with
  | AccessDriver => fst (driver s)
  | RotateDriver => fst (rotate_driver s)
  end.

Definition calls (cs : list Call) (s : BaseScreenshooter) : BaseScreenshooter :=
  fold_left (fun s c => call c s) cs s.

(** The URL has a host: [urlparse(url).hostname] is a string. *)
Definition has_host (hostname : string -> result (option string)) (url : string) : Prop :=
  exists h, hostname url = Ok (Some h).

(** What one run of the load sequence on the open connection [d] ends
    in, when neither wait is negative. *)
Definition attempt
  (hostname : string -> result (option string)) (current_url : WebDriver -> string)
  (selector_located : WebDriver -> string -> bool)
  (url : string) (wait_for_sel : option string) (d : WebDriver) : result unit :=
  _ <- match wait_for_sel with
       | Some sel => if selector_located d sel then Ok tt else Raise TimeoutException
       | None => Ok tt
       end ;;
  expected_hostname <- host_of (hostname url) ;;
  current_hostname <- host_of (hostname (current_url d)) ;;
  if String.eqb expected_hostname current_hostname then Ok tt else Raise RuntimeError.

(** The connection that [driver] builds at position [j] of the list [l]. *)
Definition driver_at (l : list (option string)) (j : nat) : WebDriver :=
  {| proxy := nth j l None; endpoint := j |}.

(** The connection an access to [driver] answers with, when the cursor
    is inside the list: the cached one, or a new one for the cursor's
    endpoint. *)
Definition connection (s : BaseScreenshooter) : WebDriver :=
  match current_driver s with
  | Some d => d
  | None => driver_at (setup_driver_list s) (current_driver_index s)
  end.

(** The session after that access. *)
Definition connect (s : BaseScreenshooter) : BaseScreenshooter :=
  {| setup_driver_list := setup_driver_list s;
     current_driver_index := current_driver_index s;
     current_driver := Some (connection s);
     effects :=
       effects s
         ++ match current_driver s with
            | Some _ => []
            | None => [SetupDriver (connection s)]
            end |}.

(** What the load sequence does on the connection [d] once it has it. *)
Definition load_effects (url : string) (wait_after_load : seconds)
  (wait_for_sel : option string) (timeout : seconds) (d : WebDriver) : list Effect :=
  [Get d url; Sleep wait_after_load]
    ++ match wait_for_sel with
       | Some sel => [WaitForSelector d sel timeout]
       | None => []
       end.

(** The only errors logged are host mismatches and selector timeouts. *)
Definition retryable_only (evs : list Effect) : Prop :=
  Forall (fun ev =>
            match ev with
            | LogError e => e = RuntimeError \/ e = TimeoutException
            | _ => True
            end) evs.

(** The scripts of a click by class and by selector, and a click action
    with the three predicates [i], [c] and [q]. *)
Definition by_class (c : string) : string :=
  "document.getElementsByClassName(" ++ dq ++ c ++ dq ++ ")[0].click();".

Definition by_selector (q : string) : string :=
  "document.querySelector(" ++ dq ++ q ++ dq ++ ").click();".

Definition click (i c q : option string) : ClickElementAction :=
  {| element_id := i; element_class := c; element_query_selector := q |}.

(** The effects of running one script on the open connection [d]. *)
Definition run_effects (script_fails : WebDriver -> string -> bool)
  (d : WebDriver) (script : string) : list Effect :=
  ExecuteScript d script
    :: (if script_fails d script then [LogWarning JavascriptException] else []).

(** The effects of [k] rounds of access and rotation from position [i]. *)
Definition round_effects (l : list (option string)) (i k : nat) : list Effect :=
  flat_map (fun j => [SetupDriver (driver_at l j); Quit (driver_at l j)]) (seq i k).

(** What every sequence of accesses and rotations keeps true of a session
    with the endpoint list [l]: one connection was opened per position
    left behind, and one more when a connection is open. *)
Definition accounted (l : list (option string)) (s : BaseScreenshooter) : Prop :=
  setup_driver_list s = l
  /\ (current_driver_index s <= List.length l)%nat
  /\ match current_driver s with
     | Some _ =>
         (current_driver_index s < List.length l)%nat
         /\ connections (effects s) = S (current_driver_index s)
     | None => connections (effects s) = current_driver_index s
     end.

(** What a run of the loop from [s] to [s'] with answer [b] did: [k]
    failed attempts, each followed by one rotation and one logged error,
    and one more page load when the last attempt succeeded. *)
Definition loop_run
  (hostname : string -> result (option string)) (current_url : WebDriver -> string)
  (selector_located : WebDriver -> string -> bool)
  (url : string) (wait_for_sel : option string)
  (s s' : BaseScreenshooter) (b : bool) (k : nat) (new : list Effect) : Prop :=
  setup_driver_list s' = setup_driver_list s
  /\ current_driver_index s' = (current_driver_index s + k)%nat
  /\ effects s' = (effects s ++ new)%list
  /\ rotations new = k
  /\ logged_errors new = k
  /\ page_loads new = (k + if b then 1 else 0)%nat
  /\ retryable_only new
  /\ (b = true ->
        exists d, live s' d
          /\ attempt hostname current_url selector_located url wait_for_sel d = Ok tt)
  /\ (b = false ->
        (List.length (setup_driver_list s') <= current_driver_index s')%nat).

End Observe.

(* ================================================================== *)
(** ** shooter/drivers/base.py: the rest of the session *)

Module Session.
Import Actions Base Observe.

(** The setter of the [driver] property. *)
Definition driver_setter (value : WebDriver) : M unit :=
  fun s =>
    ({| setup_driver_list := setup_driver_list s;
        current_driver_index := current_driver_index s;
        current_driver := Some value;
        effects := effects s |}, Ok tt).

(** [__del__]: [self.driver.quit()], the exhaustion of the endpoints
    being passed over. *)
Definition __del__ : M unit :=
  fun s =>
    match (d <<- driver ;; emit (Quit d)) s with
    | (s', Raise NoDriverRemainingError) => (s', Ok tt)
    | (s', r) => (s', r)
    end.

(** The connections asked for a page, with the address, in order. *)
Fixpoint requests (evs : list Effect) : list (WebDriver * string) :=
  match evs with
  | [] => []
  | Get d url :: evs' => (d, url) :: requests evs'
  | _ :: evs' => requests evs'
  end.

(** The connections a session can still give, in the order it gives
    them: the one an access answers with now, then one per endpoint
    after the cursor. *)
Definition candidates (s : BaseScreenshooter) : list WebDriver :=
  let l := setup_driver_list s in
  let i := current_driver_index s in
  if (List.length l <=? i)%nat then []
  else connection s :: map (driver_at l) (seq (S i) (List.length l - S i)).

(** What a run of the page-load loop from [s] to [s'] with answer [b]
    asked, and of which connections: the first [k] candidates failed,
    the next one, if any was asked, went through.  [outcome] is what
    the load sequence ends in on a connection. *)
Definition in_order (outcome : WebDriver -> result unit) (url : string)
  (s s' : BaseScreenshooter) (b : bool) (k : nat) : Prop :=
  requests (effects s')
  = (requests (effects s)
       ++ map (fun d => (d, url)) (firstn (k + if b then 1 else 0) (candidates s)))%list
  /\ Forall (fun d => outcome d <> Ok tt) (firstn k (candidates s))
  /\ (b = true ->
      exists d, nth_error (candidates s) k = Some d /\ outcome d = Ok tt
                /\ current_driver s' = Some d)
  /\ (b = false -> k = List.length (candidates s)).

End Session.

(* ================================================================== *)
(** ** The records of a page, seen from its elements *)

Module Records.
Import Draw Traversal DomView.

Section Describes.
Variable str_hash : string -> Z.
Variable full_page_screenshot : bool.
Variable pixel_ratio : Z -> Z.

(** The corners of a rectangle, scaled as [from_web_element] does. *)
Definition scaled (rect : Rect) : Z * Z * Z * Z :=
  (pixel_ratio (left rect), pixel_ratio (top rect),
   pixel_ratio (left rect + width rect)%Z,
   pixel_ratio (top rect + height rect)%Z).

(** The record [it] carries the data of the element [n], whose handle
    is not stale. *)
Definition describes (n : WebElement) (it : ElementItem) : Prop :=
  stale n = false
  /\ id it = hash_of str_hash n
  /\ tag_name it = tag n
  /\ label it = tag n
  /\ position it = css_position n
  /\ is_visible it = displayed n
  /\ bbox it
     = scaled (if full_page_screenshot then location_size n else client_rect n).

(** [it] has for parent the identity of an element of the page of which
    the element it is the record of is a child. *)
Definition child_of (root : WebElement) (it : ElementItem) (p : Z) : Prop :=
  exists n c, In n (nodes root) /\ In c (child_nodes n)
              /\ id it = hash_of str_hash c /\ p = hash_of str_hash n.

End Describes.

(** A record with its parent forgotten, and a dictionary of such. *)
Definition orphan (it : ElementItem) : ElementItem :=
  {| id := id it;
     parent_id := None;
     bbox := bbox it;
     tag_name := tag_name it;
     label := label it;
     position := position it;
     is_visible := is_visible it;
     css_selector := css_selector it |}.

Definition orphans (d : IdToElement) : IdToElement :=
  map (fun entry => (fst entry, orphan (snd entry))) d.

(** An italic whose handle is stale, before a bold that holds an
    emphasis. *)
Definition after_stale : WebElement :=
  Pages.element "<html><i></i><b><em></em></b></html>" "html" None None true
    [mkWebElement true "<i></i>" "i" None None true "static"
       (Build_Rect 0 0 0 0) (Build_Rect 0 0 0 0) [];
     Pages.element "<b><em></em></b>" "b" None None true
       [Pages.element "<em></em>" "em" None None true []]].

(** Every element of the page gets a record: no handle is stale and
    every element passes the visibility test. *)
Definition all_recorded (capture_invisible_elements : bool) (root : WebElement) : Prop :=
  Forall (fun n => stale n = false
                   /\ displayed n || capture_invisible_elements = true) (nodes root).

Section Reach.
Variable str_hash : string -> Z.
Variable capture_invisible_elements : bool.

(** The traversal reaches the element [n] when it is called on [e] with
    the siblings and the index given, [seen] holding the identities of
    the elements that come before [e] in the document.  [path] gives the
    way from [e] down to [n], as the positions of the children to go
    through.  Every element on the way, [n] included, passes the tests
    that come before its record is built: its handle is not stale, it
    passes the visibility test, and no sibling before it has a stale
    handle.  Every element above [n] has its children looked at: its
    identity is that of no element that comes before it in the
    document. *)
Fixpoint reaches (seen : list Z) (e : WebElement)
  (siblings : option (list WebElement)) (index : option nat)
  (path : list nat) (n : WebElement) {struct path} : Prop :=
  recorded capture_invisible_elements e index siblings = true
  /\ match path with
     | [] => n = e
     | i :: path' =>
         ~ In (hash_of str_hash e) seen
         /\ exists c,
              nth_error (child_nodes e) i = Some c
              /\ reaches
                   (seen ++ hash_of str_hash e
                      :: flat_map (hashes str_hash) (firstn i (child_nodes e)))
                   c (Some (child_nodes e)) (Some i) path' n
     end.

End Reach.

End Records.

(* ================================================================== *)
(** ** shooter/actions.py: the shape of the scroll scripts *)

Module Scroll.

(** The script that scrolls the window, or the element selected by
    [q], by the amount written [amount]. *)
Definition scroll_by (q : option string) (amount : string) : string :=
  match q with
  | None => "window.scrollBy(0, " ++ amount ++ ");"
  | Some q =>
      "document.querySelector(" ++ dq ++ q ++ dq ++ ").scrollBy(0, " ++ amount ++ ");"
  end.

End Scroll.

(* ================================================================== *)
(** ** More of Python's strings *)

Module PyStr.

(** [s.split(sep)] for a non-empty [sep]: the separators are found from
    left to right and do not overlap.  [cur] is the piece being read,
    [skip] counts the characters of the separator just found that are
    still to be passed over. *)
Fixpoint split_from (sep : string) (skip : nat) (cur : string) (s : string)
  : list string :=
  match s with
  | EmptyString => [cur]
  | String c s' =>
      match skip with
      | S k => split_from sep k cur s'
      | O =>
          if startswith sep s
          then cur :: split_from sep (String.length sep - 1) EmptyString s'
          else split_from sep 0 (cur ++ String c EmptyString) s'
      end
  end.

Definition split (sep s : string) : list string := split_from sep 0 EmptyString s.

(** [sep.join(parts)] *)
Fixpoint join (sep : string) (parts : list string) : string :=
  match parts with
  | [] => EmptyString
  | [part] => part
  | part :: rest => part ++ sep ++ join sep rest
  end.

(** [s.isascii()] *)
Fixpoint isascii (s : string) : bool :=
  match s with
  | EmptyString => true
  | String c s' => (nat_of_ascii c <? 128)%nat && isascii s'
  end.

(** [c.isdigit()] for an ASCII character, and [s.isdigit()] for a string
    of them: at least one character, and digits only. *)
Definition is_digit (c : ascii) : bool :=
  let n := nat_of_ascii c in ((48 <=? n) && (n <=? 57))%nat.

Fixpoint all_digits (s : string) : bool :=
  match s with
  | EmptyString => true
  | String c s' => is_digit c && all_digits s'
  end.

Definition isdigit (s : string) : bool :=
  match s with
  | EmptyString => false
  | String _ _ => all_digits s
  end.

(** The number that a string of digits writes in base ten. *)
Definition decimal (s : string) : Z :=
  match NilZero.uint_of_string s with
  | Some d => Z.of_uint d
  | None => 0%Z
  end.

(** The longest string of digits that [int] converts, in the
    interpreters that set a limit. *)
Definition max_str_digits : nat := 4300.

Section Int.
(** [int(s)] on the strings that are not made of ASCII digits only, or
    of more of them than the limit: those with a sign, blanks or
    underscores among them. *)
Variable int_other : string -> result Z.

(** [int(s)] *)
Definition int_of_str (s : string) : result Z :=
  if isdigit s && (String.length s <=? max_str_digits)%nat
  then Ok (decimal s)
  else int_other s.

(** [list(map(int, parts))] *)
Fixpoint map_int (parts : list string) : result (list Z) :=
  match parts with
  | [] => Ok []
  | part :: rest =>
      n <- int_of_str part ;;
      ns <- map_int rest ;;
      Ok (n :: ns)
  end.
End Int.

End PyStr.

(* ================================================================== *)
(** ** shooter/drivers/device.py *)

Module Device.

(** [DeviceConfig]; the pixel ratio is a rational number. *)
Record DeviceConfig := {
  width : Z;
  height : Z;
  pixel_ratio : QArith_base.Q;
  is_mobile_view : bool;
  user_agent : option string }.

(** [DeviceConfig.get_window_size] *)
Definition get_window_size (self : DeviceConfig) : string :=
  str_of_int (width self) ++ "x" ++ str_of_int (height self).

Inductive Device : Type := DESKTOP | IPHONE_X | IPHONE_15 | SAMSUNG_GALAXY_S20.

(** [Device.get_device_config] *)
Definition get_device_config (self : Device) : DeviceConfig :=
  match self with
  | DESKTOP =>
      {| width := 1920; height := 1080; pixel_ratio := QArith_base.Qmake 1 1;
         is_mobile_view := false; user_agent := None |}
  | IPHONE_X =>
      {| width := 414; height := 896; pixel_ratio := QArith_base.Qmake 2 1;
         is_mobile_view := true;
         user_agent := Some "Mozilla/5.0 (iPhone; CPU iPhone OS 12_0 like Mac OS X) AppleWebKit/605.1.15 (KHTML, like Gecko) Version/12.0 Mobile/15E148 Safari/604.1" |}
  | IPHONE_15 =>
      {| width := 428; height := 926; pixel_ratio := QArith_base.Qmake 3 1;
         is_mobile_view := true;
         user_agent := Some "Mozilla/5.0 (iPhone; CPU iPhone OS 15_0 like Mac OS X) AppleWebKit/605.1.15 (KHTML, like Gecko) Version/15.0 Mobile/15E148 Safari/604.1" |}
  | SAMSUNG_GALAXY_S20 =>
      {| width := 320; height := 720; pixel_ratio := QArith_base.Qmake 7 2;
         is_mobile_view := true;
         user_agent := Some "Mozilla/5.0 (Linux; Android 10; Samsung Galaxy S20) AppleWebKit/537.36 (KHTML, like Gecko) Chrome/88.0.4324.93 Mobile Safari/537.36" |}
  end.

End Device.

(* ================================================================== *)
(** ** shooter/drivers/chrome.py and firefox.py: the window size *)

Module Setup.
Import PyStr Device.

Section Window.
Variable int_other : string -> result Z.

(** The part of [setup_driver] that overrides the resolution of the
    device, the same in both drivers:
    [self.device_config.width, self.device_config.height =
       list(map(int, window_size.split("x")))].
    Every part is converted before the list is unpacked, and unpacking
    anything but two values is a [ValueError]. *)
Definition override_window_size (window_size : option string)
  (device_config : DeviceConfig) : result DeviceConfig :=
  match window_size with
  | None => Ok device_config
  | Some ws =>
      values <- map_int int_other (split "x" ws) ;;
      match values with
      | [w; h] =>
          Ok {| width := w;
                height := h;
                pixel_ratio := pixel_ratio device_config;
                is_mobile_view := is_mobile_view device_config;
                user_agent := user_agent device_config |}
      | _ => Raise ValueError
      end
  end.
End Window.

End Setup.

(* ================================================================== *)
(** ** shooter/schema.py *)

Module Celery.
(** What an [AsyncResult] answers while the progress is computed:
    [ready()], [successful()] and [state]. *)
Record AsyncResult := { ready : bool; successful : bool; state : string }.
End Celery.

Module Schema.
Import PyStr.

(** [TakeScreenshotConfig.validate_window_size] *)
Definition validate_window_size (value : option string) : result (option string) :=
  match value with
  | None => Ok None
  | Some v =>
      let parts := split "x" v in
      if negb (List.length parts =? 2)%nat || negb (forallb isdigit parts)
      then Raise ValueError
      else Ok (Some v)
  end.

Record TaskProgressResponse := {
  completed : Z;
  failed : Z;
  total : Z;
  state : string;
  all_successful : bool;
  ready : bool }.

(** One turn of the loop that collects the statistics. *)
Definition collect (acc : Z * Z * list string) (result : Celery.AsyncResult)
  : Z * Z * list string :=
  let '(completed, failed, states) := acc in
  if Celery.ready result then
    if Celery.successful result
    then ((completed + 1)%Z, failed, (states ++ [Celery.state result])%list)
    else (completed, (failed + 1)%Z, (states ++ [Celery.state result])%list)
  else (completed, failed, (states ++ [Celery.state result])%list).

(** [TaskProgressResponse.from_async_result_list] *)
Definition from_async_result_list (async_result_list : list Celery.AsyncResult)
  : TaskProgressResponse :=
  let total := Z.of_nat (List.length async_result_list) in
  let '(completed, failed, states) :=
    fold_left collect async_result_list (0%Z, 0%Z, []) in
  let state :=
    if (0 <? List.length states)%nat && forallb (String.eqb "SUCCESS") states
    then "SUCCESS"
    else if existsb (String.eqb "PENDING") states then "PENDING"
    else if existsb (String.eqb "FAILURE") states then "FAILURE"
    else "UNKNOWN" in
  let all_successful :=
    (0 <? completed)%Z && (completed =? total)%Z && (failed =? 0)%Z in
  let ready := (completed + failed =? total)%Z in
  {| completed := completed;
     failed := failed;
     total := total;
     state := state;
     all_successful := all_successful;
     ready := ready |}.

End Schema.

(* ================================================================== *)
(** ** shooter/app.py: the name of the directory of a task *)

Module App.

(** The sanitized hostname of [_schedule_screenshot_task]: the
    hostname with the occurrences of two dots removed, then the
    slashes, then the backslashes. *)
Definition safe_hostname (hostname : string) : string :=
  replace "\" "" (replace "/" "" (replace ".." "" hostname)).

End App.

(* ================================================================== *)
(** * Properties *)

(** ** Actions *)

Module ActionsFacts.
Import Actions Observe.

(** C9, as stated, fails: an empty [element_id] with a non-null but
    empty [element_class] passes validation, and the class is not used;
    the script is the query-selector one. *)
Lemma click_empty_class_not_used :
  validate_at_least_one_attribute_is_not_null (click (Some "") (Some "") None)
    = Ok (click (Some "") (Some "") None)
  /\ click_element_to_javascript (click (Some "") (Some "") None)
    = by_selector "None"
  /\ click_element_to_javascript (click (Some "") (Some "") None)
    <> by_class "".
Proof. repeat split; vm_compute; discriminate. Qed.

(** C9 (amended): precedence is decided by truthiness.  An empty
    [element_id] alone passes the validation and yields the
    query-selector script with the null selector printed as [None];
    with an empty [element_id] and a non-empty [element_class] the class
    is used, whatever the selector. *)
Theorem click_precedence_by_truthiness :
  validate_at_least_one_attribute_is_not_null (click (Some "") None None)
    = Ok (click (Some "") None None)
  /\ to_javascript (ClickElement (click (Some "") None None))
    = by_selector "None"
  /\ (forall cls q, cls <> "" ->
        to_javascript (ClickElement (click (Some "") (Some cls) q)) = by_class cls).
Proof.
  repeat split.
  intros cls q Hcls. destruct cls as [|c cls]; [congruence | reflexivity].
Qed.

Lemma click_precedence_by_truthiness_witness :
  to_javascript (ClickElement (click (Some "") (Some "btn") (Some "#go")))
    = by_class "btn".
Proof.
  apply (proj2 (proj2 click_precedence_by_truthiness)). discriminate.
Defined.

End ActionsFacts.

(** ** The driver session *)

Module BaseFacts.
Import Actions Base Observe.

Lemma add_effects_nil (s : BaseScreenshooter) : add_effects [] s = s.
Proof. destruct s; unfold add_effects; cbn. now rewrite app_nil_r. Qed.

Lemma add_effects_app (a b : list Effect) (s : BaseScreenshooter) :
  add_effects b (add_effects a s) = add_effects (a ++ b) s.
Proof. unfold add_effects; cbn. now rewrite app_assoc. Qed.

Lemma emit_eq (ev : Effect) (s : BaseScreenshooter) :
  emit ev s = (add_effects [ev] s, Ok tt).
Proof. reflexivity. Qed.

Lemma sleep_eq (t : seconds) (s : BaseScreenshooter) :
  (0 <= t)%Z -> sleep t s = (add_effects [Sleep t] s, Ok tt).
Proof.
  intros Ht. unfold sleep. destruct (Z.ltb_spec t 0); [lia|]. apply emit_eq.
Qed.

Lemma sleep_negative (t : seconds) (s : BaseScreenshooter) :
  (t < 0)%Z -> sleep t s = (s, Raise ValueError).
Proof.
  intros Ht. unfold sleep. destruct (Z.ltb_spec t 0); [reflexivity | lia].
Qed.

Lemma live_add_effects (evs : list Effect) (s : BaseScreenshooter) (d : WebDriver) :
  live s d -> live (add_effects evs s) d.
Proof. intros [Hc Hi]. split; cbn; assumption. Qed.

Lemma driver_live (s : BaseScreenshooter) (d : WebDriver) :
  live s d -> driver s = (s, Ok d).
Proof.
  intros [Hc Hi]. unfold driver.
  destruct (Nat.leb_spec (List.length (setup_driver_list s)) (current_driver_index s)).
  - lia.
  - now rewrite Hc.
Qed.

Lemma driver_connect (s : BaseScreenshooter) :
  (current_driver_index s < List.length (setup_driver_list s))%nat ->
  driver s = (connect s, Ok (connection s)).
Proof.
  intros Hi. unfold driver, connect, connection.
  destruct (Nat.leb_spec (List.length (setup_driver_list s)) (current_driver_index s));
    [lia|].
  destruct s as [l i c evs]; cbn in *. destruct c; [|reflexivity].
  now rewrite app_nil_r.
Qed.

Lemma live_connect (s : BaseScreenshooter) :
  (current_driver_index s < List.length (setup_driver_list s))%nat ->
  live (connect s) (connection s).
Proof. intros Hi. split; [reflexivity | exact Hi]. Qed.

Section Replay.
Variable script_fails : WebDriver -> string -> bool.

Lemma safe_execute_live (script : string) (s : BaseScreenshooter) (d : WebDriver) :
  live s d ->
  safe_execute script_fails script s = (add_effects (run_effects script_fails d script) s, Ok tt).
Proof.
  intros Hl. unfold safe_execute, mbind. rewrite (driver_live Hl), emit_eq.
  unfold run_effects. destruct (script_fails d script).
  - rewrite emit_eq, add_effects_app. reflexivity.
  - reflexivity.
Qed.

Lemma replay_one_eq (d : WebDriver) (pause : seconds) (a : BaseAction) :
  replay_one script_fails d pause a
  = ([LogPerforming a (to_javascript a)] ++ run_effects script_fails d (to_javascript a)
     ++ run_effects script_fails d reflow_script ++ [Sleep pause])%list.
Proof. reflexivity. Qed.

Lemma perform_actions_live (pause : seconds) (actions : list BaseAction) :
  (0 <= pause)%Z ->
  forall (s : BaseScreenshooter) (d : WebDriver),
    live s d ->
    perform_actions script_fails actions pause s
    = (add_effects (replay script_fails d pause actions) s, Ok tt).
Proof.
  intros Hp. induction actions as [|a rest IH]; intros s d Hl.
  - cbn. now rewrite add_effects_nil.
  - cbn [perform_actions replay flat_map]. unfold mbind at 1.
    rewrite emit_eq. unfold mbind at 1.
    rewrite (safe_execute_live _ (live_add_effects _ Hl)).
    unfold mbind at 1. unfold trigger_reflow.
    rewrite (safe_execute_live _ (live_add_effects _ (live_add_effects _ Hl))).
    unfold mbind at 1. rewrite (sleep_eq _ Hp).
    rewrite (IH _ d) by (repeat apply live_add_effects; exact Hl).
    rewrite !add_effects_app, replay_one_eq.
    unfold replay. repeat rewrite <- app_assoc. reflexivity.
Qed.

Lemma actions_performed_app (a b : list Effect) :
  actions_performed (a ++ b) = (actions_performed a ++ actions_performed b)%list.
Proof.
  induction a as [|ev a IH]; [reflexivity|].
  destruct ev; cbn; rewrite IH; reflexivity.
Qed.

Lemma scripts_run_app (a b : list Effect) :
  scripts_run (a ++ b) = (scripts_run a ++ scripts_run b)%list.
Proof.
  induction a as [|ev a IH]; [reflexivity|].
  destruct ev; cbn; rewrite IH; reflexivity.
Qed.

Lemma actions_performed_replay (d : WebDriver) (pause : seconds) (l : list BaseAction) :
  actions_performed (replay script_fails d pause l) = l.
Proof.
  induction l as [|a l IH]; [reflexivity|].
  cbn [replay flat_map]. rewrite actions_performed_app. fold (replay script_fails d pause l).
  rewrite IH. unfold replay_one.
  destruct (script_fails d (to_javascript a)), (script_fails d reflow_script);
    reflexivity.
Qed.

Lemma scripts_run_replay (d : WebDriver) (pause : seconds) (l : list BaseAction) :
  scripts_run (replay script_fails d pause l)
  = flat_map (fun a => [to_javascript a; reflow_script]) l.
Proof.
  induction l as [|a l IH]; [reflexivity|].
  cbn [replay flat_map]. rewrite scripts_run_app. fold (replay script_fails d pause l).
  rewrite IH. unfold replay_one.
  destruct (script_fails d (to_javascript a)), (script_fails d reflow_script);
    reflexivity.
Qed.

Lemma safe_execute_open (script : string) (s : BaseScreenshooter) :
  (current_driver_index s < List.length (setup_driver_list s))%nat ->
  safe_execute script_fails script s
  = (add_effects (run_effects script_fails (connection s) script) (connect s), Ok tt).
Proof.
  intros Hi. unfold safe_execute, mbind. rewrite (driver_connect s Hi), emit_eq.
  unfold run_effects. destruct (script_fails (connection s) script).
  - rewrite emit_eq, add_effects_app. reflexivity.
  - reflexivity.
Qed.

Lemma actions_performed_run (d : WebDriver) (script : string) :
  actions_performed (run_effects script_fails d script) = [].
Proof. unfold run_effects. destruct (script_fails d script); reflexivity. Qed.

Lemma scripts_run_run (d : WebDriver) (script : string) :
  scripts_run (run_effects script_fails d script) = [script].
Proof. unfold run_effects. destruct (script_fails d script); reflexivity. Qed.

Lemma connect_unseen (s : BaseScreenshooter) :
  actions_performed (effects (connect s)) = actions_performed (effects s)
  /\ scripts_run (effects (connect s)) = scripts_run (effects s).
Proof.
  unfold connect. cbn [effects]. rewrite actions_performed_app, scripts_run_app.
  destruct (current_driver s); cbn; now rewrite !app_nil_r.
Qed.

(** Replaying a list of actions on a session that has an endpoint left,
    with a pause that is not negative, or with nothing to replay: the
    connection is opened if need be, the actions are announced in order,
    and each sends its script and the reflow script. *)
Lemma perform_actions_open (pause : seconds) (actions : list BaseAction)
  (s : BaseScreenshooter) :
  (current_driver_index s < List.length (setup_driver_list s))%nat ->
  (0 <= pause)%Z \/ actions = [] ->
  exists s',
    perform_actions script_fails actions pause s = (s', Ok tt)
    /\ actions_performed (effects s')
       = (actions_performed (effects s) ++ actions)%list
    /\ scripts_run (effects s')
       = (scripts_run (effects s)
            ++ flat_map (fun a => [to_javascript a; reflow_script]) actions)%list.
Proof.
  intros Hi Hp. destruct actions as [|a rest].
  - exists s. cbn. now rewrite !app_nil_r.
  - destruct Hp as [Hp|Hp]; [|discriminate Hp].
    cbn [perform_actions]. unfold mbind at 1. rewrite emit_eq.
    set (s1 := add_effects [LogPerforming a (to_javascript a)] s).
    assert (Hi1 : (current_driver_index s1 < List.length (setup_driver_list s1))%nat)
      by exact Hi.
    unfold mbind at 1. rewrite (safe_execute_open _ s1 Hi1).
    pose proof (live_connect s1 Hi1) as Hl.
    set (d := connection s1) in *.
    set (s2 := add_effects (run_effects script_fails d (to_javascript a)) (connect s1)).
    assert (Hl2 : live s2 d) by (apply live_add_effects; exact Hl).
    unfold mbind at 1. unfold trigger_reflow.
    rewrite (safe_execute_live _ Hl2).
    unfold mbind at 1. rewrite (sleep_eq _ Hp), add_effects_app.
    rewrite (@perform_actions_live pause rest Hp _ d)
      by (apply live_add_effects; exact Hl2).
    rewrite add_effects_app. eexists. split; [reflexivity|].
    destruct (connect_unseen s1) as [Ha Hs].
    cbn [add_effects effects]. fold s2.
    unfold s2. cbn [add_effects effects].
    rewrite !actions_performed_app, !scripts_run_app, Ha, Hs.
    rewrite !actions_performed_run, !scripts_run_run.
    rewrite actions_performed_replay, scripts_run_replay.
    unfold s1. cbn [add_effects effects].
    rewrite actions_performed_app, scripts_run_app. cbn.
    rewrite !app_nil_r, <- !app_assoc. split; reflexivity.
Qed.

(** With a negative pause the first action is the last: its script and
    the reflow script are sent, and [time.sleep] raises. *)
Lemma perform_actions_negative (pause : seconds) (a : BaseAction)
  (rest : list BaseAction) (s : BaseScreenshooter) :
  (current_driver_index s < List.length (setup_driver_list s))%nat ->
  (pause < 0)%Z ->
  exists s',
    perform_actions script_fails (a :: rest) pause s = (s', Raise ValueError)
    /\ actions_performed (effects s') = (actions_performed (effects s) ++ [a])%list
    /\ scripts_run (effects s')
       = (scripts_run (effects s) ++ [to_javascript a; reflow_script])%list.
Proof.
  intros Hi Hp. cbn [perform_actions]. unfold mbind at 1. rewrite emit_eq.
  set (s1 := add_effects [LogPerforming a (to_javascript a)] s).
  assert (Hi1 : (current_driver_index s1 < List.length (setup_driver_list s1))%nat)
    by exact Hi.
  unfold mbind at 1. rewrite (safe_execute_open _ s1 Hi1).
  pose proof (live_connect s1 Hi1) as Hl.
  set (d := connection s1) in *.
  set (s2 := add_effects (run_effects script_fails d (to_javascript a)) (connect s1)).
  assert (Hl2 : live s2 d) by (apply live_add_effects; exact Hl).
  unfold mbind at 1. unfold trigger_reflow.
  rewrite (safe_execute_live _ Hl2).
  unfold mbind at 1. rewrite (sleep_negative _ Hp).
  eexists. split; [reflexivity|].
  destruct (connect_unseen s1) as [Ha Hs].
  unfold s2. cbn [add_effects effects].
  rewrite !actions_performed_app, !scripts_run_app, Ha, Hs.
  rewrite !actions_performed_run, !scripts_run_run.
  unfold s1. cbn [add_effects effects].
  rewrite actions_performed_app, scripts_run_app. cbn.
  rewrite !app_nil_r, <- !app_assoc. split; reflexivity.
Qed.


End Replay.


End BaseFacts.

(** ** Rotation of the connections *)

Module RotationFacts.
Import Actions Base Observe BaseFacts.

Lemma rotate_driver_none (s : BaseScreenshooter) :
  current_driver s = None -> rotate_driver s = (s, Raise AttributeError).
Proof. intros H. unfold rotate_driver. now rewrite H. Qed.

Lemma rotate_driver_some (s : BaseScreenshooter) (d : WebDriver) :
  current_driver s = Some d ->
  rotate_driver s
  = ({| setup_driver_list := setup_driver_list s;
        current_driver_index := current_driver_index s + 1;
        current_driver := None;
        effects := effects s ++ [Quit d] |}, Ok tt).
Proof. intros H. unfold rotate_driver. now rewrite H. Qed.

Lemma driver_exhausted (s : BaseScreenshooter) :
  (List.length (setup_driver_list s) <= current_driver_index s)%nat ->
  driver s = (s, Raise NoDriverRemainingError).
Proof.
  intros H. unfold driver.
  destruct (Nat.leb_spec (List.length (setup_driver_list s)) (current_driver_index s));
    [reflexivity | lia].
Qed.

Lemma driver_fresh (s : BaseScreenshooter) :
  (current_driver_index s < List.length (setup_driver_list s))%nat ->
  current_driver s = None ->
  driver s
  = ({| setup_driver_list := setup_driver_list s;
        current_driver_index := current_driver_index s;
        current_driver :=
          Some (driver_at (setup_driver_list s) (current_driver_index s));
        effects :=
          effects s
            ++ [SetupDriver (driver_at (setup_driver_list s) (current_driver_index s))] |},
     Ok (driver_at (setup_driver_list s) (current_driver_index s))).
Proof.
  intros Hi Hc. unfold driver.
  destruct (Nat.leb_spec (List.length (setup_driver_list s)) (current_driver_index s));
    [lia|]. now rewrite Hc.
Qed.

Lemma use_and_rotate_rounds (k : nat) :
  forall s : BaseScreenshooter,
    current_driver s = None ->
    (current_driver_index s + k <= List.length (setup_driver_list s))%nat ->
    use_and_rotate k s
    = ({| setup_driver_list := setup_driver_list s;
          current_driver_index := current_driver_index s + k;
          current_driver := None;
          effects :=
            effects s ++ round_effects (setup_driver_list s) (current_driver_index s) k |},
       Ok tt).
Proof.
  induction k as [|k IH]; intros s Hc Hk.
  - destruct s as [l i c evs]; cbn in *. subst c. unfold ret, round_effects. cbn.
    now rewrite Nat.add_0_r, app_nil_r.
  - cbn [use_and_rotate]. unfold mbind at 1. unfold mbind at 1.
    rewrite driver_fresh by (assumption || lia).
    rewrite (rotate_driver_some _ (d := driver_at (setup_driver_list s) (current_driver_index s)))
      by reflexivity.
    cbn [setup_driver_list current_driver_index current_driver effects].
    rewrite IH by (cbn; (reflexivity || lia)).
    cbn [setup_driver_list current_driver_index current_driver effects].
    unfold round_effects. cbn [seq flat_map].
    repeat rewrite <- app_assoc. cbn [app].
    replace (current_driver_index s + 1 + k)%nat with (current_driver_index s + S k)%nat by lia.
    replace (current_driver_index s + 1)%nat with (S (current_driver_index s)) by lia.
    reflexivity.
Qed.

Lemma connections_app (a b : list Effect) :
  connections (a ++ b) = (connections a + connections b)%nat.
Proof. unfold connections. now rewrite filter_app, length_app. Qed.

Lemma connections_rounds (l : list (option string)) (k : nat) :
  forall i, connections (round_effects l i k) = k.
Proof.
  induction k as [|k IH]; intros i; [reflexivity|].
  unfold round_effects. cbn [seq flat_map]. rewrite connections_app.
  fold (round_effects l (S i) k). rewrite IH. reflexivity.
Qed.

Lemma accounted_call (l : list (option string)) (c : Call) (s : BaseScreenshooter) :
  accounted l s -> accounted l (call c s).
Proof.
  intros (Hl & Hi & Hc). destruct c; cbn [call].
  - unfold driver. rewrite Hl.
    destruct (Nat.leb_spec (List.length l) (current_driver_index s)).
    + cbn [fst]. repeat split; assumption.
    + destruct (current_driver s) eqn:E; cbn [fst].
      * unfold accounted. rewrite E. repeat split; tauto.
      * unfold accounted.
        cbn [setup_driver_list current_driver_index current_driver effects].
        rewrite connections_app, Hc. cbn -[connections].
        repeat split; try assumption. unfold connections; cbn. lia.
  - unfold rotate_driver. destruct (current_driver s) eqn:E; cbn [fst].
    + unfold accounted.
      cbn [setup_driver_list current_driver_index current_driver effects].
      rewrite connections_app. destruct Hc as [Hlt Hc]. rewrite Hc.
      repeat split; try assumption; unfold connections; cbn; lia.
    + unfold accounted. rewrite E. repeat split; assumption.
Qed.

Lemma accounted_calls (l : list (option string)) (cs : list Call) :
  forall s, accounted l s -> accounted l (calls cs s).
Proof.
  induction cs as [|c cs IH]; intros s H; [exact H|].
  cbn. apply IH, accounted_call, H.
Qed.

Lemma accounted_bound (l : list (option string)) (s : BaseScreenshooter) :
  accounted l s -> (connections (effects s) <= List.length l)%nat.
Proof.
  intros (Hl & Hi & Hc). destruct (current_driver s); lia.
Qed.

(** C10: [rotate_driver] needs an open connection.  With no cached
    connection it raises [AttributeError] and leaves the session as it
    was, cursor included: so it does on a new session, and on a second
    rotation in a row.  With the connection [d] open it closes [d], moves
    the cursor one step and clears the cached connection. *)
Theorem rotate_driver_needs_connection (s : BaseScreenshooter) :
  (current_driver s = None -> rotate_driver s = (s, Raise AttributeError))
  /\ (forall d, current_driver s = Some d ->
        rotate_driver s
        = ({| setup_driver_list := setup_driver_list s;
              current_driver_index := current_driver_index s + 1;
              current_driver := None;
              effects := effects s ++ [Quit d] |}, Ok tt)
        /\ snd (rotate_driver (fst (rotate_driver s))) = Raise AttributeError
        /\ current_driver_index (fst (rotate_driver (fst (rotate_driver s))))
           = (current_driver_index s + 1)%nat)
  /\ (forall p, rotate_driver (init p) = (init p, Raise AttributeError)).
Proof.
  split; [apply rotate_driver_none|]. split.
  - intros d Hd. rewrite (rotate_driver_some _ Hd). cbn [fst].
    rewrite rotate_driver_none by reflexivity. repeat split.
  - intros p. apply rotate_driver_none. reflexivity.
Qed.

(** C5: a session set up with [n] endpoints (one, and a null one, when no
    proxy is given) opens exactly [n] connections.  After [k < n] rounds
    of access and rotation the cursor is at [k] with no connection cached,
    and the next access opens the connection of endpoint [k]; after [n]
    rounds the access raises [NoDriverRemainingError], [n] connections
    having been opened; and no sequence of accesses and rotations opens
    more than [n]. *)
Theorem rotation_exhaustion (p : ProxyArg) :
  let n := List.length (setup_driver_list (init p)) in
  match p with
  | NoProxy => setup_driver_list (init p) = [None]
  | ProxyStr c => setup_driver_list (init p) = [Some c]
  | ProxyList l => setup_driver_list (init p) = map Some l /\ n = List.length l
  end
  /\ (forall k, (k < n)%nat ->
        exists s,
          use_and_rotate k (init p) = (s, Ok tt)
          /\ current_driver_index s = k
          /\ current_driver s = None
          /\ connections (effects s) = k
          /\ snd (driver s) = Ok (driver_at (setup_driver_list (init p)) k)
          /\ current_driver (fst (driver s))
             = Some (driver_at (setup_driver_list (init p)) k)
          /\ connections (effects (fst (driver s))) = S k)
  /\ (exists s,
        use_and_rotate n (init p) = (s, Ok tt)
        /\ driver s = (s, Raise NoDriverRemainingError)
        /\ connections (effects s) = n)
  /\ (forall cs, (connections (effects (calls cs (init p))) <= n)%nat).
Proof.
  intros n.
  assert (Hi : current_driver_index (init p) = 0%nat) by reflexivity.
  assert (Hc : current_driver (init p) = None) by reflexivity.
  assert (He : effects (init p) = []) by reflexivity.
  split; [destruct p; cbn; auto using length_map|]. split; [|split].
  - intros k Hk. eexists. split.
    + apply use_and_rotate_rounds; [exact Hc | rewrite Hi; exact (Nat.lt_le_incl _ _ Hk)].
    + cbn [current_driver_index current_driver effects setup_driver_list].
      rewrite Hi, He. cbn [app Nat.add]. rewrite connections_rounds.
      repeat split;
        rewrite driver_fresh by (cbn [current_driver_index setup_driver_list current_driver];
                                 (reflexivity || exact Hk));
        cbn [snd fst current_driver_index setup_driver_list current_driver effects];
        try reflexivity.
      rewrite connections_app, connections_rounds. unfold connections; cbn. lia.
  - eexists. split.
    + apply use_and_rotate_rounds; [exact Hc | rewrite Hi; apply Nat.le_refl].
    + cbn [current_driver_index current_driver effects setup_driver_list].
      rewrite Hi, He. cbn [app Nat.add]. split.
      * apply driver_exhausted. cbn [current_driver_index setup_driver_list].
        apply Nat.le_refl.
      * apply connections_rounds.
  - intros cs. apply (accounted_bound (l := setup_driver_list (init p))).
    apply accounted_calls. unfold accounted. rewrite Hi, Hc, He.
    repeat split. apply Nat.le_0_l.
Qed.

Lemma rotate_driver_needs_connection_witness :
  let s := fst (driver (init NoProxy)) in
  snd (rotate_driver (init NoProxy)) = Raise AttributeError
  /\ current_driver_index (fst (rotate_driver s)) = 1%nat
  /\ snd (rotate_driver (fst (rotate_driver s))) = Raise AttributeError.
Proof.
  intros s. split; [|split].
  - now rewrite (proj1 (rotate_driver_needs_connection (init NoProxy)) eq_refl).
  - now rewrite (proj1 (proj1 (proj2 (rotate_driver_needs_connection s))
                          {| proxy := None; endpoint := 0 |} eq_refl)).
  - exact (proj1 (proj2 (proj1 (proj2 (rotate_driver_needs_connection s))
                          {| proxy := None; endpoint := 0 |} eq_refl))).
Defined.

Lemma rotation_exhaustion_witness :
  exists s,
    use_and_rotate 1 (init (ProxyList ["http://a:1"; "http://b:2"])) = (s, Ok tt)
    /\ current_driver_index s = 1%nat
    /\ current_driver s = None
    /\ connections (effects s) = 1%nat
    /\ snd (driver s) = Ok {| proxy := Some "http://b:2"; endpoint := 1 |}
    /\ current_driver (fst (driver s))
       = Some {| proxy := Some "http://b:2"; endpoint := 1 |}
    /\ connections (effects (fst (driver s))) = 2%nat.
Proof.
  apply (proj1 (proj2 (rotation_exhaustion (ProxyList ["http://a:1"; "http://b:2"]))) 1%nat).
  cbn. lia.
Defined.

End RotationFacts.

(** ** The page-load gate *)

Module GateFacts.
Import Actions Base Observe BaseFacts RotationFacts.

Lemma replace_absent (old new : string) (s : string) :
  contains old s = false -> replace old new s = s.
Proof.
  unfold replace. induction s as [|c s IH]; intros H; [reflexivity|].
  cbn [contains] in H. apply orb_false_iff in H as [H1 H2].
  cbn [replace_from]. rewrite H1, (IH H2). reflexivity.
Qed.

Lemma normalize_absent (h : string) :
  contains "www." h = false -> _normalize_hostname h = h.
Proof. apply replace_absent. Qed.

Lemma normalize_occurrence (r : string) :
  _normalize_hostname ("www." ++ r) = _normalize_hostname r.
Proof. reflexivity. Qed.

Lemma normalize_other (c : ascii) (r : string) :
  startswith "www." (String c r) = false ->
  _normalize_hostname (String c r) = String c (_normalize_hostname r).
Proof.
  intros H. unfold _normalize_hostname, replace. cbn [replace_from].
  rewrite H. reflexivity.
Qed.

Lemma count_app (f : Effect -> bool) (a b : list Effect) :
  List.length (filter f (a ++ b))
  = (List.length (filter f a) + List.length (filter f b))%nat.
Proof. now rewrite filter_app, length_app. Qed.

Section Gate.
Variable hostname : string -> result (option string).
Variable current_url : WebDriver -> string.
Variable selector_located : WebDriver -> string -> bool.
Variable url : string.
Variables wait_after_load wait_before_load : seconds.
Variable wait_for_sel : option string.
Variable wait_for_selector_timeout : seconds.

Abbreviation load s :=
  (load_page_and_check hostname current_url selector_located url wait_after_load
     wait_before_load wait_for_sel wait_for_selector_timeout s).
Abbreviation outcome d :=
  (attempt hostname current_url selector_located url wait_for_sel d).

(** A negative wait before the load: [time.sleep] raises at once. *)
Lemma load_page_and_check_before_negative (s : BaseScreenshooter) :
  (wait_before_load < 0)%Z -> load s = (s, Raise ValueError).
Proof.
  intros Hb. unfold load_page_and_check. unfold mbind at 1.
  rewrite (sleep_negative _ Hb). reflexivity.
Qed.

Lemma load_page_and_check_exhausted (s : BaseScreenshooter) :
  (0 <= wait_before_load)%Z ->
  (List.length (setup_driver_list s) <= current_driver_index s)%nat ->
  load s = (add_effects [Sleep wait_before_load] s, Raise NoDriverRemainingError).
Proof.
  intros Hb Hi. unfold load_page_and_check. unfold mbind at 1. rewrite (sleep_eq _ Hb).
  unfold mbind at 1. rewrite driver_exhausted by exact Hi. reflexivity.
Qed.

(** A negative wait after the load: the page is requested, and
    [time.sleep] raises. *)
Lemma load_page_and_check_after_negative (s : BaseScreenshooter) :
  (0 <= wait_before_load)%Z -> (wait_after_load < 0)%Z ->
  (current_driver_index s < List.length (setup_driver_list s))%nat ->
  load s
  = (add_effects [Get (connection s) url] (connect (add_effects [Sleep wait_before_load] s)),
     Raise ValueError).
Proof.
  intros Hb Ha Hi. unfold load_page_and_check. unfold mbind at 1. rewrite (sleep_eq _ Hb).
  set (s1 := add_effects [Sleep wait_before_load] s).
  assert (Hi1 : (current_driver_index s1 < List.length (setup_driver_list s1))%nat)
    by exact Hi.
  unfold mbind at 1. rewrite (driver_connect s1 Hi1).
  change (connection s1) with (connection s).
  unfold mbind at 1. rewrite emit_eq. unfold mbind at 1.
  rewrite (sleep_negative _ Ha). reflexivity.
Qed.

Lemma load_page_and_check_open (s : BaseScreenshooter) :
  (0 <= wait_before_load)%Z -> (0 <= wait_after_load)%Z ->
  (current_driver_index s < List.length (setup_driver_list s))%nat ->
  load s
  = (add_effects
       (load_effects url wait_after_load wait_for_sel wait_for_selector_timeout
          (connection s))
       (connect (add_effects [Sleep wait_before_load] s)),
     outcome (connection s)).
Proof.
  intros Hb Ha Hi. unfold load_page_and_check. unfold mbind at 1. rewrite (sleep_eq _ Hb).
  set (s1 := add_effects [Sleep wait_before_load] s).
  assert (Hi1 : (current_driver_index s1 < List.length (setup_driver_list s1))%nat)
    by exact Hi.
  unfold mbind at 1. rewrite (driver_connect s1 Hi1).
  change (connection s1) with (connection s).
  pose proof (live_connect s1 Hi1) as Hl. change (connection s1) with (connection s) in Hl.
  set (s2 := connect s1) in *. set (d := connection s) in *.
  unfold mbind at 1. rewrite emit_eq. unfold mbind at 1. rewrite (sleep_eq _ Ha).
  rewrite add_effects_app. cbn [app].
  unfold attempt, load_effects.
  destruct wait_for_sel as [sel|].
  - unfold mbind at 1. unfold wait_for_selector. unfold mbind at 1.
    rewrite (driver_live (live_add_effects _ Hl)). unfold mbind at 1.
    rewrite emit_eq, add_effects_app. cbn [app].
    destruct (selector_located d sel); [|reflexivity].
    unfold ret. cbn [bind]. unfold mbind, lift.
    destruct (host_of (hostname url)) as [expected|e]; [|reflexivity].
    rewrite (driver_live (live_add_effects _ Hl)). cbn [bind].
    destruct (host_of (hostname (current_url d))) as [current|e]; [|reflexivity].
    cbn [bind]. destruct (String.eqb _ _); reflexivity.
  - unfold mbind at 1. unfold ret at 1. cbn [bind]. unfold mbind, lift.
    destruct (host_of (hostname url)) as [expected|e]; [|reflexivity].
    rewrite (driver_live (live_add_effects _ Hl)). cbn [bind].
    destruct (host_of (hostname (current_url d))) as [current|e]; [|reflexivity].
    cbn [bind]. destruct (String.eqb _ _); reflexivity.
Qed.

Lemma host_of_has_host (u : string) :
  has_host hostname u -> exists h, host_of (hostname u) = Ok h.
Proof. intros [h Hh]. rewrite Hh. eexists. reflexivity. Qed.

Lemma outcome_retryable (d : WebDriver) (e : exn) :
  has_host hostname url -> has_host hostname (current_url d) ->
  outcome d = Raise e -> e = RuntimeError \/ e = TimeoutException.
Proof.
  intros Hu Hc. unfold attempt.
  destruct (host_of_has_host Hu) as [expected ->].
  destruct (host_of_has_host Hc) as [current ->].
  destruct wait_for_sel as [sel|].
  - destruct (selector_located d sel); cbn [bind].
    + destruct (String.eqb _ _); intros H; inversion H; auto.
    + intros H; inversion H; auto.
  - cbn [bind]. destruct (String.eqb _ _); intros H; inversion H; auto.
Qed.

Abbreviation loop fuel s :=
  (load_loop hostname current_url selector_located fuel url wait_after_load
     wait_before_load wait_for_sel wait_for_selector_timeout s).

Lemma retryable_only_app (a b : list Effect) :
  retryable_only a -> retryable_only b -> retryable_only (a ++ b).
Proof. intros Ha Hb. apply Forall_app. split; assumption. Qed.

Lemma load_effects_counts (d : WebDriver) :
  let evs := load_effects url wait_after_load wait_for_sel wait_for_selector_timeout d in
  rotations evs = 0%nat /\ logged_errors evs = 0%nat /\ page_loads evs = 1%nat
  /\ retryable_only evs.
Proof.
  unfold load_effects, retryable_only.
  destruct wait_for_sel; cbn; repeat split; repeat constructor.
Qed.

Lemma connect_effects (s : BaseScreenshooter) :
  exists evs,
    effects (connect s) = (effects s ++ evs)%list
    /\ rotations evs = 0%nat /\ logged_errors evs = 0%nat /\ page_loads evs = 0%nat
    /\ retryable_only evs.
Proof.
  unfold connect. cbn [effects]. eexists. split; [reflexivity|].
  unfold retryable_only. destruct (current_driver s); cbn; repeat split; repeat constructor.
Qed.

Lemma load_loop_runs (fuel : nat) :
  (0 <= wait_before_load)%Z -> (0 <= wait_after_load)%Z ->
  has_host hostname url -> (forall d, has_host hostname (current_url d)) ->
  forall s : BaseScreenshooter,
    (List.length (setup_driver_list s) - current_driver_index s < fuel)%nat ->
    exists s' b k new, loop fuel s = Some (s', Ok b) /\ loop_run hostname current_url selector_located url wait_for_sel s s' b k new.
Proof.
  intros Hwb Hwa Hhu Hhc.
  induction fuel as [|fuel IH]; intros s Hf; [lia|].
  cbn [load_loop].
  destruct (Nat.le_gt_cases (List.length (setup_driver_list s)) (current_driver_index s))
    as [Hex|Hopen].
  - rewrite (load_page_and_check_exhausted s Hwb Hex).
    exists (add_effects [Sleep wait_before_load] s), false, 0%nat, [Sleep wait_before_load].
    split; [reflexivity|]. unfold loop_run, retryable_only. cbn.
    repeat split; try lia; try discriminate; repeat constructor.
  - rewrite (load_page_and_check_open s Hwb Hwa Hopen).
    set (d := connection s).
    set (s0 := add_effects [Sleep wait_before_load] s).
    destruct (connect_effects s0) as (cevs & Hce & Hc1 & Hc2 & Hc3 & Hc4).
    destruct (load_effects_counts d) as (Hl1 & Hl2 & Hl3 & Hl4).
    set (levs := load_effects url wait_after_load wait_for_sel
                   wait_for_selector_timeout d) in *.
    set (s1 := add_effects levs (connect s0)).
    assert (He1 : effects s1
                  = (effects s ++ ([Sleep wait_before_load] ++ cevs ++ levs))%list).
    { unfold s1. cbn [add_effects effects]. rewrite Hce. unfold s0.
      cbn [add_effects effects]. now rewrite <- !app_assoc. }
    assert (Hcount : forall f,
               f (Sleep wait_before_load) = false ->
               List.length (filter f ([Sleep wait_before_load] ++ cevs ++ levs))
               = (List.length (filter f cevs) + List.length (filter f levs))%nat).
    { intros f Hs. rewrite !count_app. cbn. rewrite Hs. reflexivity. }
    assert (Hret : retryable_only ([Sleep wait_before_load] ++ cevs ++ levs)).
    { apply retryable_only_app;
        [unfold retryable_only; repeat constructor
        | apply retryable_only_app; assumption]. }
    destruct (outcome d) as [[]|e] eqn:Ho.
    + exists s1, true, 0%nat, ([Sleep wait_before_load] ++ cevs ++ levs)%list.
      split; [reflexivity|]. unfold loop_run.
      unfold rotations, logged_errors, page_loads in *.
      rewrite !Hcount by reflexivity.
      repeat split; try assumption; try lia; try discriminate.
      { cbn. lia. }
      intros _. exists d. split; [|exact Ho].
      split; [reflexivity | exact Hopen].
    + pose proof (@outcome_retryable d e Hhu (Hhc d) Ho) as He.
      set (s2 := {| setup_driver_list := setup_driver_list s1;
                    current_driver_index := current_driver_index s1 + 1;
                    current_driver := None;
                    effects := (effects s1 ++ [Quit d]) ++ [LogError e] |}).
      assert (Hstep :
                loop (S fuel) s = loop fuel s2 ->
                exists s' b k new, loop (S fuel) s = Some (s', Ok b) /\ loop_run hostname current_url selector_located url wait_for_sel s s' b k new).
      { intros Heq. rewrite Heq.
        assert (Hfuel : (List.length (setup_driver_list s2) - current_driver_index s2
                         < fuel)%nat).
        { cbn. cbn in Hopen. lia. }
        destruct (IH s2 Hfuel)
          as (s' & b & k & new & Hrun & Hl & Hi & Hev & Hr & Hle & Hpl & Hro & Ht & Hf').
        exists s', b, (S k),
          (([Sleep wait_before_load] ++ cevs ++ levs) ++ [Quit d; LogError e] ++ new)%list.
        split; [exact Hrun|]. unfold loop_run.
        unfold rotations, logged_errors, page_loads in *.
        repeat split.
        - exact Hl.
        - rewrite Hi. cbn. lia.
        - rewrite Hev. unfold s2. cbn [effects]. rewrite He1.
          now rewrite <- !app_assoc.
        - rewrite count_app, Hcount, count_app by reflexivity.
          cbn [filter is_quit List.length app]. lia.
        - rewrite count_app, Hcount, count_app by reflexivity.
          cbn [filter is_log_error List.length app]. lia.
        - rewrite count_app, Hcount, count_app by reflexivity.
          cbn [filter is_get List.length app]. lia.
        - apply retryable_only_app; [exact Hret|].
          apply (retryable_only_app (a := [Quit d; LogError e])); [|exact Hro].
          constructor; [exact I|]. constructor; [exact He | constructor].
        - exact Ht.
        - exact Hf'. }
      cbn [load_loop] in Hstep. rewrite (load_page_and_check_open s Hwb Hwa Hopen) in Hstep.
      fold d s0 levs s1 in Hstep. rewrite Ho in Hstep.
      apply Hstep. clear Hstep.
      destruct He as [-> | ->]; reflexivity.
Qed.

(** An exception of the load sequence that is neither a host mismatch,
    nor a selector timeout, nor the end of the list, leaves the loop. *)
Lemma load_loop_propagates (fuel : nat) (s s1 : BaseScreenshooter) (e : exn) :
  load s = (s1, Raise e) ->
  e = ValueError \/ e = AttributeError ->
  loop (S fuel) s = Some (s1, Raise e).
Proof.
  intros Hload He. cbn [load_loop]. rewrite Hload.
  destruct He as [-> | ->]; reflexivity.
Qed.

End Gate.



(** The end-to-end case of the specification: two endpoints, the first
    lands on another host, the second on the requested one. *)
Example host_mismatch_two_endpoints :
  let landing (d : WebDriver) := if Nat.eqb (endpoint d) 0 then "evil.com" else "www.example.com" in
  match load_page_with_checks (fun u => Ok (Some u)) landing (fun _ _ => true) "example.com"
          5%Z 0%Z None 10%Z (init (ProxyList ["http://a:1"; "http://b:2"])) with
  | Some (s', r) =>
      r = Ok true /\ current_driver_index s' = 1%nat
      /\ rotations (effects s') = 1%nat /\ page_loads (effects s') = 2%nat
  | None => False
  end.
Proof. vm_compute. repeat split. Qed.




End GateFacts.

(** ** The CSS selector *)

Module SelectorFacts.
Import Draw.

Lemma count_same_tag_fresh (element_tag : string) (l : list WebElement) :
  Forall (fun sib => stale sib = false) l ->
  count_same_tag element_tag l = Ok (DomView.same_tag_count element_tag l).
Proof.
  induction 1 as [|sib l Hs _ IH]; [reflexivity|].
  cbn [count_same_tag DomView.same_tag_count filter List.length].
  unfold Selenium.tag_name, remote. rewrite Hs. cbn [bind]. rewrite IH. cbn [bind].
  destruct (String.eqb (tag sib) element_tag); reflexivity.
Qed.

Lemma get_css_selector_root (element : WebElement) (siblings : option (list WebElement))
  (parent_selector : string) :
  stale element = false ->
  get_css_selector element None siblings parent_selector
  = Ok (DomView.selector_of element None siblings parent_selector).
Proof.
  intros Hs. unfold get_css_selector, Selenium.tag_name, get_attribute, remote.
  rewrite Hs. reflexivity.
Qed.

Lemma get_css_selector_child (element : WebElement) (i : nat) (l : list WebElement)
  (parent_selector : string) :
  stale element = false ->
  Forall (fun sib => stale sib = false) (firstn i l) ->
  get_css_selector element (Some i) (Some l) parent_selector
  = Ok (DomView.selector_of element (Some i) (Some l) parent_selector).
Proof.
  intros Hs Hl. unfold get_css_selector, Selenium.tag_name, get_attribute, remote.
  rewrite Hs. cbn [bind String.eqb Ascii.eqb Bool.eqb andb slice_to].
  rewrite (count_same_tag_fresh _ Hl). cbn [bind].
  unfold DomView.selector_of, DomView.qualifier, DomView.combined_selector,
    DomView.before.
  destruct (1 <? DomView.same_tag_count (tag element) (firstn i l))%nat; reflexivity.
Qed.

(** The rule of the qualifier: an element that comes after [c] siblings
    of its tag, the handles not being stale, gets [:nth-of-type(c + 1)]
    when [c] is at least two, and no qualifier of its own otherwise. *)
Lemma qualifier_rule (element : WebElement) (i : nat) (l : list WebElement)
  (parent_selector : string) :
  stale element = false ->
  Forall (fun sib => stale sib = false) (firstn i l) ->
  let c := DomView.same_tag_count (tag element) (firstn i l) in
  ((2 <= c)%nat ->
   get_css_selector element (Some i) (Some l) parent_selector
   = Ok (strip (parent_selector ++ " " ++ DomView.combined_selector element
                  ++ ":nth-of-type(" ++ str_of_nat (c + 1) ++ ")")))
  /\ ((c <= 1)%nat ->
      get_css_selector element (Some i) (Some l) parent_selector
      = Ok (strip (parent_selector ++ " " ++ DomView.combined_selector element))).
Proof.
  intros Hs Hl c. rewrite (@get_css_selector_child element i l parent_selector Hs Hl).
  unfold DomView.selector_of, DomView.before. fold c.
  split; intros Hc.
  - apply Nat.ltb_lt in Hc. rewrite Hc. reflexivity.
  - apply Nat.ltb_ge in Hc. rewrite Hc. reflexivity.
Qed.

(** C1 says that the [k]-th sibling of a tag, from the second on, has
    [:nth-of-type(k)] in its selector.  The code misses the second: of
    three sibling [span]s, one sibling of the same tag precedes the
    second, the test [same_tag_count > 1] is false, and its selector is
    that of the first sibling, with no [:nth-of-type(2)]; the third
    sibling is the first to be qualified. *)
Theorem second_same_tag_sibling_not_qualified :
  let span := mkWebElement false "<span></span>" "span" None None true "static"
                (Build_Rect 0 0 0 0) (Build_Rect 0 0 0 0) [] in
  get_css_selector span (Some 0%nat) (Some [span; span; span]) "div" = Ok "div span"
  /\ get_css_selector span (Some 1%nat) (Some [span; span; span]) "div" = Ok "div span"
  /\ contains ":nth-of-type(2)" "div span" = false
  /\ get_css_selector span (Some 2%nat) (Some [span; span; span]) "div"
     = Ok "div span:nth-of-type(3)".
Proof. repeat split. Qed.

End SelectorFacts.

(** ** The dictionary *)

Module PyDictFacts.
Import PyDict.
#[local] Open Scope list_scope.
#[local] Unset Implicit Arguments.

Section Facts.
Variable V : Type.
Implicit Types (d : t V) (k : Z) (v : V).

Lemma mem_true_iff k d : mem k d = true <-> In k (keys d).
Proof.
  unfold mem. induction d as [|[k' v'] d IH]; cbn.
  - split; [discriminate | tauto].
  - destruct (Z.eqb_spec k k') as [->|Hne].
    + split; auto.
    + rewrite IH. split; [auto | intros [H|H]; [congruence | exact H]].
Qed.

Lemma mem_false_iff k d : mem k d = false <-> ~ In k (keys d).
Proof.
  rewrite <- mem_true_iff. destruct (mem k d); split; congruence.
Qed.

Lemma set_fresh k v d : mem k d = false -> set k v d = (d ++ [(k, v)])%list.
Proof.
  unfold mem. induction d as [|[k' v'] d IH]; cbn; [reflexivity|].
  destruct (Z.eqb_spec k k'); [discriminate|].
  intros H. now rewrite (IH H).
Qed.

Lemma keys_app d1 d2 : keys (d1 ++ d2) = (keys d1 ++ keys d2)%list.
Proof. apply map_app. Qed.

Lemma keys_update k (f : V -> V) d : keys (update k f d) = keys d.
Proof.
  unfold keys. induction d as [|[k' v'] d IH]; cbn; [reflexivity|].
  destruct (Z.eqb k k'); cbn; [reflexivity | now rewrite IH].
Qed.

Lemma in_update k (f : V -> V) d k' v' :
  In (k', v') (update k f d) ->
  In (k', v') d \/ (k' = k /\ exists v, In (k, v) d /\ v' = f v).
Proof.
  induction d as [|[k0 v0] d IH]; cbn; [tauto|].
  destruct (Z.eqb_spec k k0) as [->|Hne]; cbn.
  - intros [H|H]; [|auto]. inversion H; subst. right. split; [reflexivity|].
    exists v0. auto.
  - intros [H|H]; [auto|]. destruct (IH H) as [H'|(-> & v & Hv & ->)]; [auto|].
    right. split; [reflexivity|]. exists v. auto.
Qed.

Lemma update_app_head k (f : V -> V) d v rest :
  ~ In k (keys d) ->
  update k f (d ++ (k, v) :: rest) = (d ++ (k, f v) :: rest)%list.
Proof.
  unfold keys. induction d as [|[k0 v0] d IH]; cbn.
  - intros _. now rewrite Z.eqb_refl.
  - intros H. destruct (Z.eqb_spec k k0) as [->|Hne]; [tauto|].
    rewrite IH by tauto. reflexivity.
Qed.

End Facts.
End PyDictFacts.

(** ** The traversal: what holds of every page *)

Module TraversalFacts.
Import PyDict PyDictFacts Draw Traversal DomView Pages.
#[local] Open Scope list_scope.
#[local] Unset Implicit Arguments.

Lemma from_web_element_fields
  (element : WebElement) (rect : Rect) (vis : bool) (pixel_ratio : Z -> Z)
  (index : option nat) (siblings : option (list WebElement)) (parent_selector : string)
  (element_id : Z) (parent : option Z) (item : ElementItem) :
  from_web_element element rect vis pixel_ratio index siblings parent_selector
    element_id parent = Ok item ->
  id item = element_id /\ parent_id item = parent /\ is_visible item = vis.
Proof.
  unfold from_web_element.
  destruct (Selenium.tag_name element); cbn [bind]; [|discriminate].
  destruct (value_of_css_property element "position"); cbn [bind]; [|discriminate].
  destruct (get_css_selector element index siblings parent_selector);
    cbn [bind]; [|discriminate].
  intros H. inversion H. auto.
Qed.

Section Invariant.
Variable str_hash : string -> Z.
Variable full_page_screenshot : bool.
Variable pixel_ratio : Z -> Z.
Variable capture_invisible_elements : bool.

Abbreviation traverse :=
  (traverse_dom str_hash full_page_screenshot pixel_ratio capture_invisible_elements).
Abbreviation good := (consistent capture_invisible_elements).

Lemma traverse_dom_unfold (element : WebElement) (parent_selector : string)
  (siblings : option (list WebElement)) (index : option nat) (d : IdToElement) :
  traverse element parent_selector siblings index d
  = match get_element_hash str_hash element with
    | Raise e => (d, Raise e)
    | Ok element_id =>
        if mem element_id d then (d, Ok (Some element_id))
        else
          match is_displayed element with
          | Raise e => (d, Raise e)
          | Ok is_visible =>
              if negb (is_visible || capture_invisible_elements)
              then (d, Ok None)
              else
                match get_bounding_rect element full_page_screenshot with
                | Raise e => (d, Raise e)
                | Ok rect =>
                    match from_web_element element rect is_visible pixel_ratio
                            index siblings parent_selector element_id None with
                    | Raise e => (d, Raise e)
                    | Ok item =>
                        match find_children element with
                        | Raise e => (set element_id item d, Raise e)
                        | Ok _ =>
                            match
                              for_children
                                (fun child child_index =>
                                   traverse child (css_selector item)
                                     (Some (child_nodes element)) (Some child_index))
                                element_id (child_nodes element) 0%nat
                                (set element_id item d)
                            with
                            | (d2, Raise e) => (d2, Raise e)
                            | (d2, Ok _) => (d2, Ok (Some element_id))
                            end
                        end
                    end
                end
          end
    end.
Proof. destruct element; reflexivity. Qed.

Lemma good_insert (d : IdToElement) (k : Z) (item : ElementItem) :
  good d -> mem k d = false ->
  id item = k -> parent_id item = None ->
  (capture_invisible_elements = false -> is_visible item = true) ->
  good (set k item d).
Proof.
  intros (Hnd & Hk & Hp & Hv) Hm Hid Hpar Hvis.
  rewrite (set_fresh _ _ _ _ Hm). apply mem_false_iff in Hm.
  unfold consistent. rewrite keys_app. cbn [keys map fst].
  split; [|split; [|split]].
  - apply NoDup_app; [exact Hnd | repeat constructor; auto | ].
    intros x Hx [<-|[]]. exact (Hm Hx).
  - intros k' it Hin. apply in_app_or in Hin as [Hin|[Hin|[]]].
    + exact (Hk _ _ Hin).
    + inversion Hin; subst. reflexivity.
  - intros k' it p Hin Hpp. rewrite keys_app. apply in_or_app.
    apply in_app_or in Hin as [Hin|[Hin|[]]].
    + left. exact (Hp _ _ _ Hin Hpp).
    + inversion Hin; subst. congruence.
  - intros Hc k' it Hin. apply in_app_or in Hin as [Hin|[Hin|[]]].
    + exact (Hv Hc _ _ Hin).
    + injection Hin as _ <-. exact (Hvis Hc).
Qed.

Lemma good_adopt (d : IdToElement) (child parent : Z) :
  good d -> In parent (keys d) ->
  good (update child (set_parent_id parent) d).
Proof.
  intros (Hnd & Hk & Hp & Hv) Hpar. unfold consistent.
  rewrite keys_update. split; [exact Hnd|]. split; [|split].
  - intros k it Hin. apply in_update in Hin as [Hin|(-> & v & Hin & ->)].
    + exact (Hk _ _ Hin).
    + exact (Hk _ _ Hin).
  - intros k it p Hin Hpp. rewrite keys_update.
    apply in_update in Hin as [Hin|(-> & v & Hin & ->)].
    + exact (Hp _ _ _ Hin Hpp).
    + cbn in Hpp. injection Hpp as <-. exact Hpar.
  - intros Hc k it Hin. apply in_update in Hin as [Hin|(-> & v & Hin & ->)].
    + exact (Hv Hc _ _ Hin).
    + exact (Hv Hc _ _ Hin).
Qed.

Lemma for_children_keeps
  (trav : WebElement -> nat -> IdToElement -> IdToElement * result (option Z))
  (element_id : Z) (rest : list WebElement) :
  Forall (fun child => forall i, keeps capture_invisible_elements (trav child i)) rest ->
  forall i d d' r,
    for_children trav element_id rest i d = (d', r) ->
    good d -> In element_id (keys d) ->
    good d' /\ incl (keys d) (keys d').
Proof.
  induction 1 as [|child rest Hc _ IH]; intros i d d' r Hrun Hg Hin.
  - cbn in Hrun. inversion Hrun; subst. split; [exact Hg | apply incl_refl].
  - cbn [for_children] in Hrun.
    destruct (trav child i d) as [d1 r1] eqn:Ht.
    destruct (Hc i d d1 r1 Ht Hg) as (Hg1 & Hi1 & Hk1).
    assert (Hnext : forall d2,
               good d2 -> keys d2 = keys d1 ->
               for_children trav element_id rest (S i) d2 = (d', r) ->
               good d' /\ incl (keys d) (keys d')).
    { intros d2 Hg2 Hk2 Hrun2.
      destruct (IH (S i) d2 d' r Hrun2 Hg2) as (Hg' & Hi').
      - rewrite Hk2. apply Hi1, Hin.
      - split; [exact Hg'|]. rewrite Hk2 in Hi'.
        exact (incl_tran Hi1 Hi'). }
    destruct r1 as [[child_item|]|e].
    + apply (Hnext _ (good_adopt _ child_item _ Hg1 (Hi1 _ Hin)) (keys_update _ _ _ _) Hrun).
    + apply (Hnext _ Hg1 eq_refl Hrun).
    + destruct e; try (inversion Hrun; subst; split; [exact Hg1 | exact Hi1]).
      apply (Hnext _ Hg1 eq_refl Hrun).
Qed.

Lemma traverse_dom_keeps (element : WebElement) :
  forall parent_selector siblings index,
    keeps capture_invisible_elements (traverse element parent_selector siblings index).
Proof.
  induction element as [st h t i c v p r1 r2 kids IH] using WebElement_forall_ind.
  intros parent_selector siblings index d d' r Hrun Hg.
  rewrite traverse_dom_unfold in Hrun.
  set (e := mkWebElement st h t i c v p r1 r2 kids) in *.
  assert (Hsame : forall r0, good d /\ incl (keys d) (keys d)
                             /\ (forall k, @Raise (option Z) r0 = Ok (Some k) -> In k (keys d))).
  { intros r0. split; [exact Hg|]. split; [apply incl_refl | discriminate]. }
  destruct (get_element_hash str_hash e) as [element_id|ex];
    [|inversion Hrun; subst; apply Hsame].
  destruct (mem element_id d) eqn:Hm.
  { inversion Hrun; subst. split; [exact Hg|]. split; [apply incl_refl|].
    intros k Hk. inversion Hk; subst. now apply mem_true_iff. }
  destruct (is_displayed e) as [vis|ex]; [|inversion Hrun; subst; apply Hsame].
  destruct (negb (vis || capture_invisible_elements)) eqn:Hgate.
  { inversion Hrun; subst. split; [exact Hg|]. split; [apply incl_refl | discriminate]. }
  destruct (get_bounding_rect e full_page_screenshot) as [rect|ex];
    [|inversion Hrun; subst; apply Hsame].
  destruct (from_web_element e rect vis pixel_ratio index siblings parent_selector
              element_id None) as [item|ex] eqn:Hitem;
    [|inversion Hrun; subst; apply Hsame].
  destruct (from_web_element_fields _ _ _ _ _ _ _ _ _ _ Hitem) as (Hid & Hpar & Hvis).
  assert (Hg1 : good (set element_id item d)).
  { apply good_insert; try assumption.
    intros Hc. rewrite Hvis. rewrite Hc, orb_false_r in Hgate.
    now destruct vis. }
  assert (Hk1 : keys (set element_id item d) = keys d ++ [element_id]).
  { rewrite (set_fresh _ _ _ _ Hm). apply keys_app. }
  assert (Hin1 : In element_id (keys (set element_id item d))).
  { rewrite Hk1. apply in_or_app. right. left. reflexivity. }
  assert (Hi1 : incl (keys d) (keys (set element_id item d))).
  { rewrite Hk1. apply incl_appl, incl_refl. }
  destruct (find_children e) as [kids'|ex].
  2:{ inversion Hrun; subst. split; [exact Hg1|]. split; [exact Hi1 | discriminate]. }
  destruct (for_children _ element_id (child_nodes e) 0%nat (set element_id item d))
    as [d2 r2'] eqn:Hloop.
  assert (Hkids : Forall
            (fun child => forall i0,
                 keeps capture_invisible_elements
                   (traverse child (css_selector item) (Some (child_nodes e))
                          (Some i0))) (child_nodes e)).
  { cbn [child_nodes e]. eapply Forall_impl; [|exact IH].
    intros child Hchild i0. apply Hchild. }
  destruct (for_children_keeps _ _ _ Hkids _ _ _ _ Hloop Hg1 Hin1) as (Hg2 & Hi2).
  destruct r2' as [u|ex]; inversion Hrun; subst.
  - split; [exact Hg2|]. split; [exact (incl_tran Hi1 Hi2)|].
    intros k Hk. inversion Hk; subst. apply Hi2, Hin1.
  - split; [exact Hg2|]. split; [exact (incl_tran Hi1 Hi2) | discriminate].
Qed.

Lemma remote_raises (A : Type) (e : WebElement) (a : A) (ex : exn) :
  remote e a = Raise ex -> ex = StaleElementReferenceException.
Proof. unfold remote. destruct (stale e); intros H; inversion H; reflexivity. Qed.

Lemma count_same_tag_raises (element_tag : string) (l : list WebElement) (ex : exn) :
  count_same_tag element_tag l = Raise ex -> ex = StaleElementReferenceException.
Proof.
  induction l as [|sib l IH]; cbn [count_same_tag]; [discriminate|].
  destruct (Selenium.tag_name sib) as [t|e0] eqn:Ht; cbn [bind].
  - destruct (count_same_tag element_tag l) as [n|e1]; cbn [bind];
      [discriminate|]. intros H. apply IH. exact H.
  - intros H. inversion H; subst. exact (remote_raises _ _ _ _ Ht).
Qed.

Lemma get_css_selector_raises (element : WebElement) (index : option nat)
  (siblings : option (list WebElement)) (parent_selector : string) (ex : exn) :
  (index <> None -> siblings <> None) ->
  get_css_selector element index siblings parent_selector = Raise ex ->
  ex = StaleElementReferenceException.
Proof.
  intros Hs. unfold get_css_selector.
  destruct (Selenium.tag_name element) as [t|e0] eqn:Ht; cbn [bind];
    [|intros H; inversion H; subst; exact (remote_raises _ _ _ _ Ht)].
  destruct (get_attribute element "id") as [a|e0] eqn:Ha; cbn [bind];
    [|intros H; inversion H; subst; exact (remote_raises _ _ _ _ Ha)].
  destruct (get_attribute element "class") as [c|e0] eqn:Hc; cbn [bind];
    [|intros H; inversion H; subst; exact (remote_raises _ _ _ _ Hc)].
  destruct index as [i|]; [|cbn [bind]; discriminate].
  destruct siblings as [l|]; [|exfalso; apply Hs; [discriminate | reflexivity]].
  cbn [slice_to bind].
  destruct (count_same_tag t (firstn i l)) as [n|e0] eqn:Hn; cbn [bind];
    [|intros H; inversion H; subst; exact (count_same_tag_raises _ _ _ Hn)].
  destruct (1 <? n)%nat; cbn [bind]; discriminate.
Qed.

Lemma from_web_element_raises
  (element : WebElement) (rect : Rect) (vis : bool)
  (index : option nat) (siblings : option (list WebElement)) (parent_selector : string)
  (element_id : Z) (parent : option Z) (ex : exn) :
  (index <> None -> siblings <> None) ->
  from_web_element element rect vis pixel_ratio index siblings parent_selector
    element_id parent = Raise ex ->
  ex = StaleElementReferenceException.
Proof.
  intros Hs. unfold from_web_element.
  destruct (Selenium.tag_name element) as [t|e0] eqn:Ht; cbn [bind];
    [|intros H; inversion H; subst; exact (remote_raises _ _ _ _ Ht)].
  destruct (value_of_css_property element "position") as [q|e0] eqn:Hq; cbn [bind];
    [|intros H; inversion H; subst; exact (remote_raises _ _ _ _ Hq)].
  destruct (get_css_selector element index siblings parent_selector) as [c|e0] eqn:Hc;
    cbn [bind]; [discriminate|].
  intros H; inversion H; subst. exact (get_css_selector_raises _ _ _ _ _ Hs Hc).
Qed.

Lemma for_children_returns
  (trav : WebElement -> nat -> IdToElement -> IdToElement * result (option Z))
  (element_id : Z) (rest : list WebElement) :
  Forall (fun child => forall i, stale_only (trav child i)) rest ->
  forall i d, snd (for_children trav element_id rest i d) = Ok tt.
Proof.
  induction 1 as [|child rest Hc _ IH]; intros i d; [reflexivity|].
  cbn [for_children]. pose proof (Hc i d) as Hs.
  destruct (trav child i d) as [d1 [[k|]|ex]]; cbn [snd] in Hs.
  - apply IH.
  - apply IH.
  - rewrite (Hs ex eq_refl). apply IH.
Qed.

Lemma traverse_dom_stale_only (element : WebElement) :
  forall parent_selector siblings index,
    (index <> None -> siblings <> None) ->
    stale_only (traverse element parent_selector siblings index).
Proof.
  induction element as [st h t i c v p r1 r2 kids IH] using WebElement_forall_ind.
  intros parent_selector siblings index Hs d ex.
  rewrite traverse_dom_unfold.
  set (e := mkWebElement st h t i c v p r1 r2 kids) in *.
  unfold get_element_hash, get_attribute.
  destruct (remote e _) as [text|e0] eqn:Hh; cbn [bind];
    [|cbn [snd]; intros H; inversion H; subst; exact (remote_raises _ _ _ _ Hh)].
  assert (Htext : text = Some (outerHTML e)).
  { unfold remote in Hh. destruct (stale e); inversion Hh. reflexivity. }
  rewrite Htext.
  destruct (mem _ d); [cbn; discriminate|].
  destruct (is_displayed e) as [vis|e0] eqn:Hv;
    [|cbn [snd]; intros H; inversion H; subst; exact (remote_raises _ _ _ _ Hv)].
  destruct (negb (vis || capture_invisible_elements)); [cbn; discriminate|].
  destruct (get_bounding_rect e full_page_screenshot) as [rect|e0] eqn:Hr.
  2:{ cbn [snd]. intros H; inversion H; subst. unfold get_bounding_rect in Hr.
      destruct full_page_screenshot; exact (remote_raises _ _ _ _ Hr). }
  destruct (from_web_element e rect vis pixel_ratio index siblings parent_selector
              (str_hash (outerHTML e)) None) as [item|e0] eqn:Hitem.
  2:{ cbn [snd]. intros H; inversion H; subst.
      exact (from_web_element_raises _ _ _ _ _ _ _ _ _ Hs Hitem). }
  destruct (find_children e) as [kids'|e0] eqn:Hf;
    [|cbn [snd]; intros H; inversion H; subst; exact (remote_raises _ _ _ _ Hf)].
  assert (Hkids : Forall
            (fun child => forall i0,
                 stale_only (traverse child (css_selector item)
                               (Some (child_nodes e)) (Some i0))) (child_nodes e)).
  { cbn [child_nodes e]. eapply Forall_impl; [|exact IH].
    intros child Hchild i0. apply Hchild. discriminate. }
  pose proof (for_children_returns _ (str_hash (outerHTML e)) _ Hkids 0%nat
                (set (str_hash (outerHTML e)) item d)) as Hret.
  destruct (for_children _ _ (child_nodes e) 0%nat _) as [d2 r2'].
  cbn [snd] in Hret. rewrite Hret. cbn. discriminate.
Qed.

Lemma good_empty : good (empty ElementItem).
Proof.
  unfold consistent, empty. cbn. split; [constructor|].
  split; [intros k it []|]. split; [intros k it p []|]. intros _ k it [].
Qed.

(** [get_elements] always answers, and with the values of a consistent
    dictionary. *)
Lemma get_elements_good (root_element : option WebElement) :
  exists d,
    get_elements str_hash full_page_screenshot pixel_ratio
      capture_invisible_elements root_element = Ok (values d)
    /\ good d.
Proof.
  destruct root_element as [root|]; cbn [get_elements].
  2:{ exists (empty ElementItem). split; [reflexivity | exact good_empty]. }
  pose proof (traverse_dom_stale_only root "" None None
                ltac:(intros H; exfalso; apply H; reflexivity) (empty ElementItem)) as Hs.
  destruct (traverse root "" None None (empty ElementItem)) as [d r] eqn:Hrun.
  destruct (traverse_dom_keeps root "" None None _ _ _ Hrun good_empty) as (Hg & _ & _).
  cbn [snd] in Hs. destruct r as [k|ex].
  - exists d. split; [reflexivity | exact Hg].
  - rewrite (Hs ex eq_refl). exists (empty ElementItem).
    split; [reflexivity | exact good_empty].
Qed.

End Invariant.

Lemma in_values (d : IdToElement) (it : ElementItem) :
  In it (values d) -> exists k, In (k, it) d.
Proof.
  unfold values. intros H. apply in_map_iff in H as ([k v] & Hv & Hin).
  cbn in Hv. subst v. exists k. exact Hin.
Qed.

Lemma in_keys_entry (d : IdToElement) (k : Z) :
  In k (keys d) -> exists it, In (k, it) d.
Proof.
  unfold keys. intros H. apply in_map_iff in H as ([k' v] & Hk & Hin).
  cbn in Hk. subst k'. exists v. exact Hin.
Qed.

Lemma entry_in_values (d : IdToElement) (k : Z) (it : ElementItem) :
  In (k, it) d -> In it (values d).
Proof. intros H. apply (in_map snd) in H. exact H. Qed.

Lemma ids_are_keys (d : IdToElement) :
  keyed d -> map id (values d) = keys d.
Proof.
  unfold keyed, values, keys. induction d as [|[k it] d IH]; intros Hk; [reflexivity|].
  cbn [map fst snd]. rewrite (Hk k it (or_introl eq_refl)).
  rewrite IH; [reflexivity|]. intros k' it' Hin. apply Hk. right. exact Hin.
Qed.

Lemma at_most_one (h : Z) (items : list ElementItem) :
  NoDup (map id items) ->
  (List.length (filter (fun it => Z.eqb (id it) h) items) <= 1)%nat.
Proof.
  induction items as [|it items IH]; intros Hnd; [cbn; lia|].
  cbn [map] in Hnd. inversion Hnd as [|x l Hnotin Hnd']; subst.
  cbn [filter]. destruct (Z.eqb_spec (id it) h) as [Heq|Hne]; [|exact (IH Hnd')].
  assert (Hnone : filter (fun it0 => Z.eqb (id it0) h) items = []).
  { clear IH Hnd Hnd'. induction items as [|it' items IH']; [reflexivity|].
    cbn [filter]. destruct (Z.eqb_spec (id it') h) as [Heq'|Hne'].
    - exfalso. apply Hnotin. cbn [map]. left. congruence.
    - apply IH'. intros Hin. apply Hnotin. cbn [map]. right. exact Hin. }
  rewrite Hnone. cbn. lia.
Qed.

Lemma at_least_one (h : Z) (items : list ElementItem) :
  In h (map id items) ->
  (1 <= List.length (filter (fun it => Z.eqb (id it) h) items))%nat.
Proof.
  intros Hin. apply in_map_iff in Hin as (it & Hid & Hit).
  assert (Hf : In it (filter (fun it0 => Z.eqb (id it0) h) items)).
  { apply filter_In. split; [exact Hit | now apply Z.eqb_eq]. }
  destruct (filter _ items); [destruct Hf | cbn; lia].
Qed.

(** C2: whatever the page and the flags, [get_elements] answers, and
    every record it lists with a parent identity has its parent in the
    same list. *)
Theorem parent_identities_resolve
  (str_hash : string -> Z) (full_page_screenshot : bool) (pixel_ratio : Z -> Z)
  (capture_invisible_elements : bool) (root_element : option WebElement) :
  exists items,
    get_elements str_hash full_page_screenshot pixel_ratio
      capture_invisible_elements root_element = Ok items
    /\ forall it p,
         In it items -> parent_id it = Some p ->
         exists parent, In parent items /\ id parent = p.
Proof.
  destruct (get_elements_good str_hash full_page_screenshot pixel_ratio
              capture_invisible_elements root_element)
    as (d & Hrun & (Hnd & Hk & Hp & Hv)).
  exists (values d). split; [exact Hrun|].
  intros it p Hin Hpar.
  destruct (in_values _ _ Hin) as (k & Hentry).
  destruct (in_keys_entry _ _ (Hp _ _ _ Hentry Hpar)) as (parent & Hparent).
  exists parent. split; [exact (entry_in_values _ _ _ Hparent) | exact (Hk _ _ Hparent)].
Qed.

Lemma parent_identities_resolve_witness :
  exists items,
    get_elements by_length true (fun v => v) false (Some header_page) = Ok items
    /\ exists title parent,
         In title items /\ css_selector title = "div#header span.title"%string
         /\ In parent items /\ parent_id title = Some (id parent)
         /\ css_selector parent = "div#header"%string.
Proof.
  destruct (parent_identities_resolve by_length true (fun v => v) false (Some header_page))
    as (items & Hrun & Hres).
  exists items. split; [exact Hrun|].
  vm_compute in Hrun. injection Hrun as <-.
  eexists. 
  destruct (Hres _ 46%Z (or_intror (or_introl eq_refl)) eq_refl) as (parent & Hin & Hid).
  exists parent. split; [right; left; reflexivity|]. split; [reflexivity|].
  split; [exact Hin|]. split; [cbn; now rewrite Hid|].
  destruct Hin as [<-|[<-|[]]]; [reflexivity | discriminate Hid].
Defined.

(** C4, as stated, fails: two paragraphs with the same markup that are
    not displayed, invisible elements not being captured, leave no record
    at all for their identity. *)
Lemma hidden_twins_no_record :
  nth_error (child_nodes hidden_twins) 0 <> None
  /\ nth_error (child_nodes hidden_twins) 0 = nth_error (child_nodes hidden_twins) 1
  /\ exists items,
       get_elements by_length true (fun v => v) false (Some hidden_twins) = Ok items
       /\ List.length items = 1%nat
       /\ filter (fun it => Z.eqb (id it) (by_length "<p hidden></p>")) items = [].
Proof.
  split; [discriminate|]. split; [reflexivity|].
  eexists. split; [vm_compute; reflexivity|]. split; reflexivity.
Qed.

(** *** The traversal of a page with distinct identities *)

Lemma NoDup_app_parts (A : Type) (l1 l2 : list A) :
  NoDup (l1 ++ l2) ->
  NoDup l1 /\ NoDup l2 /\ (forall a, In a l1 -> ~ In a l2).
Proof.
  induction l1 as [|x l1 IH]; cbn; intros H.
  - split; [constructor|]. split; [exact H | intros a []].
  - apply NoDup_cons_iff in H as [Hx Hnd]. destruct (IH Hnd) as (H1 & H2 & H3).
    split; [|split; [exact H2|]].
    + constructor; [|exact H1]. intros Hin. apply Hx, in_or_app. left. exact Hin.
    + intros a [<-|Ha] Hin2; [apply Hx, in_or_app; right; exact Hin2|].
      exact (H3 a Ha Hin2).
Qed.

Lemma nodes_unfold (e : WebElement) : nodes e = e :: flat_map nodes (child_nodes e).
Proof. destruct e; reflexivity. Qed.

Lemma fresh_here (e : WebElement) : fresh e -> stale e = false.
Proof. unfold fresh. rewrite nodes_unfold. intros H. exact (Forall_inv H). Qed.

Lemma fresh_children (e : WebElement) : fresh e -> Forall fresh (child_nodes e).
Proof.
  unfold fresh. rewrite nodes_unfold. intros H. apply Forall_inv_tail in H.
  apply Forall_flat_map in H. exact H.
Qed.

Lemma keys_adopt (p : Z) (l : IdToElement) : keys (adopt p l) = keys l.
Proof. destruct l as [|[k it] l]; reflexivity. Qed.

Section ListingFacts.
Variable str_hash : string -> Z.
Variable full_page_screenshot : bool.
Variable pixel_ratio : Z -> Z.
Variable capture_invisible_elements : bool.

Abbreviation traverse :=
  (traverse_dom str_hash full_page_screenshot pixel_ratio capture_invisible_elements).
Abbreviation listed :=
  (records str_hash full_page_screenshot pixel_ratio capture_invisible_elements).
Abbreviation item := (item_of str_hash full_page_screenshot pixel_ratio).
Abbreviation hash := (hash_of str_hash).
Abbreviation identities := (hashes str_hash).
Abbreviation passes := (gate capture_invisible_elements).
Abbreviation has_record := (recorded capture_invisible_elements).
Abbreviation returns := (answer str_hash capture_invisible_elements).

Lemma hashes_unfold (e : WebElement) :
  identities e = hash e :: flat_map identities (child_nodes e).
Proof.
  unfold hashes. rewrite nodes_unfold. cbn [map]. f_equal.
  induction (child_nodes e) as [|c l IH]; [reflexivity|].
  cbn [flat_map]. rewrite map_app, IH. reflexivity.
Qed.

Lemma records_unfold (e : WebElement) (parent_selector : string)
  (siblings : option (list WebElement)) (index : option nat) :
  listed e parent_selector siblings index
  = if has_record e index siblings
    then (hash e, item e index siblings parent_selector)
           :: children_records
                (fun child i =>
                   listed child (css_selector (item e index siblings parent_selector))
                     (Some (child_nodes e)) (Some i))
                (hash e) (child_nodes e) 0%nat
    else [].
Proof. destruct e; reflexivity. Qed.

Lemma keys_children_records
  (list_child : WebElement -> nat -> IdToElement) (p : Z) (rest : list WebElement) :
  Forall (fun c => forall i, incl (keys (list_child c i)) (identities c)) rest ->
  forall i, incl (keys (children_records list_child p rest i))
              (flat_map identities rest).
Proof.
  induction 1 as [|c rest Hc _ IH]; intros i; [apply incl_refl|].
  cbn [children_records flat_map]. rewrite keys_app, keys_adopt.
  apply incl_app; [apply incl_appl, Hc | apply incl_appr, IH].
Qed.

Lemma keys_records (e : WebElement) :
  forall parent_selector siblings index,
    incl (keys (listed e parent_selector siblings index)) (identities e).
Proof.
  induction e as [st h t i c v p r1 r2 kids IH] using WebElement_forall_ind.
  intros parent_selector siblings index. rewrite records_unfold, hashes_unfold.
  destruct (has_record _ _ _); [|intros x []].
  cbn [keys map fst]. apply incl_cons; [left; reflexivity|]. apply incl_tl.
  apply keys_children_records. cbn [child_nodes].
  eapply Forall_impl; [|exact IH]. intros child Hc i0. apply Hc.
Qed.

Lemma count_same_tag_stale (element_tag : string) (l : list WebElement) :
  existsb stale l = true ->
  count_same_tag element_tag l = Raise StaleElementReferenceException.
Proof.
  induction l as [|sib l IH]; cbn [existsb count_same_tag]; [discriminate|].
  unfold Selenium.tag_name, remote. destruct (stale sib); cbn [orb bind];
    [reflexivity|].
  intros H. rewrite (IH H). reflexivity.
Qed.

Lemma existsb_stale_false (l : list WebElement) :
  existsb stale l = false -> Forall (fun sib => stale sib = false) l.
Proof.
  induction l as [|sib l IH]; cbn [existsb]; intros H; constructor;
    apply orb_false_iff in H as [H1 H2]; [exact H1 | exact (IH H2)].
Qed.

Lemma from_web_element_cases (e : WebElement) (index : option nat)
  (siblings : option (list WebElement)) (parent_selector : string) :
  stale e = false -> siblings_given index siblings ->
  from_web_element e
    (if full_page_screenshot then location_size e else client_rect e)
    (displayed e) pixel_ratio index siblings parent_selector (hash e) None
  = if stale_before siblings index then Raise StaleElementReferenceException
    else Ok (item e index siblings parent_selector).
Proof.
  intros Hs Hsib. unfold from_web_element, Selenium.tag_name, value_of_css_property, remote.
  rewrite Hs. cbn [bind String.eqb Ascii.eqb Bool.eqb andb].
  destruct index as [i|]; cbn [stale_before].
  - destruct siblings as [l|]; [|exfalso; apply Hsib; [discriminate | reflexivity]].
    cbn [before]. destruct (existsb stale (firstn i l)) eqn:Hst.
    + unfold get_css_selector, Selenium.tag_name, get_attribute, remote.
      rewrite Hs. cbn [bind String.eqb Ascii.eqb Bool.eqb andb slice_to].
      rewrite (count_same_tag_stale _ _ Hst). reflexivity.
    + rewrite (@SelectorFacts.get_css_selector_child e i l parent_selector Hs
                 (existsb_stale_false _ Hst)).
      reflexivity.
  - rewrite (@SelectorFacts.get_css_selector_root e siblings parent_selector Hs).
    reflexivity.
Qed.

Lemma for_children_lists
  (trav : WebElement -> nat -> IdToElement -> IdToElement * result (option Z))
  (list_child : WebElement -> nat -> IdToElement)
  (ans : WebElement -> nat -> result (option Z)) (p : Z) (rest : list WebElement) :
  Forall (child_listed str_hash trav list_child ans) rest ->
  NoDup (flat_map identities rest) ->
  forall i d,
    (forall h, In h (flat_map identities rest) -> ~ In h (keys d)) ->
    for_children trav p rest i d
    = (d ++ children_records list_child p rest i, Ok tt).
Proof.
  induction rest as [|c rest IH]; intros Hall Hnd i d Hd.
  - cbn. now rewrite app_nil_r.
  - pose proof (Forall_inv Hall) as [Hrun Hshape].
    pose proof (Forall_inv_tail Hall) as Hrest.
    cbn [flat_map] in Hnd, Hd.
    destruct (NoDup_app_parts _ _ _ Hnd) as (Hnc & Hnr & Hdisj).
    destruct (Hshape i) as (Hincl & Hcases).
    cbn [for_children children_records].
    rewrite (Hrun i d Hnc (fun h Hh => Hd h (in_or_app _ _ _ (or_introl Hh)))).
    assert (Hnext : forall h,
               In h (flat_map identities rest) ->
               ~ In h (keys (d ++ adopt p (list_child c i)))).
    { intros h Hh Hin. rewrite keys_app, keys_adopt in Hin.
      apply in_app_or in Hin as [Hin|Hin].
      - exact (Hd h (in_or_app _ _ _ (or_intror Hh)) Hin).
      - exact (Hdisj h (Hincl h Hin) Hh). }
    destruct Hcases as [(Hans & it & tl & Hfc)|(Hans & Hfc)].
    + assert (Hfreshkey : ~ In (hash c) (keys d)).
      { apply Hd, in_or_app. left. rewrite hashes_unfold. left. reflexivity. }
      rewrite Hans. rewrite Hfc in *.
      rewrite (update_app_head _ _ _ _ _ _ Hfreshkey).
      change ((hash c, set_parent_id p it) :: tl) with (adopt p ((hash c, it) :: tl)).
      rewrite (IH Hrest Hnr (S i) _ Hnext). now rewrite <- app_assoc.
    + rewrite Hfc in *. cbn [adopt app] in *. rewrite app_nil_r in *.
      destruct Hans as [-> | ->]; exact (IH Hrest Hnr (S i) _ Hnext).
Qed.

Lemma child_shape (e : WebElement) (parent_selector : string)
  (siblings : option (list WebElement)) (index : option nat) :
  (returns e index siblings = Ok (Some (hash e))
   /\ exists it tl, listed e parent_selector siblings index = (hash e, it) :: tl)
  \/ ((returns e index siblings = Ok None
       \/ returns e index siblings = Raise StaleElementReferenceException)
      /\ listed e parent_selector siblings index = []).
Proof.
  rewrite records_unfold. unfold answer, recorded.
  destruct (stale e); cbn [negb andb]; [right; auto|].
  destruct (passes e); cbn [negb andb]; [|right; auto].
  destruct (stale_before siblings index); cbn [negb]; [right; auto|].
  left. split; [reflexivity | eauto].
Qed.

Lemma traverse_dom_lists (e : WebElement) :
  forall parent_selector siblings index d,
    siblings_given index siblings ->
    NoDup (identities e) ->
    (forall h, In h (identities e) -> ~ In h (keys d)) ->
    traverse e parent_selector siblings index d
    = (d ++ listed e parent_selector siblings index, returns e index siblings).
Proof.
  induction e as [st h t i c v p r1 r2 kids IH] using WebElement_forall_ind.
  intros parent_selector siblings index d Hsib Hnd Hd.
  set (e := mkWebElement st h t i c v p r1 r2 kids) in *.
  rewrite traverse_dom_unfold, records_unfold.
  unfold answer, recorded, get_element_hash, get_attribute, remote.
  destruct (stale e) eqn:Hs; cbn [negb andb bind].
  { now rewrite app_nil_r. }
  cbn [String.eqb Ascii.eqb Bool.eqb andb]. fold (hash e).
  assert (Hm : mem (hash e) d = false).
  { apply mem_false_iff, Hd. rewrite hashes_unfold. left. reflexivity. }
  rewrite Hm. unfold is_displayed, remote. rewrite Hs.
  fold (passes e). destruct (passes e) eqn:Hg; cbn [negb andb].
  2:{ now rewrite app_nil_r. }
  unfold get_bounding_rect, remote. rewrite Hs.
  assert (Hrect : (if full_page_screenshot
                   then Ok (location_size e) else Ok (client_rect e))
                  = Ok (if full_page_screenshot then location_size e else client_rect e))
    by (destruct full_page_screenshot; reflexivity).
  rewrite Hrect, (from_web_element_cases _ _ _ _ Hs Hsib).
  destruct (stale_before siblings index); cbn [negb].
  { now rewrite app_nil_r. }
  unfold find_children, remote. rewrite Hs.
  rewrite (set_fresh _ _ _ _ Hm).
  rewrite hashes_unfold in Hnd, Hd. apply NoDup_cons_iff in Hnd as [Hhead Hkids].
  assert (Hall : Forall
            (child_listed str_hash
               (fun child child_index =>
                  traverse child (css_selector (item e index siblings parent_selector))
                    (Some (child_nodes e)) (Some child_index))
               (fun child i0 =>
                  listed child (css_selector (item e index siblings parent_selector))
                    (Some (child_nodes e)) (Some i0))
               (fun child i0 => returns child (Some i0) (Some (child_nodes e))))
            (child_nodes e)).
  { cbn [child_nodes e] in *.
    apply Forall_forall. intros child Hin.
    rewrite Forall_forall in IH.
    split.
    - intros i0 d0 Hn0 Hd0. apply (IH child Hin); try assumption.
      intros _. discriminate.
    - intros i0. split; [apply keys_records | apply child_shape]. }
  rewrite (for_children_lists _ _ _ (hash e) _ Hall Hkids 0%nat).
  - now rewrite <- app_assoc.
  - intros h0 Hh0 Hin. rewrite keys_app in Hin. apply in_app_or in Hin as [Hin|[<-|[]]].
    + exact (Hd h0 (or_intror Hh0) Hin).
    + exact (Hhead Hh0).
Qed.

(** On a page with distinct identities, [get_elements] lists the
    expected records. *)
Lemma get_elements_lists (root : WebElement) :
  NoDup (identities root) ->
  get_elements str_hash full_page_screenshot pixel_ratio
    capture_invisible_elements (Some root)
  = Ok (values (listed root "" None None)).
Proof.
  intros Hnd. cbn [get_elements].
  rewrite (traverse_dom_lists root "" None None (empty ElementItem)).
  - cbn [app]. destruct (child_shape root "" None None)
      as [(-> & _)|([-> | ->] & Hl)]; try reflexivity.
    rewrite Hl. reflexivity.
  - intros H. exfalso. apply H. reflexivity.
  - exact Hnd.
  - intros h _ [].
Qed.

End ListingFacts.

(** *** Capturing invisible elements or not *)

Lemma adopt_entry (p k : Z) (it : ElementItem) (l : IdToElement) :
  In (k, it) l ->
  exists it', In (k, it') (adopt p l)
              /\ id it' = id it /\ is_visible it' = is_visible it.
Proof.
  destruct l as [|[k0 it0] l]; [intros []|].
  intros [H|H].
  - injection H as -> ->. exists (set_parent_id p it). split; [left; reflexivity|].
    split; reflexivity.
  - exists it. split; [right; exact H | split; reflexivity].
Qed.

Lemma adopt_entry_inv (p k : Z) (it : ElementItem) (l : IdToElement) :
  In (k, it) (adopt p l) ->
  exists it', In (k, it') l /\ id it' = id it /\ is_visible it' = is_visible it.
Proof.
  destruct l as [|[k0 it0] l]; [intros []|].
  intros [H|H].
  - injection H as -> <-. exists it0. split; [left; reflexivity|].
    split; reflexivity.
  - exists it. split; [right; exact H | split; reflexivity].
Qed.

Lemma hash_injective (str_hash : string -> Z) (l : list WebElement) (a b : WebElement) :
  NoDup (map (hash_of str_hash) l) -> In a l -> In b l ->
  hash_of str_hash a = hash_of str_hash b -> a = b.
Proof.
  induction l as [|x l IH]; [intros _ []|].
  cbn [map]. intros Hnd Ha Hb Heq. apply NoDup_cons_iff in Hnd as [Hx Hnd].
  destruct Ha as [<-|Ha], Hb as [<-|Hb].
  - reflexivity.
  - exfalso. apply Hx. rewrite Heq. apply in_map. exact Hb.
  - exfalso. apply Hx. rewrite <- Heq. apply in_map. exact Ha.
  - exact (IH Hnd Ha Hb Heq).
Qed.

Lemma filter_values (l : IdToElement) :
  filter is_visible (values l) = values (filter shown l).
Proof.
  unfold values. induction l as [|[k it] l IH]; [reflexivity|].
  cbn [map filter snd]. unfold shown at 1. cbn [snd].
  destruct (is_visible it); cbn [map snd]; now rewrite IH.
Qed.

Section FlagFacts.
Variable str_hash : string -> Z.
Variable full_page_screenshot : bool.
Variable pixel_ratio : Z -> Z.

Abbreviation listed cap := (records str_hash full_page_screenshot pixel_ratio cap).
Abbreviation item := (item_of str_hash full_page_screenshot pixel_ratio).
Abbreviation hash := (hash_of str_hash).
Abbreviation identities := (hashes str_hash).

Lemma recorded_hidden (e : WebElement) (index : option nat)
  (siblings : option (list WebElement)) :
  displayed e = false -> recorded false e index siblings = false.
Proof.
  intros H. unfold recorded, gate. rewrite H. cbn. now rewrite andb_false_r.
Qed.

Lemma recorded_shown (e : WebElement) (index : option nat)
  (siblings : option (list WebElement)) :
  displayed e = true ->
  recorded false e index siblings = recorded true e index siblings.
Proof. intros H. unfold recorded, gate. now rewrite H. Qed.

Lemma listed_off_hidden (e : WebElement) (parent_selector : string)
  (siblings : option (list WebElement)) (index : option nat) :
  displayed e = false -> listed false e parent_selector siblings index = [].
Proof. intros H. rewrite records_unfold, (recorded_hidden _ _ _ H). reflexivity. Qed.

Lemma children_every_node
  (list_child : WebElement -> nat -> IdToElement) (p : Z) (rest : list WebElement) :
  Forall (fun c => forall i n,
              In n (nodes c) ->
              exists it, In (hash n, it) (list_child c i)
                         /\ id it = hash n /\ is_visible it = displayed n) rest ->
  forall i n,
    In n (flat_map nodes rest) ->
    exists it, In (hash n, it) (children_records list_child p rest i)
               /\ id it = hash n /\ is_visible it = displayed n.
Proof.
  induction 1 as [|c rest Hc _ IH]; intros i n Hn; [destruct Hn|].
  cbn [flat_map] in Hn. cbn [children_records].
  apply in_app_or in Hn as [Hn|Hn].
  - destruct (Hc i n Hn) as (it & Hin & Hid & Hv).
    destruct (adopt_entry p _ _ _ Hin) as (it' & Hin' & Hid' & Hv').
    exists it'. split; [apply in_or_app; left; exact Hin'|].
    split; congruence.
  - destruct (IH (S i) n Hn) as (it & Hin & Hid & Hv).
    exists it. split; [apply in_or_app; right; exact Hin | split; assumption].
Qed.

Lemma existsb_stale_fresh (l : list WebElement) (i : nat) :
  Forall (fun sib => stale sib = false) l -> existsb stale (firstn i l) = false.
Proof.
  revert i. induction l as [|sib l IH]; intros i H; destruct i; cbn; try reflexivity.
  rewrite (Forall_inv H). cbn. apply IH. exact (Forall_inv_tail H).
Qed.

(** With the flag on and no stale handle, every element of the page has
    its record, with its own visibility. *)
Lemma listed_on_every_node (e : WebElement) :
  forall parent_selector siblings index n,
    fresh e -> stale_before siblings index = false ->
    In n (nodes e) ->
    exists it, In (hash n, it) (listed true e parent_selector siblings index)
               /\ id it = hash n /\ is_visible it = displayed n.
Proof.
  induction e as [st h t i c v p r1 r2 kids IH] using WebElement_forall_ind.
  intros parent_selector siblings index n Hf Hsb Hn.
  set (e := mkWebElement st h t i c v p r1 r2 kids) in *.
  rewrite records_unfold. unfold recorded, gate.
  rewrite (fresh_here _ Hf), Hsb, orb_true_r. cbn [negb andb].
  rewrite nodes_unfold in Hn. destruct Hn as [<-|Hn].
  { eexists. split; [left; reflexivity|]. split; reflexivity. }
  destruct (children_every_node
              (fun child i0 =>
                 listed true child (css_selector (item e index siblings parent_selector))
                   (Some (child_nodes e)) (Some i0))
              (hash e) (child_nodes e)) with (i := 0%nat) (n := n)
    as (it & Hin & Hrest); [|exact Hn|].
  - pose proof (fresh_children _ Hf) as Hfk.
    assert (Hsk : Forall (fun sib => stale sib = false) (child_nodes e)).
    { eapply Forall_impl; [|exact Hfk]. intros a. apply fresh_here. }
    cbn [child_nodes e] in *. rewrite Forall_forall in IH, Hfk.
    apply Forall_forall. intros child Hc i0 n0 Hn0.
    apply (IH child Hc); [apply Hfk, Hc | | exact Hn0].
    cbn [stale_before before]. apply existsb_stale_fresh, Hsk.
  - exists it. split; [right; exact Hin | exact Hrest].
Qed.

Lemma children_entries (cap : bool)
  (list_child : WebElement -> nat -> IdToElement) (p : Z) (rest : list WebElement) :
  Forall (fun c => forall i entry,
              In entry (list_child c i) -> of_node str_hash cap (nodes c) entry) rest ->
  forall i entry,
    In entry (children_records list_child p rest i) ->
    of_node str_hash cap (flat_map nodes rest) entry.
Proof.
  induction 1 as [|c rest Hc _ IH]; intros i [k it] Hin; [destruct Hin|].
  cbn [children_records] in Hin. cbn [flat_map].
  apply in_app_or in Hin as [Hin|Hin].
  - destruct (adopt_entry_inv p _ _ _ Hin) as (it' & Hin' & Hid & Hv).
    destruct (Hc i _ Hin') as (m & Hm & Hh & Hi & Hd & Hg). cbn [fst snd] in *.
    exists m. split; [apply in_or_app; left; exact Hm|]. cbn [fst snd].
    repeat split; congruence.
  - destruct (IH (S i) _ Hin) as (m & Hm & Hrest).
    exists m. split; [apply in_or_app; right; exact Hm | exact Hrest].
Qed.

Lemma listed_entries (cap : bool) (e : WebElement) :
  forall parent_selector siblings index entry,
    In entry (listed cap e parent_selector siblings index) ->
    of_node str_hash cap (nodes e) entry.
Proof.
  induction e as [st h t i c v p r1 r2 kids IH] using WebElement_forall_ind.
  intros parent_selector siblings index entry Hin.
  set (e := mkWebElement st h t i c v p r1 r2 kids) in *.
  rewrite records_unfold in Hin. rewrite nodes_unfold.
  destruct (recorded cap e index siblings) eqn:Hr; [|destruct Hin].
  destruct Hin as [<-|Hin].
  - exists e. split; [left; reflexivity|]. cbn [fst snd]. repeat split.
    unfold recorded in Hr. apply andb_true_iff in Hr as [Hr _].
    apply andb_true_iff in Hr as [_ Hg]. exact Hg.
  - apply (children_entries cap) in Hin.
    + destruct Hin as (m & Hm & Hrest). exists m. split; [right; exact Hm | exact Hrest].
    + cbn [child_nodes e]. eapply Forall_impl; [|exact IH].
      intros child Hc i0 entry0 Hin0. exact (Hc _ _ _ _ Hin0).
Qed.

Lemma pruned_adopt (p : Z) (off on : IdToElement) :
  pruned off on -> incl (adopt p off) (adopt p on).
Proof.
  intros [->|([k it] & tf & tn & -> & -> & Hincl)]; [intros x []|].
  cbn [adopt]. intros x [<-|Hx]; [left; reflexivity | right; exact (Hincl x Hx)].
Qed.

Lemma children_pruned
  (child_off child_on : WebElement -> nat -> IdToElement) (p : Z)
  (rest : list WebElement) :
  Forall (fun c => forall i, pruned (child_off c i) (child_on c i)) rest ->
  forall i, incl (children_records child_off p rest i)
              (children_records child_on p rest i).
Proof.
  induction 1 as [|c rest Hc _ IH]; intros i; [apply incl_refl|].
  cbn [children_records]. apply incl_app.
  - apply incl_appl, pruned_adopt, Hc.
  - apply incl_appr, IH.
Qed.

Lemma listed_pruned (e : WebElement) :
  forall parent_selector siblings index,
    pruned (listed false e parent_selector siblings index)
      (listed true e parent_selector siblings index).
Proof.
  induction e as [st h t i c v p r1 r2 kids IH] using WebElement_forall_ind.
  intros parent_selector siblings index.
  set (e := mkWebElement st h t i c v p r1 r2 kids) in *.
  destruct (displayed e) eqn:Hd.
  - rewrite !records_unfold, (recorded_shown _ _ _ Hd).
    destruct (recorded true e index siblings); [right | left; reflexivity].
    do 3 eexists. split; [reflexivity|]. split; [reflexivity|].
    apply children_pruned. cbn [child_nodes e].
    eapply Forall_impl; [|exact IH]. intros child Hc i0. apply Hc.
  - left. exact (listed_off_hidden _ _ _ _ Hd).
Qed.

Lemma listed_incl (e : WebElement) (parent_selector : string)
  (siblings : option (list WebElement)) (index : option nat) :
  incl (listed false e parent_selector siblings index)
    (listed true e parent_selector siblings index).
Proof.
  destruct (listed_pruned e parent_selector siblings index)
    as [->|(x & tf & tn & -> & -> & Hincl)]; [intros x []|].
  intros y [<-|Hy]; [left; reflexivity | right; exact (Hincl y Hy)].
Qed.

Lemma filter_nothing (l : IdToElement) :
  (forall entry, In entry l -> shown entry = false) -> filter shown l = [].
Proof.
  induction l as [|x l IH]; intros H; [reflexivity|].
  cbn [filter]. rewrite (H x (or_introl eq_refl)). apply IH.
  intros entry Hin. apply H. right. exact Hin.
Qed.

Lemma filter_adopt (p : Z) (l : IdToElement) :
  led_or_hidden l -> filter shown (adopt p l) = adopt p (filter shown l).
Proof.
  intros [(k & it & tl & -> & Hv)|Hall].
  - assert (H1 : shown (k, set_parent_id p it) = true) by exact Hv.
    assert (H2 : shown (k, it) = true) by exact Hv.
    cbn [adopt filter]. rewrite H1, H2. reflexivity.
  - rewrite (filter_nothing _ Hall). apply filter_nothing.
    intros [k it] Hin. destruct (adopt_entry_inv p _ _ _ Hin) as (it' & Hin' & _ & Hv).
    pose proof (Hall _ Hin') as Hs. unfold shown in *. cbn [snd] in *. congruence.
Qed.

Lemma children_filter
  (child_off child_on : WebElement -> nat -> IdToElement) (p : Z)
  (rest : list WebElement) :
  Forall (fun c => forall i,
              filter shown (child_on c i) = child_off c i
              /\ led_or_hidden (child_on c i)) rest ->
  forall i, filter shown (children_records child_on p rest i)
            = children_records child_off p rest i.
Proof.
  induction 1 as [|c rest Hc _ IH]; intros i; [reflexivity|].
  cbn [children_records]. destruct (Hc i) as [Hf Hl].
  rewrite filter_app, (filter_adopt p _ Hl), Hf, IH. reflexivity.
Qed.

Lemma hidden_below_children (e : WebElement) :
  hidden_below e -> Forall hidden_below (child_nodes e).
Proof.
  unfold hidden_below. rewrite nodes_unfold. intros H. apply Forall_inv_tail in H.
  apply Forall_flat_map in H. exact H.
Qed.

Lemma hidden_below_here (e : WebElement) :
  hidden_below e -> displayed e = false ->
  forall m, In m (nodes e) -> displayed m = false.
Proof.
  unfold hidden_below. intros H Hd. rewrite nodes_unfold in H at 1.
  pose proof (Forall_inv H Hd) as Hall. rewrite Forall_forall in Hall. exact Hall.
Qed.

Lemma listed_on_hidden (e : WebElement) (parent_selector : string)
  (siblings : option (list WebElement)) (index : option nat) :
  (forall m, In m (nodes e) -> displayed m = false) ->
  forall entry, In entry (listed true e parent_selector siblings index) ->
                shown entry = false.
Proof.
  intros Hall entry Hin.
  destruct (listed_entries true e _ _ _ _ Hin) as (m & Hm & _ & _ & Hv & _).
  unfold shown. rewrite Hv. exact (Hall m Hm).
Qed.

Lemma listed_led_or_hidden (e : WebElement) (parent_selector : string)
  (siblings : option (list WebElement)) (index : option nat) :
  hidden_below e ->
  led_or_hidden (listed true e parent_selector siblings index).
Proof.
  intros Hh. destruct (displayed e) eqn:Hd.
  - rewrite records_unfold. destruct (recorded true e index siblings).
    + left. do 3 eexists. split; [reflexivity | exact Hd].
    + right. intros entry [].
  - right. apply listed_on_hidden. exact (hidden_below_here _ Hh Hd).
Qed.

(** When nothing is displayed below an element that is not, the records
    with the flag off are the shown records with the flag on. *)
Lemma listed_filter (e : WebElement) :
  forall parent_selector siblings index,
    hidden_below e ->
    filter shown (listed true e parent_selector siblings index)
    = listed false e parent_selector siblings index.
Proof.
  induction e as [st h t i c v p r1 r2 kids IH] using WebElement_forall_ind.
  intros parent_selector siblings index Hh.
  set (e := mkWebElement st h t i c v p r1 r2 kids) in *.
  destruct (displayed e) eqn:Hd.
  - rewrite !records_unfold, (recorded_shown _ _ _ Hd).
    destruct (recorded true e index siblings); [|reflexivity].
    cbn [filter]. unfold shown at 1. cbn [snd item_of is_visible]. rewrite Hd. f_equal.
    apply children_filter.
    pose proof (hidden_below_children _ Hh) as Hk. cbn [child_nodes e] in *.
    rewrite Forall_forall in IH, Hk. apply Forall_forall. intros child Hin i0.
    split; [apply (IH child Hin), Hk, Hin | apply listed_led_or_hidden, Hk, Hin].
  - rewrite (listed_off_hidden _ _ _ _ Hd). apply filter_nothing.
    apply listed_on_hidden. exact (hidden_below_here _ Hh Hd).
Qed.

End FlagFacts.

(** C3, as stated, fails: an element that is displayed inside one that
    is not has a record, with [is_visible] true, only when invisible
    elements are captured; without them the hidden element is skipped
    with all that is below it. *)
Lemma shown_in_hidden_differs :
  exists off on,
    get_elements by_length true (fun v => v) false (Some shown_in_hidden) = Ok off
    /\ get_elements by_length true (fun v => v) true (Some shown_in_hidden) = Ok on
    /\ exists it, In it on /\ is_visible it = true
                  /\ css_selector it = "html p em"%string /\ ~ In it off.
Proof.
  do 2 eexists. split; [vm_compute; reflexivity|]. split; [vm_compute; reflexivity|].
  eexists. split; [right; right; left; reflexivity|].
  split; [reflexivity|]. split; [reflexivity|].
  intros [H|[]]. discriminate H.
Qed.

(** Why the identities have to be distinct below: of two paragraphs with
    the same markup, the first not displayed, the flag decides which one
    gets the record of their identity, and with it the visibility the
    record carries. *)
Example first_twin_hidden_differs :
  exists off on,
    get_elements by_length true (fun v => v) false (Some first_twin_hidden) = Ok off
    /\ get_elements by_length true (fun v => v) true (Some first_twin_hidden) = Ok on
    /\ map (fun it => (id it, is_visible it)) off = [(27%Z, true); (7%Z, true)]
    /\ map (fun it => (id it, is_visible it)) on = [(27%Z, true); (7%Z, false)].
Proof.
  do 2 eexists. split; [vm_compute; reflexivity|]. split; [vm_compute; reflexivity|].
  split; reflexivity.
Qed.

(** C3 (amended): with invisible elements not captured, every record
    listed has [is_visible] true.  On a page where no two elements have
    the same identity: every record listed without the flag is listed
    with it, among the records with [is_visible] true; without the flag
    no record has the identity of an element that is not displayed; the
    records with [is_visible] true are the same in both runs when no
    element is displayed below one that is not; and with the flag, when
    no handle is stale, every element has its record, with [is_visible]
    false when it is not displayed. *)
Theorem invisible_capture_flag
  (str_hash : string -> Z) (full_page_screenshot : bool) (pixel_ratio : Z -> Z)
  (root : WebElement) :
  let run cap :=
    get_elements str_hash full_page_screenshot pixel_ratio cap (Some root) in
  (exists items, run false = Ok items /\ forall it, In it items -> is_visible it = true)
  /\ (NoDup (hashes str_hash root) ->
      exists off on,
        run false = Ok off /\ run true = Ok on
        /\ incl off (filter is_visible on)
        /\ (forall n, In n (nodes root) -> displayed n = false ->
              forall it, In it off -> id it <> hash_of str_hash n)
        /\ (hidden_below root -> filter is_visible on = off)
        /\ (fresh root ->
            forall n, In n (nodes root) ->
              exists it, In it on /\ id it = hash_of str_hash n
                         /\ is_visible it = displayed n)).
Proof.
  intros run. split.
  - destruct (get_elements_good str_hash full_page_screenshot pixel_ratio false (Some root))
      as (d & Hrun & (_ & _ & _ & Hv)).
    exists (values d). split; [exact Hrun|]. intros it Hin.
    destruct (in_values _ _ Hin) as (k & Hentry). exact (Hv eq_refl _ _ Hentry).
  - intros Hnd.
    exists (values (records str_hash full_page_screenshot pixel_ratio false root "" None None)),
      (values (records str_hash full_page_screenshot pixel_ratio true root "" None None)).
    split; [apply get_elements_lists; assumption|].
    split; [apply get_elements_lists; assumption|].
    split; [|split; [|split]].
    + intros it Hin. destruct (in_values _ _ Hin) as (k & Hentry).
      apply filter_In. split.
      * exact (entry_in_values _ _ _ (listed_incl _ _ _ _ _ _ _ _ Hentry)).
      * destruct (listed_entries _ _ _ _ _ _ _ _ _ Hentry) as (m & _ & _ & _ & Hv & Hg).
        cbn [snd] in Hv. rewrite Hv. now rewrite orb_false_r in Hg.
    + intros n Hn Hd it Hin Hid. destruct (in_values _ _ Hin) as (k & Hentry).
      destruct (listed_entries _ _ _ _ _ _ _ _ _ Hentry) as (m & Hm & Hh & Hi & _ & Hg).
      cbn [fst snd] in *. rewrite orb_false_r in Hg.
      assert (Hmn : m = n).
      { apply (hash_injective str_hash (nodes root)); try assumption. congruence. }
      congruence.
    + intros Hh. rewrite filter_values. f_equal. apply listed_filter. exact Hh.
    + intros Hf n Hn.
      destruct (listed_on_every_node str_hash full_page_screenshot pixel_ratio
                  root "" None None n Hf eq_refl Hn) as (it & Hin & Hid & Hv).
      exists it. split; [exact (entry_in_values _ _ _ Hin) | split; assumption].
Qed.

Lemma invisible_capture_flag_witness :
  exists off on,
    get_elements by_length true (fun v => v) false (Some hidden_branch) = Ok off
    /\ get_elements by_length true (fun v => v) true (Some hidden_branch) = Ok on
    /\ List.length off = 2%nat /\ List.length on = 4%nat
    /\ filter is_visible on = off
    /\ exists it, In it on /\ id it = by_length "<em></em>" /\ is_visible it = false.
Proof.
  assert (Hf : fresh hidden_branch) by (unfold fresh; cbn; repeat constructor).
  assert (Hnd : NoDup (hashes by_length hidden_branch)).
  { vm_compute. repeat (constructor; [cbn; intuition discriminate|]). constructor. }
  assert (Hh : hidden_below hidden_branch).
  { unfold hidden_below. apply Forall_forall. intros n Hn Hd.
    vm_compute in Hn. destruct Hn as [<-|[<-|[<-|[<-|[]]]]];
      first [discriminate Hd | vm_compute; repeat constructor]. }
  destruct (proj2 (invisible_capture_flag by_length true (fun v => v) hidden_branch) Hnd)
    as (off & on & Hoff & Hon & _ & _ & Heq & Hall).
  exists off, on. split; [exact Hoff|]. split; [exact Hon|].
  pose proof (Hall Hf (element "<em></em>" "em" None None false [])
                (or_intror (or_intror (or_introl eq_refl)))) as Hem.
  vm_compute in Hoff, Hon. injection Hoff as <-. injection Hon as <-.
  split; [reflexivity|]. split; [reflexivity|]. split; [exact (Heq Hh)|].
  exact Hem.
Defined.

End TraversalFacts.

(** ** Strings *)

Module StringFacts.
#[local] Unset Implicit Arguments.

Lemma rstrip_idempotent (s : string) : rstrip (rstrip s) = rstrip s.
Proof.
  induction s as [|c s IH]; [reflexivity|].
  cbn [rstrip]. destruct (rstrip s) as [|c' r] eqn:Hr.
  - destruct (isspace c) eqn:Hc; [reflexivity|]. cbn [rstrip]. now rewrite Hc.
  - cbn [rstrip]. cbn [rstrip] in IH. rewrite IH. reflexivity.
Qed.

Lemma rstrip_head (c : ascii) (s : string) :
  isspace c = false -> exists r, rstrip (String c s) = String c r.
Proof.
  intros Hc. cbn [rstrip]. destruct (rstrip s) as [|c' r].
  - rewrite Hc. eauto.
  - eauto.
Qed.

Lemma lstrip_shape (s : string) :
  lstrip s = "" \/ exists c r, lstrip s = String c r /\ isspace c = false.
Proof.
  induction s as [|c s IH]; [left; reflexivity|].
  cbn [lstrip]. destruct (isspace c) eqn:Hc; [exact IH|]. right. eauto.
Qed.

(** [strip] leaves nothing to strip. *)
Lemma strip_idempotent (s : string) : strip (strip s) = strip s.
Proof.
  unfold strip. destruct (lstrip_shape s) as [->|(c & r & -> & Hc)]; [reflexivity|].
  destruct (rstrip_head c r Hc) as (r' & Hr). rewrite Hr.
  cbn [lstrip]. rewrite Hc, <- Hr. apply rstrip_idempotent.
Qed.

Lemma length_lstrip (s : string) : (String.length (lstrip s) <= String.length s)%nat.
Proof.
  induction s as [|c s IH]; [apply Nat.le_refl|].
  cbn [lstrip]. destruct (isspace c); cbn [String.length]; lia.
Qed.

Lemma length_rstrip (s : string) : (String.length (rstrip s) <= String.length s)%nat.
Proof.
  induction s as [|c s IH]; [apply Nat.le_refl|].
  cbn [rstrip]. destruct (rstrip s) as [|c' r].
  - destruct (isspace c); cbn [String.length] in *; lia.
  - cbn [String.length] in *. lia.
Qed.

(** A stripped string is left as it is by both halves of [strip]. *)
Lemma stripped_parts (s : string) :
  strip s = s -> lstrip s = s /\ rstrip s = s.
Proof.
  intros H. assert (Hl : lstrip s = s).
  { destruct s as [|c s]; [reflexivity|]. cbn [lstrip].
    destruct (isspace c) eqn:Hc; [|reflexivity]. exfalso.
    unfold strip in H. cbn [lstrip] in H. rewrite Hc in H.
    pose proof (length_rstrip (lstrip s)) as H1. pose proof (length_lstrip s) as H2.
    rewrite H in H1. cbn [String.length] in H1. lia. }
  split; [exact Hl|]. unfold strip in H. now rewrite Hl in H.
Qed.

Lemma rstrip_keeps_prefix (p x : string) :
  rstrip p = p -> exists y, rstrip (p ++ x) = p ++ y.
Proof.
  induction p as [|c p IH]; intros H.
  - exists (rstrip x). reflexivity.
  - cbn [rstrip] in H. cbn [append rstrip]. destruct (rstrip p) as [|c' r] eqn:Hr.
    + destruct (isspace c) eqn:Hc; [discriminate|]. injection H as <-.
      cbn [append]. destruct (rstrip x) as [|c'' r'']; eauto.
    + injection H as Hp. destruct (IH Hp) as (y & Hy). rewrite Hy.
      rewrite <- Hp. cbn [append]. eauto.
Qed.

Lemma startswith_append (p y : string) : startswith p (p ++ y) = true.
Proof.
  induction p as [|c p IH]; [reflexivity|].
  cbn [append startswith]. now rewrite Ascii.eqb_refl, IH.
Qed.

(** Stripping what follows a stripped string keeps that string in
    front. *)
Lemma strip_keeps_prefix (p x : string) :
  strip p = p -> startswith p (strip (p ++ x)) = true.
Proof.
  intros H. destruct (stripped_parts p H) as [Hl Hr].
  destruct p as [|c p]; [reflexivity|].
  assert (Hc : isspace c = false).
  { cbn [lstrip] in Hl. destruct (isspace c) eqn:Hc; [|reflexivity]. exfalso.
    pose proof (length_lstrip p) as H1. rewrite Hl in H1. cbn [String.length] in H1. lia. }
  unfold strip. cbn [append lstrip]. rewrite Hc.
  change (String c (p ++ x)) with (String c p ++ x).
  destruct (rstrip_keeps_prefix (String c p) x Hr) as (y & ->).
  apply startswith_append.
Qed.

End StringFacts.

(** ** The CSS selector: shape of the answer *)

Module SelectorShape.
Import Draw DomView StringFacts SelectorFacts.
#[local] Unset Implicit Arguments.

Lemma get_css_selector_body (element : WebElement) (index : option nat)
  (siblings : option (list WebElement)) (parent_selector s : string) :
  get_css_selector element index siblings parent_selector = Ok s ->
  exists body,
    s = strip body
    /\ (index <> None -> exists rest, body = parent_selector ++ " " ++ rest).
Proof.
  unfold get_css_selector, Selenium.tag_name, get_attribute, remote.
  destruct (stale element); cbn [bind]; [discriminate|].
  destruct index as [i|]; cbn [bind].
  - destruct (slice_to siblings i) as [before|ex]; cbn [bind]; [|discriminate].
    destruct (count_same_tag (tag element) before) as [n|ex]; cbn [bind]; [|discriminate].
    destruct (1 <? n)%nat; cbn [bind]; intros H; inversion H;
      eexists; (split; [reflexivity|]); intros _; eexists; reflexivity.
  - intros H; inversion H. eexists. split; [reflexivity|]. intros Hn. now elim Hn.
Qed.

(** X1: a selector that [get_css_selector] answers with is trimmed:
    stripping it again changes nothing, whatever the tag, the
    attributes and the selector of the parent are. *)
Theorem css_selector_is_stripped (element : WebElement) (index : option nat)
  (siblings : option (list WebElement)) (parent_selector s : string) :
  get_css_selector element index siblings parent_selector = Ok s ->
  strip s = s.
Proof.
  intros H. destruct (get_css_selector_body _ _ _ _ _ H) as (body & -> & _).
  apply strip_idempotent.
Qed.

Lemma css_selector_is_stripped_witness :
  strip "div#header.a.b" = "div#header.a.b".
Proof.
  apply (css_selector_is_stripped
           (Pages.element "<div></div>" "div" (Some "header") (Some "a b") true [])
           None None " ").
  reflexivity.
Defined.

(** X2: the selector of an element that has a position among its
    siblings extends the selector of its parent: when the latter is
    trimmed, as every selector that [get_css_selector] answers with is,
    the former starts with it. *)
Theorem css_selector_extends_parent (element : WebElement) (i : nat)
  (siblings : option (list WebElement)) (parent_selector s : string) :
  strip parent_selector = parent_selector ->
  get_css_selector element (Some i) siblings parent_selector = Ok s ->
  startswith parent_selector s = true.
Proof.
  intros Hp H. destruct (get_css_selector_body _ _ _ _ _ H) as (body & -> & Hb).
  destruct (Hb ltac:(discriminate)) as (rest & ->).
  apply strip_keeps_prefix. exact Hp.
Qed.

Lemma css_selector_extends_parent_witness :
  let p := Pages.element "<p></p>" "p" None (Some "lead") true [] in
  get_css_selector p (Some 0%nat) (Some [p]) "html body" = Ok "html body p.lead"
  /\ startswith "html body" "html body p.lead" = true.
Proof.
  intros p. split; [reflexivity|].
  apply (css_selector_extends_parent p 0%nat (Some [p]) "html body" "html body p.lead");
    reflexivity.
Defined.

(** X3: the rule of the [:nth-of-type] qualifier.  For an element that
    comes after [c] siblings of its own tag, no handle among them being
    stale, the selector ends with [:nth-of-type(c + 1)] when [c] is at
    least two; with [c] zero or one it is the selector of the parent
    followed by the tag, the id and the classes, and nothing else. *)
Theorem nth_of_type_from_third_sibling (element : WebElement) (i : nat)
  (l : list WebElement) (parent_selector : string) :
  stale element = false ->
  Forall (fun sib => stale sib = false) (firstn i l) ->
  let c := same_tag_count (tag element) (firstn i l) in
  ((2 <= c)%nat ->
   get_css_selector element (Some i) (Some l) parent_selector
   = Ok (strip (parent_selector ++ " " ++ combined_selector element
                  ++ ":nth-of-type(" ++ str_of_nat (c + 1) ++ ")")))
  /\ ((c <= 1)%nat ->
      get_css_selector element (Some i) (Some l) parent_selector
      = Ok (strip (parent_selector ++ " " ++ combined_selector element))).
Proof. exact (qualifier_rule element i l parent_selector). Qed.

Lemma nth_of_type_from_third_sibling_witness :
  let li := Pages.element "<li></li>" "li" None None true [] in
  let a := Pages.element "<a></a>" "a" None None true [] in
  get_css_selector li (Some 3%nat) (Some [li; a; li; li]) "ul" = Ok "ul li:nth-of-type(3)"
  /\ get_css_selector li (Some 2%nat) (Some [li; a; li; li]) "ul" = Ok "ul li".
Proof.
  intros li a. split.
  - apply (proj1 (nth_of_type_from_third_sibling li 3%nat [li; a; li; li] "ul" eq_refl
                    ltac:(repeat constructor))).
    cbn. lia.
  - apply (proj2 (nth_of_type_from_third_sibling li 2%nat [li; a; li; li] "ul" eq_refl
                    ltac:(repeat constructor))).
    cbn. lia.
Defined.

(** X4: a stale handle among the siblings that come before an element
    makes [get_css_selector] raise for that element, although its own
    handle is not stale: the count of the siblings of its tag asks every
    earlier sibling for its tag. *)
Theorem stale_sibling_breaks_selector (element : WebElement) (i : nat)
  (l : list WebElement) (parent_selector : string) :
  stale element = false ->
  existsb stale (firstn i l) = true ->
  get_css_selector element (Some i) (Some l) parent_selector
  = Raise StaleElementReferenceException.
Proof.
  intros Hs Hst. unfold get_css_selector, Selenium.tag_name, get_attribute, remote.
  rewrite Hs. cbn [bind String.eqb Ascii.eqb Bool.eqb andb slice_to].
  rewrite (TraversalFacts.count_same_tag_stale _ _ Hst). reflexivity.
Qed.

Lemma stale_sibling_breaks_selector_witness :
  let gone := mkWebElement true "<i></i>" "i" None None true "static"
                (Build_Rect 0 0 0 0) (Build_Rect 0 0 0 0) [] in
  let b := Pages.element "<b></b>" "b" None None true [] in
  get_css_selector b (Some 1%nat) (Some [gone; b]) "p"
  = Raise StaleElementReferenceException.
Proof.
  intros gone b.
  apply (stale_sibling_breaks_selector b 1%nat [gone; b] "p"); reflexivity.
Defined.

End SelectorShape.

(** ** The session: caching, disposal, order of the endpoints *)

Module SessionFacts.
Import Actions Base Observe Session BaseFacts RotationFacts GateFacts.
#[local] Open Scope list_scope.

Lemma requests_app (a b : list Effect) :
  requests (a ++ b) = requests a ++ requests b.
Proof.
  induction a as [|ev a IH]; [reflexivity|].
  destruct ev; cbn; rewrite IH; reflexivity.
Qed.

Lemma calls_access_live (k : nat) (s : BaseScreenshooter) (d : WebDriver) :
  live s d -> calls (repeat AccessDriver k) s = s.
Proof.
  intros Hl. induction k as [|k IH]; [reflexivity|].
  cbn [repeat calls fold_left call]. rewrite (driver_live Hl). exact IH.
Qed.

Lemma driver_answers_live (s s1 : BaseScreenshooter) (d : WebDriver) :
  driver s = (s1, Ok d) -> live s1 d.
Proof.
  unfold driver.
  destruct (Nat.leb_spec (List.length (setup_driver_list s)) (current_driver_index s));
    [discriminate|].
  destruct (current_driver s) as [d0|] eqn:Hc; intros Heq; inversion Heq; subst.
  - split; assumption.
  - split; [reflexivity | assumption].
Qed.

(** X5: the [driver] property caches the connection.  Once an access has
    answered with a connection, every further access answers with the
    same one and leaves the session as it is: no connection is opened
    again. *)
Theorem driver_access_cached (s s1 : BaseScreenshooter) (d : WebDriver) :
  driver s = (s1, Ok d) ->
  driver s1 = (s1, Ok d)
  /\ forall k, calls (repeat AccessDriver k) s1 = s1.
Proof.
  intros H. pose proof (@driver_answers_live s s1 d H) as Hl.
  split; [exact (driver_live Hl) | intros k; exact (calls_access_live k Hl)].
Qed.

Lemma driver_access_cached_witness :
  let d := {| proxy := None; endpoint := 0 |} in
  let s1 := fst (driver (init NoProxy)) in
  driver s1 = (s1, Ok d) /\ calls (repeat AccessDriver 3) s1 = s1.
Proof.
  intros d s1.
  destruct (@driver_access_cached (init NoProxy) s1 d eq_refl) as [H1 H2].
  split; [exact H1 | exact (H2 3%nat)].
Defined.

(** X6: the setter of [driver] replaces the cached connection, without
    closing the one that was there nor opening any.  An access then
    answers with the connection that was set, as long as the cursor is
    inside the list of endpoints; once the endpoints are exhausted the
    access raises [NoDriverRemainingError], whatever was set. *)
Theorem driver_setter_then_driver (value : WebDriver) (s : BaseScreenshooter) :
  let s1 := fst (driver_setter value s) in
  effects s1 = effects s
  /\ ((current_driver_index s < List.length (setup_driver_list s))%nat ->
      driver s1 = (s1, Ok value))
  /\ ((List.length (setup_driver_list s) <= current_driver_index s)%nat ->
      driver s1 = (s1, Raise NoDriverRemainingError)).
Proof.
  intros s1. split; [reflexivity|]. split; intros Hi.
  - apply driver_live. split; [reflexivity | exact Hi].
  - apply driver_exhausted. exact Hi.
Qed.

Lemma driver_setter_then_driver_witness :
  let d := {| proxy := Some "http://p:1"; endpoint := 7 |} in
  snd (driver (fst (driver_setter d (init NoProxy)))) = Ok d
  /\ snd (driver (fst (driver_setter d (init (ProxyList []))))) = Raise NoDriverRemainingError.
Proof.
  intros d. split.
  - rewrite (proj1 (proj2 (driver_setter_then_driver d (init NoProxy)))); [reflexivity|].
    cbn. lia.
  - rewrite (proj2 (proj2 (driver_setter_then_driver d (init (ProxyList []))))); [reflexivity|].
    cbn. lia.
Defined.

Lemma del_open (s : BaseScreenshooter) :
  (current_driver_index s < List.length (setup_driver_list s))%nat ->
  __del__ s = (add_effects [Quit (connection s)] (connect s), Ok tt).
Proof.
  intros Hi. unfold __del__, mbind. rewrite (driver_connect s Hi), emit_eq. reflexivity.
Qed.

(** X7: [__del__] never raises.  On a session whose endpoints are
    exhausted it does nothing.  Otherwise it closes the connection that
    an access to [driver] answers with: the cached one, or, when none is
    cached, a connection to the endpoint under the cursor that it opens
    for that purpose.  The cursor does not move. *)
Theorem del_closes_connection (s : BaseScreenshooter) :
  ((List.length (setup_driver_list s) <= current_driver_index s)%nat ->
   __del__ s = (s, Ok tt))
  /\ ((current_driver_index s < List.length (setup_driver_list s))%nat ->
      (forall d, current_driver s = Some d ->
         __del__ s = (add_effects [Quit d] s, Ok tt))
      /\ (current_driver s = None ->
          let d := driver_at (setup_driver_list s) (current_driver_index s) in
          snd (__del__ s) = Ok tt
          /\ effects (fst (__del__ s)) = effects s ++ [SetupDriver d; Quit d]
          /\ current_driver_index (fst (__del__ s)) = current_driver_index s)).
Proof.
  split.
  - intros Hi. unfold __del__, mbind. rewrite (driver_exhausted s Hi). reflexivity.
  - intros Hi. rewrite (del_open s Hi). split.
    + intros d Hd. unfold connect, connection. rewrite Hd.
      destruct s as [l i c evs]; cbn in *. subst c.
      unfold add_effects; cbn. now rewrite app_nil_r.
    + intros Hd d. unfold connect, connection. rewrite Hd. cbn.
      repeat split. now rewrite <- app_assoc.
Qed.

Lemma del_closes_connection_witness :
  let d := {| proxy := None; endpoint := 0 |} in
  __del__ (init (ProxyList [])) = (init (ProxyList []), Ok tt)
  /\ effects (fst (__del__ (init NoProxy))) = [SetupDriver d; Quit d]
  /\ effects (fst (__del__ (fst (driver (init NoProxy))))) = [SetupDriver d; Quit d].
Proof.
  intros d. split; [|split].
  - apply (proj1 (del_closes_connection (init (ProxyList [])))). cbn. lia.
  - apply (proj2 (proj2 (del_closes_connection (init NoProxy)) (Nat.lt_0_succ 0)) eq_refl).
  - rewrite (proj1 (proj2 (del_closes_connection (fst (driver (init NoProxy))))
                      (Nat.lt_0_succ 0)) d eq_refl).
    reflexivity.
Defined.

(** X8: on a session whose endpoints are exhausted, [perform_actions]
    with an empty list does nothing and returns, and with a list that is
    not empty raises [NoDriverRemainingError] when it comes to run the
    script of the first action: that action has been announced in the
    log, no script has been run and no later action is announced. *)
Theorem perform_actions_exhausted
  (script_fails : WebDriver -> string -> bool) (pause : seconds) (s : BaseScreenshooter) :
  (List.length (setup_driver_list s) <= current_driver_index s)%nat ->
  perform_actions script_fails [] pause s = (s, Ok tt)
  /\ forall a rest,
       perform_actions script_fails (a :: rest) pause s
       = (add_effects [LogPerforming a (to_javascript a)] s,
          Raise NoDriverRemainingError).
Proof.
  intros Hi. split; [reflexivity|]. intros a rest.
  cbn [perform_actions]. unfold mbind at 1. rewrite emit_eq.
  unfold mbind at 1. unfold safe_execute. unfold mbind at 1.
  rewrite driver_exhausted by exact Hi. reflexivity.
Qed.

Lemma perform_actions_exhausted_witness :
  perform_actions (fun _ _ => false) [ScrollToTop; ScrollToTop] 0%Z (init (ProxyList []))
  = ({| setup_driver_list := []; current_driver_index := 0; current_driver := None;
        effects := [LogPerforming ScrollToTop "window.scrollTo(0, 0);"] |},
     Raise NoDriverRemainingError).
Proof.
  apply (proj2 (@perform_actions_exhausted (fun _ _ => false) 0%Z (init (ProxyList []))
                  (Nat.le_0_l 0)) ScrollToTop [ScrollToTop]).
Defined.

Section Order.
Variable hostname : string -> result (option string).
Variable current_url : WebDriver -> string.
Variable selector_located : WebDriver -> string -> bool.
Variable url : string.
Variables wait_after_load wait_before_load : seconds.
Variable wait_for_sel : option string.
Variable wait_for_selector_timeout : seconds.

Abbreviation outcome d :=
  (attempt hostname current_url selector_located url wait_for_sel d).
Abbreviation loop fuel s :=
  (load_loop hostname current_url selector_located fuel url wait_after_load
     wait_before_load wait_for_sel wait_for_selector_timeout s).
Abbreviation asked ds := (map (fun d : WebDriver => (d, url)) ds).

Lemma candidates_exhausted (s : BaseScreenshooter) :
  (List.length (setup_driver_list s) <= current_driver_index s)%nat ->
  candidates s = [].
Proof.
  intros Hi. unfold candidates.
  destruct (Nat.leb_spec (List.length (setup_driver_list s)) (current_driver_index s));
    [reflexivity | lia].
Qed.

Lemma candidates_open (s : BaseScreenshooter) :
  (current_driver_index s < List.length (setup_driver_list s))%nat ->
  candidates s
  = connection s
      :: candidates {| setup_driver_list := setup_driver_list s;
                       current_driver_index := current_driver_index s + 1;
                       current_driver := None;
                       effects := [] |}.
Proof.
  intros Hi. unfold candidates at 1.
  destruct (Nat.leb_spec (List.length (setup_driver_list s)) (current_driver_index s));
    [lia|]. f_equal.
  unfold candidates. cbn [setup_driver_list current_driver_index].
  replace (current_driver_index s + 1)%nat with (S (current_driver_index s)) by lia.
  destruct (Nat.leb_spec (List.length (setup_driver_list s)) (S (current_driver_index s)))
    as [Hle|Hlt].
  - replace (List.length (setup_driver_list s) - S (current_driver_index s))%nat
      with 0%nat by lia. reflexivity.
  - replace (List.length (setup_driver_list s) - S (current_driver_index s))%nat
      with (S (List.length (setup_driver_list s) - S (S (current_driver_index s))))
      by lia.
    reflexivity.
Qed.

Lemma candidates_effects (l : list (option string)) (i : nat) (c : option WebDriver)
  (evs evs' : list Effect) :
  candidates {| setup_driver_list := l; current_driver_index := i;
                current_driver := c; effects := evs |}
  = candidates {| setup_driver_list := l; current_driver_index := i;
                  current_driver := c; effects := evs' |}.
Proof. reflexivity. Qed.

Lemma requests_load (d : WebDriver) :
  requests (load_effects url wait_after_load wait_for_sel wait_for_selector_timeout d)
  = [(d, url)].
Proof. unfold load_effects. destruct wait_for_sel; reflexivity. Qed.

Lemma requests_connect (s : BaseScreenshooter) :
  requests (effects (connect s)) = requests (effects s).
Proof.
  unfold connect. cbn [effects]. rewrite requests_app.
  destruct (current_driver s); cbn; now rewrite app_nil_r.
Qed.

Lemma load_loop_in_order (fuel : nat) :
  (0 <= wait_before_load)%Z -> (0 <= wait_after_load)%Z ->
  has_host hostname url ->
  forall s : BaseScreenshooter,
    (forall d, In d (candidates s) -> has_host hostname (current_url d)) ->
    (List.length (setup_driver_list s) - current_driver_index s < fuel)%nat ->
    exists s' b k, loop fuel s = Some (s', Ok b) /\ in_order (fun d => outcome d) url s s' b k.
Proof.
  intros Hwb Hwa Hhu.
  induction fuel as [|fuel IH]; intros s Hhc Hf; [lia|].
  cbn [load_loop].
  destruct (Nat.le_gt_cases (List.length (setup_driver_list s)) (current_driver_index s))
    as [Hex|Hopen].
  - rewrite (@load_page_and_check_exhausted hostname current_url selector_located url
               wait_after_load wait_before_load wait_for_sel wait_for_selector_timeout
               s Hwb Hex).
    exists (add_effects [Sleep wait_before_load] s), false, 0%nat.
    split; [reflexivity|]. unfold in_order. rewrite (candidates_exhausted s Hex).
    cbn [add_effects effects]. rewrite requests_app. cbn.
    repeat split; try discriminate. constructor.
  - rewrite (@load_page_and_check_open hostname current_url selector_located url
               wait_after_load wait_before_load wait_for_sel wait_for_selector_timeout
               s Hwb Hwa Hopen).
    set (d := connection s).
    set (s0 := add_effects [Sleep wait_before_load] s).
    set (levs := load_effects url wait_after_load wait_for_sel
                   wait_for_selector_timeout d).
    set (s1 := add_effects levs (connect s0)).
    assert (Hreq1 : requests (effects s1) = requests (effects s) ++ [(d, url)]).
    { unfold s1. cbn [add_effects effects]. rewrite requests_app, requests_connect.
      unfold s0. cbn [add_effects effects]. rewrite requests_app. cbn [requests].
      rewrite app_nil_r. unfold levs. now rewrite requests_load. }
    pose proof (candidates_open s Hopen) as Hcs. fold d in Hcs.
    destruct (outcome d) as [[]|e] eqn:Ho.
    + exists s1, true, 0%nat. split; [reflexivity|]. unfold in_order. rewrite Hcs.
      cbn [Nat.add firstn map nth_error]. repeat split.
      * exact Hreq1.
      * constructor.
      * intros _. exists d. repeat split. exact Ho.
      * discriminate.
    + assert (Hhd : has_host hostname (current_url d))
        by (apply Hhc; rewrite Hcs; left; reflexivity).
      pose proof (@outcome_retryable hostname current_url selector_located url
                    wait_for_sel d e Hhu Hhd Ho) as He.
      set (s2 := {| setup_driver_list := setup_driver_list s1;
                    current_driver_index := current_driver_index s1 + 1;
                    current_driver := None;
                    effects := (effects s1 ++ [Quit d]) ++ [LogError e] |}).
      assert (Hfuel : (List.length (setup_driver_list s2) - current_driver_index s2
                       < fuel)%nat).
      { cbn. cbn in Hopen. lia. }
      assert (Hhc2 : forall d', In d' (candidates s2) -> has_host hostname (current_url d')).
      { intros d' Hd'. apply Hhc. rewrite Hcs. right. exact Hd'. }
      destruct (IH s2 Hhc2 Hfuel) as (s' & b & k & Hrun & Hord).
      assert (Hstep : (if exn_eqb e RuntimeError || exn_eqb e TimeoutException
                       then
                         match (rotate_driver ;;; emit (LogError e)) s1 with
                         | (s3, Ok _) => loop fuel s3
                         | (s3, Raise e0) => Some (s3, Raise e0)
                         end
                       else Some (s1, Raise e))
                      = loop fuel s2).
      { destruct He as [-> | ->]; reflexivity. }
      assert (Hgoal : match e with
                      | NoDriverRemainingError => Some (s1, Ok false)
                      | _ =>
                          if exn_eqb e RuntimeError || exn_eqb e TimeoutException
                          then
                            match (rotate_driver ;;; emit (LogError e)) s1 with
                            | (s3, Ok _) => loop fuel s3
                            | (s3, Raise e0) => Some (s3, Raise e0)
                            end
                          else Some (s1, Raise e)
                      end = loop fuel s2).
      { destruct He as [-> | ->]; exact Hstep. }
      rewrite Hgoal.
      exists s', b, (S k). split; [exact Hrun|].
      assert (Hcand : candidates s2
                      = candidates {| setup_driver_list := setup_driver_list s;
                                      current_driver_index := current_driver_index s + 1;
                                      current_driver := None;
                                      effects := [] |}) by reflexivity.
      unfold in_order in *. rewrite Hcs. rewrite Hcand in *.
      set (rest := candidates _) in *.
      destruct Hord as (Hreq & Hall & Ht & Hfa).
      cbn [Nat.add firstn map nth_error List.length].
      repeat split.
      * rewrite Hreq. unfold s2. cbn [effects]. rewrite !requests_app, Hreq1.
        cbn [requests]. rewrite !app_nil_r, <- app_assoc. reflexivity.
      * constructor; [rewrite Ho; discriminate | exact Hall].
      * exact Ht.
      * intros Hb. now rewrite (Hfa Hb).
Qed.

End Order.





End SessionFacts.

(** ** The traversal: what every record says *)

Module RecordFacts.
Import PyDict PyDictFacts Draw Traversal DomView Records TraversalFacts.
#[local] Open Scope list_scope.
#[local] Unset Implicit Arguments.

Lemma get_element_hash_ok (str_hash : string -> Z) (e : WebElement) (k : Z) :
  get_element_hash str_hash e = Ok k -> stale e = false /\ k = hash_of str_hash e.
Proof.
  unfold get_element_hash, get_attribute, remote, hash_of.
  destruct (stale e); cbn; [discriminate|]. intros H. inversion H. auto.
Qed.

Lemma remote_ok (A : Type) (e : WebElement) (a b : A) :
  remote e a = Ok b -> stale e = false /\ b = a.
Proof. unfold remote. destruct (stale e); intros H; inversion H; auto. Qed.

Lemma get_bounding_rect_ok (e : WebElement) (absolute : bool) (rect : Rect) :
  get_bounding_rect e absolute = Ok rect ->
  rect = if absolute then location_size e else client_rect e.
Proof.
  unfold get_bounding_rect. destruct absolute; intros H;
    apply remote_ok in H as [_ H]; exact H.
Qed.

Lemma Forall_update (V : Type) (P : Z * V -> Prop) (k : Z) (f : V -> V) (d : t V) :
  (forall v, P (k, v) -> P (k, f v)) ->
  Forall P d -> Forall P (update k f d).
Proof.
  intros Hf Hd. apply Forall_forall. intros [k' v'] Hin.
  rewrite Forall_forall in Hd.
  destruct (in_update _ _ _ _ _ _ Hin) as [H|(-> & v & Hv & ->)].
  - exact (Hd _ H).
  - apply Hf. exact (Hd _ Hv).
Qed.

Lemma child_nodes_incl (e c : WebElement) :
  In c (child_nodes e) -> incl (nodes c) (nodes e).
Proof.
  intros Hc m Hm. rewrite nodes_unfold. right.
  apply in_flat_map. exists c. split; assumption.
Qed.

Lemma nodes_self (e : WebElement) : In e (nodes e).
Proof. rewrite nodes_unfold. left. reflexivity. Qed.

Section All.
Variable str_hash : string -> Z.
Variable full_page_screenshot : bool.
Variable pixel_ratio : Z -> Z.
Variable capture_invisible_elements : bool.

Abbreviation traverse :=
  (traverse_dom str_hash full_page_screenshot pixel_ratio capture_invisible_elements).
Abbreviation hash := (hash_of str_hash).

(** The elements that are looked at, and what is to hold of every entry
    of the dictionary: it holds of a new record, and is kept when a
    record is given for parent an element of which its own is a child. *)
Variable page : list WebElement.
Variable P : Z * ElementItem -> Prop.

Hypothesis P_insert :
  forall n index siblings parent_selector item,
    In n page -> stale n = false ->
    displayed n || capture_invisible_elements = true ->
    from_web_element n
      (if full_page_screenshot then location_size n else client_rect n)
      (displayed n) pixel_ratio index siblings parent_selector (hash n) None = Ok item ->
    P (hash n, item).

Hypothesis P_adopt :
  forall n c it,
    In n page -> In c (child_nodes n) ->
    P (hash c, it) -> P (hash c, set_parent_id (hash n) it).

Lemma for_children_all
  (trav : WebElement -> nat -> IdToElement -> IdToElement * result (option Z))
  (n : WebElement) (rest : list WebElement) :
  In n page -> incl rest (child_nodes n) ->
  Forall (fun child => forall i d d' r,
              trav child i d = (d', r) -> Forall P d ->
              Forall P d' /\ (forall k, r = Ok (Some k) -> k = hash child)) rest ->
  forall i d d' r,
    for_children trav (hash n) rest i d = (d', r) -> Forall P d -> Forall P d'.
Proof.
  intros Hn Hincl Hall. induction Hall as [|child rest Hc _ IH];
    intros i d d' r Hrun Hd.
  - cbn in Hrun. inversion Hrun; subst. exact Hd.
  - cbn [for_children] in Hrun.
    assert (Hchild : In child (child_nodes n)) by (apply Hincl; left; reflexivity).
    assert (Hrest : incl rest (child_nodes n)).
    { intros x Hx. apply Hincl. right. exact Hx. }
    destruct (trav child i d) as [d1 r1] eqn:Ht.
    destruct (Hc i d d1 r1 Ht Hd) as (Hd1 & Hk).
    destruct r1 as [[child_item|]|ex].
    + rewrite (Hk child_item eq_refl) in Hrun.
      apply (IH Hrest (S i) _ d' r Hrun).
      apply Forall_update; [|exact Hd1].
      intros v Hv. exact (P_adopt n child v Hn Hchild Hv).
    + exact (IH Hrest (S i) _ d' r Hrun Hd1).
    + destruct ex; try (inversion Hrun; subst; exact Hd1).
      exact (IH Hrest (S i) _ d' r Hrun Hd1).
Qed.

Lemma traverse_dom_all (element : WebElement) :
  incl (nodes element) page ->
  forall parent_selector siblings index d d' r,
    traverse element parent_selector siblings index d = (d', r) ->
    Forall P d ->
    Forall P d' /\ (forall k, r = Ok (Some k) -> k = hash element).
Proof.
  induction element as [st h t i c v p r1 r2 kids IH] using WebElement_forall_ind.
  intros Hpage parent_selector siblings index d d' r Hrun Hd.
  rewrite traverse_dom_unfold in Hrun.
  set (e := mkWebElement st h t i c v p r1 r2 kids) in *.
  destruct (get_element_hash str_hash e) as [element_id|ex] eqn:Hh.
  2:{ inversion Hrun; subst. split; [exact Hd | discriminate]. }
  destruct (get_element_hash_ok _ _ _ Hh) as [Hs ->].
  destruct (mem (hash e) d) eqn:Hm.
  { inversion Hrun; subst. split; [exact Hd|]. intros k Hk. now inversion Hk. }
  unfold is_displayed, remote in Hrun. rewrite Hs in Hrun.
  destruct (negb (displayed e || capture_invisible_elements)) eqn:Hgate.
  { inversion Hrun; subst. split; [exact Hd | discriminate]. }
  apply negb_false_iff in Hgate.
  destruct (get_bounding_rect e full_page_screenshot) as [rect|ex] eqn:Hr.
  2:{ inversion Hrun; subst. split; [exact Hd | discriminate]. }
  pose proof (get_bounding_rect_ok _ _ _ Hr) as Hrect.
  destruct (from_web_element e rect (displayed e) pixel_ratio index siblings
              parent_selector (hash e) None) as [item|ex] eqn:Hitem.
  2:{ inversion Hrun; subst. split; [exact Hd | discriminate]. }
  assert (Hd1 : Forall P (set (hash e) item d)).
  { rewrite (set_fresh _ _ _ _ Hm). apply Forall_app. split; [exact Hd|].
    constructor; [|constructor].
    apply (P_insert e index siblings parent_selector item);
      [apply Hpage, nodes_self | exact Hs | exact Hgate |].
    rewrite <- Hrect. exact Hitem. }
  destruct (find_children e) as [kids'|ex].
  2:{ inversion Hrun; subst. split; [exact Hd1 | discriminate]. }
  destruct (for_children _ (hash e) (child_nodes e) 0%nat (set (hash e) item d))
    as [d2 r2'] eqn:Hloop.
  assert (Hkids : Forall
            (fun child => forall i0 d0 d0' r0,
                 traverse child (css_selector item) (Some (child_nodes e)) (Some i0) d0
                 = (d0', r0) ->
                 Forall P d0 ->
                 Forall P d0' /\ (forall k, r0 = Ok (Some k) -> k = hash child))
            (child_nodes e)).
  { rewrite Forall_forall in IH. apply Forall_forall. intros child Hin i0 d0 d0' r0.
    apply (IH child Hin).
    exact (incl_tran (child_nodes_incl e child Hin) Hpage). }
  assert (Hd2 : Forall P d2).
  { exact (for_children_all _ e (child_nodes e) (Hpage _ (nodes_self e)) (incl_refl _)
             Hkids 0%nat _ _ _ Hloop Hd1). }
  destruct r2' as [u|ex]; inversion Hrun; subst.
  - split; [exact Hd2|]. intros k Hk. now inversion Hk.
  - split; [exact Hd2 | discriminate].
Qed.

Lemma get_elements_all (root : WebElement) :
  incl (nodes root) page ->
  exists d,
    get_elements str_hash full_page_screenshot pixel_ratio
      capture_invisible_elements (Some root) = Ok (values d)
    /\ Forall P d.
Proof.
  intros Hpage. cbn [get_elements].
  pose proof (traverse_dom_stale_only str_hash full_page_screenshot pixel_ratio
                capture_invisible_elements root "" None None
                ltac:(intros H; exfalso; apply H; reflexivity) (empty ElementItem)) as Hs.
  destruct (traverse root "" None None (empty ElementItem)) as [d r] eqn:Hrun.
  destruct (traverse_dom_all root Hpage _ _ _ _ _ _ Hrun (Forall_nil _)) as [Hd _].
  cbn [snd] in Hs. destruct r as [k|ex].
  - exists d. split; [reflexivity | exact Hd].
  - rewrite (Hs ex eq_refl). exists []. split; [reflexivity | constructor].
Qed.

End All.

Lemma from_web_element_describes
  (str_hash : string -> Z) (full_page_screenshot : bool) (pixel_ratio : Z -> Z)
  (n : WebElement) (index : option nat) (siblings : option (list WebElement))
  (parent_selector : string) (parent : option Z) (item : ElementItem) :
  stale n = false ->
  from_web_element n
    (if full_page_screenshot then location_size n else client_rect n)
    (displayed n) pixel_ratio index siblings parent_selector (hash_of str_hash n) parent
  = Ok item ->
  describes str_hash full_page_screenshot pixel_ratio n item /\ parent_id item = parent.
Proof.
  intros Hs. unfold from_web_element, Selenium.tag_name, value_of_css_property, remote.
  rewrite Hs. cbn [bind String.eqb Ascii.eqb Bool.eqb andb].
  destruct (get_css_selector n index siblings parent_selector); cbn [bind];
    [|discriminate].
  intros H. inversion H. unfold describes, scaled. cbn. repeat split. exact Hs.
Qed.

Lemma describes_set_parent_id
  (str_hash : string -> Z) (full_page_screenshot : bool) (pixel_ratio : Z -> Z)
  (n : WebElement) (p : Z) (it : ElementItem) :
  describes str_hash full_page_screenshot pixel_ratio n it ->
  describes str_hash full_page_screenshot pixel_ratio n (set_parent_id p it).
Proof. intros H. exact H. Qed.

(** X11: every record that [get_elements] lists is the record of an
    element of the page that passes the visibility test and whose handle
    is not stale: its identity is the hash of the markup of that
    element, its tag and its label are the tag of the element, its
    position and its visibility are those of the element, and its box is
    made of the scaled corners of the rectangle of the element, in the
    document for a full-page capture and in the viewport otherwise.
    This holds whether or not two elements share an identity. *)
Theorem records_describe_elements
  (str_hash : string -> Z) (full_page_screenshot : bool) (pixel_ratio : Z -> Z)
  (capture_invisible_elements : bool) (root : WebElement) :
  exists items,
    get_elements str_hash full_page_screenshot pixel_ratio
      capture_invisible_elements (Some root) = Ok items
    /\ forall it, In it items ->
         exists n, In n (nodes root)
                   /\ describes str_hash full_page_screenshot pixel_ratio n it
                   /\ displayed n || capture_invisible_elements = true.
Proof.
  destruct (get_elements_all str_hash full_page_screenshot pixel_ratio
              capture_invisible_elements (nodes root)
              (fun entry =>
                 exists n, In n (nodes root)
                           /\ describes str_hash full_page_screenshot pixel_ratio n
                                (snd entry)
                           /\ displayed n || capture_invisible_elements = true))
    with (root := root) as (d & Hrun & Hd).
  - intros n index siblings parent_selector item Hn Hs Hg Hitem.
    exists n. split; [exact Hn|]. split; [|exact Hg].
    exact (proj1 (from_web_element_describes _ _ _ _ _ _ _ _ _ Hs Hitem)).
  - intros n c it _ _ (m & Hm & Hdesc & Hg). exists m. split; [exact Hm|].
    split; [exact (describes_set_parent_id _ _ _ _ _ _ Hdesc) | exact Hg].
  - apply incl_refl.
  - exists (values d). split; [exact Hrun|]. intros it Hin.
    destruct (in_values _ _ Hin) as (k & Hentry).
    rewrite Forall_forall in Hd. exact (Hd _ Hentry).
Qed.

(** X12: every parent link that [get_elements] lists follows an edge of
    the page: a record whose parent identity is [p] has the identity of
    an element that is a child of an element of identity [p].  This
    holds whether or not two elements share an identity. *)
Theorem parent_links_follow_the_page
  (str_hash : string -> Z) (full_page_screenshot : bool) (pixel_ratio : Z -> Z)
  (capture_invisible_elements : bool) (root : WebElement) :
  exists items,
    get_elements str_hash full_page_screenshot pixel_ratio
      capture_invisible_elements (Some root) = Ok items
    /\ forall it p, In it items -> parent_id it = Some p ->
         exists n c, In n (nodes root) /\ In c (child_nodes n)
                     /\ id it = hash_of str_hash c /\ p = hash_of str_hash n.
Proof.
  destruct (get_elements_all str_hash full_page_screenshot pixel_ratio
              capture_invisible_elements (nodes root)
              (fun entry =>
                 id (snd entry) = fst entry
                 /\ forall p, parent_id (snd entry) = Some p ->
                      child_of str_hash root (snd entry) p))
    with (root := root) as (d & Hrun & Hd).
  - intros n index siblings parent_selector item Hn Hs Hg Hitem.
    destruct (from_web_element_fields _ _ _ _ _ _ _ _ _ _ Hitem) as (Hid & Hpar & _).
    cbn [fst snd]. split; [exact Hid|]. intros p Hp. congruence.
  - intros n c it Hn Hc [Hid _]. cbn [fst snd] in *. split; [exact Hid|].
    intros p Hp. cbn in Hp. injection Hp as <-.
    exists n, c. repeat split; assumption.
  - apply incl_refl.
  - exists (values d). split; [exact Hrun|]. intros it p Hin Hp.
    destruct (in_values _ _ Hin) as (k & Hentry).
    rewrite Forall_forall in Hd. exact (proj2 (Hd _ Hentry) p Hp).
Qed.

(** *** The dictionary only grows *)

Lemma orphans_app (d1 d2 : IdToElement) :
  orphans (d1 ++ d2) = orphans d1 ++ orphans d2.
Proof. apply map_app. Qed.

Lemma orphans_update (k p : Z) (d : IdToElement) :
  orphans (update k (set_parent_id p) d) = orphans d.
Proof.
  unfold orphans. induction d as [|[k' v'] d IH]; [reflexivity|].
  cbn [update]. destruct (Z.eqb k k'); cbn [map fst snd]; [reflexivity|].
  now rewrite IH.
Qed.

Section Appends.
Variable str_hash : string -> Z.
Variable full_page_screenshot : bool.
Variable pixel_ratio : Z -> Z.
Variable capture_invisible_elements : bool.

Abbreviation traverse :=
  (traverse_dom str_hash full_page_screenshot pixel_ratio capture_invisible_elements).
Abbreviation hash := (hash_of str_hash).
Abbreviation item := (item_of str_hash full_page_screenshot pixel_ratio).

Lemma for_children_appends
  (trav : WebElement -> nat -> IdToElement -> IdToElement * result (option Z))
  (p : Z) (rest : list WebElement) :
  Forall (fun child => forall i d d' r,
              trav child i d = (d', r) -> exists ext, orphans d' = orphans d ++ ext) rest ->
  forall i d d' r,
    for_children trav p rest i d = (d', r) -> exists ext, orphans d' = orphans d ++ ext.
Proof.
  induction 1 as [|child rest Hc _ IH]; intros i d d' r Hrun.
  - cbn in Hrun. inversion Hrun; subst. exists []. now rewrite app_nil_r.
  - cbn [for_children] in Hrun.
    destruct (trav child i d) as [d1 r1] eqn:Ht.
    destruct (Hc i d d1 r1 Ht) as (ext1 & H1).
    assert (Hnext : forall d2,
               orphans d2 = orphans d1 ->
               for_children trav p rest (S i) d2 = (d', r) ->
               exists ext, orphans d' = orphans d ++ ext).
    { intros d2 H2 Hrun2. destruct (IH (S i) d2 d' r Hrun2) as (ext2 & H3).
      exists (ext1 ++ ext2). rewrite H3, H2, H1. now rewrite app_assoc. }
    destruct r1 as [[child_item|]|ex].
    + exact (Hnext _ (orphans_update _ _ _) Hrun).
    + exact (Hnext _ eq_refl Hrun).
    + destruct ex; try (inversion Hrun; subst; exists ext1; exact H1).
      exact (Hnext _ eq_refl Hrun).
Qed.

Lemma traverse_dom_appends (element : WebElement) :
  forall parent_selector siblings index d d' r,
    traverse element parent_selector siblings index d = (d', r) ->
    exists ext, orphans d' = orphans d ++ ext.
Proof.
  induction element as [st h t i c v p r1 r2 kids IH] using WebElement_forall_ind.
  intros parent_selector siblings index d d' r Hrun.
  rewrite traverse_dom_unfold in Hrun.
  set (e := mkWebElement st h t i c v p r1 r2 kids) in *.
  assert (Hsame : exists ext, orphans d = orphans d ++ ext)
    by (exists []; now rewrite app_nil_r).
  destruct (get_element_hash str_hash e) as [element_id|ex];
    [|inversion Hrun; subst; exact Hsame].
  destruct (mem element_id d) eqn:Hm; [inversion Hrun; subst; exact Hsame|].
  destruct (is_displayed e) as [vis|ex]; [|inversion Hrun; subst; exact Hsame].
  destruct (negb (vis || capture_invisible_elements));
    [inversion Hrun; subst; exact Hsame|].
  destruct (get_bounding_rect e full_page_screenshot) as [rect|ex];
    [|inversion Hrun; subst; exact Hsame].
  destruct (from_web_element e rect vis pixel_ratio index siblings parent_selector
              element_id None) as [it|ex];
    [|inversion Hrun; subst; exact Hsame].
  assert (H1 : orphans (set element_id it d) = orphans d ++ [(element_id, orphan it)]).
  { rewrite (set_fresh _ _ _ _ Hm). apply orphans_app. }
  destruct (find_children e) as [kids'|ex].
  2:{ inversion Hrun; subst. eexists. exact H1. }
  destruct (for_children _ element_id (child_nodes e) 0%nat (set element_id it d))
    as [d2 r2'] eqn:Hloop.
  assert (H2 : exists ext, orphans d2 = orphans (set element_id it d) ++ ext).
  { eapply for_children_appends; [|exact Hloop].
    cbn [child_nodes e]. eapply Forall_impl; [|exact IH].
    intros child Hchild i0 d0 d0' r0. apply Hchild. }
  destruct H2 as (ext & H2). rewrite H1, <- app_assoc in H2.
  destruct r2' as [u|ex]; inversion Hrun; subst; eexists; exact H2.
Qed.

(** The traversal of an element that gets a record, and whose identity
    is new, returns that identity and appends the record of the element
    before anything else. *)
Lemma traverse_dom_first (e : WebElement) (parent_selector : string)
  (siblings : option (list WebElement)) (index : option nat) (d : IdToElement) :
  stale e = false ->
  displayed e || capture_invisible_elements = true ->
  stale_before siblings index = false ->
  siblings_given index siblings ->
  mem (hash e) d = false ->
  exists d' ext,
    traverse e parent_selector siblings index d = (d', Ok (Some (hash e)))
    /\ orphans d' = orphans d ++ (hash e, item e index siblings parent_selector) :: ext.
Proof.
  intros Hs Hg Hsb Hsib Hm.
  rewrite traverse_dom_unfold.
  unfold get_element_hash, get_attribute, remote. rewrite Hs.
  cbn [bind String.eqb Ascii.eqb Bool.eqb andb]. fold (hash e). rewrite Hm.
  unfold is_displayed, remote. rewrite Hs, Hg. cbn [negb].
  unfold get_bounding_rect, remote. rewrite Hs.
  assert (Hrect : (if full_page_screenshot
                   then Ok (location_size e) else Ok (client_rect e))
                  = Ok (if full_page_screenshot then location_size e else client_rect e))
    by (destruct full_page_screenshot; reflexivity).
  rewrite Hrect, (from_web_element_cases _ _ _ _ _ _ _ Hs Hsib), Hsb.
  unfold find_children, remote. rewrite Hs.
  set (it := item e index siblings parent_selector).
  destruct (for_children _ (hash e) (child_nodes e) 0%nat (set (hash e) it d))
    as [d2 r2'] eqn:Hloop.
  assert (Hret : r2' = Ok tt).
  { pose proof (for_children_returns
                  (fun child child_index =>
                     traverse child (css_selector it) (Some (child_nodes e))
                       (Some child_index))
                  (hash e) (child_nodes e)) as Hr.
    specialize (Hr ltac:(apply Forall_forall; intros child _ i0;
                         apply traverse_dom_stale_only; discriminate)
                     0%nat (set (hash e) it d)).
    rewrite Hloop in Hr. exact Hr. }
  subst r2'. exists d2.
  destruct (for_children_appends _ _ _
              ltac:(apply Forall_forall; intros child _ i0 d0 d0' r0;
                    apply traverse_dom_appends) _ _ _ _ Hloop) as (ext & H2).
  exists ext. split; [reflexivity|].
  rewrite H2, (set_fresh _ _ _ _ Hm), orphans_app, <- app_assoc. reflexivity.
Qed.

End Appends.

Lemma orphans_head (d : IdToElement) (k : Z) (it : ElementItem) (ext : IdToElement) :
  orphans d = (k, it) :: ext ->
  exists it' rest, d = (k, it') :: rest /\ orphan it' = it.
Proof.
  destruct d as [|[k' it'] rest]; [discriminate|].
  cbn. intros H. injection H as -> <- _. eauto.
Qed.

Lemma get_elements_first
  (str_hash : string -> Z) (full_page_screenshot : bool) (pixel_ratio : Z -> Z)
  (capture_invisible_elements : bool) (root : WebElement) :
  stale root = false ->
  displayed root || capture_invisible_elements = true ->
  exists it rest,
    get_elements str_hash full_page_screenshot pixel_ratio
      capture_invisible_elements (Some root) = Ok (it :: rest)
    /\ orphan it = item_of str_hash full_page_screenshot pixel_ratio root None None "".
Proof.
  intros Hs Hg.
  destruct (traverse_dom_first str_hash full_page_screenshot pixel_ratio
              capture_invisible_elements root "" None None (empty ElementItem)
              Hs Hg eq_refl ltac:(intros H; exfalso; apply H; reflexivity) eq_refl)
    as (d' & ext & Hrun & Horph).
  cbn [orphans empty map app] in Horph.
  destruct (orphans_head _ _ _ _ Horph) as (it & rest & -> & Hit).
  exists it, (values rest). cbn [get_elements]. rewrite Hrun.
  split; [reflexivity | exact Hit].
Qed.

(** X13: when the handle of the root is not stale and the root passes
    the visibility test, the first record that [get_elements] lists is
    that of the root, with the selector of a root: its tag, id and
    classes, and no parent part. *)
Theorem root_record_comes_first
  (str_hash : string -> Z) (full_page_screenshot : bool) (pixel_ratio : Z -> Z)
  (capture_invisible_elements : bool) (root : WebElement) :
  stale root = false ->
  displayed root || capture_invisible_elements = true ->
  exists it rest,
    get_elements str_hash full_page_screenshot pixel_ratio
      capture_invisible_elements (Some root) = Ok (it :: rest)
    /\ describes str_hash full_page_screenshot pixel_ratio root it
    /\ css_selector it = strip (combined_selector root).
Proof.
  intros Hs Hg.
  destruct (get_elements_first str_hash full_page_screenshot pixel_ratio
              capture_invisible_elements root Hs Hg) as (it & rest & Hrun & Hit).
  exists it, rest. split; [exact Hrun|].
  assert (Hf : forall A (f : ElementItem -> A),
             (forall x, f (orphan x) = f x) ->
             f it = f (item_of str_hash full_page_screenshot pixel_ratio root None None "")).
  { intros A f Hfo. rewrite <- Hit. symmetry. apply Hfo. }
  unfold describes.
  rewrite (Hf _ id), (Hf _ tag_name), (Hf _ label), (Hf _ position), (Hf _ is_visible),
    (Hf _ bbox), (Hf _ css_selector) by reflexivity.
  cbn. repeat split. exact Hs.
Qed.

Lemma root_record_comes_first_witness :
  exists it rest,
    get_elements Pages.by_length true (fun v => v) false (Some Pages.header_page)
    = Ok (it :: rest)
    /\ tag_name it = "div" /\ css_selector it = "div#header".
Proof.
  destruct (root_record_comes_first Pages.by_length true (fun v => v) false
              Pages.header_page eq_refl eq_refl)
    as (it & rest & Hrun & (_ & _ & Ht & _) & Hsel).
  exists it, rest. split; [exact Hrun|]. split; [exact Ht | exact Hsel].
Defined.

(** X14: [get_elements] answers with the empty list in three cases and
    no other: there is no root element, the handle of the root is stale,
    or the root is not displayed and invisible elements are not
    captured. *)
Theorem no_record_exactly_when
  (str_hash : string -> Z) (full_page_screenshot : bool) (pixel_ratio : Z -> Z)
  (capture_invisible_elements : bool) (root_element : option WebElement) :
  get_elements str_hash full_page_screenshot pixel_ratio
    capture_invisible_elements root_element = Ok []
  <-> match root_element with
      | None => True
      | Some root =>
          stale root = true
          \/ (displayed root = false /\ capture_invisible_elements = false)
      end.
Proof.
  destruct root_element as [root|]; [|split; reflexivity].
  destruct (stale root) eqn:Hs.
  { split; [auto|]. intros _. cbn [get_elements]. rewrite traverse_dom_unfold.
    unfold get_element_hash, get_attribute, remote. rewrite Hs. reflexivity. }
  destruct (displayed root || capture_invisible_elements) eqn:Hg.
  - destruct (get_elements_first str_hash full_page_screenshot pixel_ratio
                capture_invisible_elements root Hs Hg) as (it & rest & -> & _).
    split; [discriminate|].
    intros [H|[Hd Hc]]; [discriminate|]. rewrite Hd, Hc in Hg. discriminate.
  - split.
    + intros _. right. now apply orb_false_iff.
    + intros _. cbn [get_elements]. rewrite traverse_dom_unfold.
      unfold get_element_hash, get_attribute, remote. rewrite Hs.
      cbn [bind String.eqb Ascii.eqb Bool.eqb andb mem get empty].
      unfold is_displayed, remote. rewrite Hs, Hg. reflexivity.
Qed.

(** *** Pages with distinct identities: order, parents, stale siblings *)

Lemma nodes_incl (e : WebElement) :
  forall n, In n (nodes e) -> incl (nodes n) (nodes e).
Proof.
  induction e as [st h t i c v p r1 r2 kids IH] using WebElement_forall_ind.
  intros n Hn. set (e := mkWebElement st h t i c v p r1 r2 kids) in *.
  rewrite nodes_unfold in Hn. destruct Hn as [<-|Hn]; [apply incl_refl|].
  apply in_flat_map in Hn as (k & Hk & Hnk). cbn [child_nodes e] in *.
  rewrite Forall_forall in IH.
  exact (incl_tran (IH k Hk n Hnk) (child_nodes_incl e k Hk)).
Qed.

Lemma below_is_proper (e n c : WebElement) :
  In n (nodes e) -> In c (child_nodes n) ->
  incl (nodes c) (flat_map nodes (child_nodes e)).
Proof.
  intros Hn Hc m Hm. rewrite nodes_unfold in Hn. destruct Hn as [<-|Hn].
  - apply in_flat_map. exists c. split; assumption.
  - apply in_flat_map in Hn as (k & Hk & Hnk). apply in_flat_map. exists k.
    split; [exact Hk|]. apply (nodes_incl k n Hnk). exact (child_nodes_incl n c Hc m Hm).
Qed.

Lemma in_flat_map_nth (A B : Type) (f : A -> list B) (l : list A) (x : B) :
  In x (flat_map f l) -> exists i a, nth_error l i = Some a /\ In x (f a).
Proof.
  intros H. apply in_flat_map in H as (a & Ha & Hx).
  apply In_nth_error in Ha as (i & Hi). eauto.
Qed.

Lemma NoDup_flat_map_apart (A B : Type) (f : A -> list B) (l : list A) :
  NoDup (flat_map f l) ->
  forall i j a b x,
    nth_error l i = Some a -> nth_error l j = Some b -> i <> j ->
    In x (f a) -> In x (f b) -> False.
Proof.
  induction l as [|y l IH]; intros Hnd i j a b x Hi Hj Hij Ha Hb.
  - destruct i; discriminate.
  - cbn [flat_map] in Hnd. destruct (NoDup_app_parts _ _ _ Hnd) as (_ & Hl & Hdis).
    destruct i as [|i], j as [|j]; cbn [nth_error] in Hi, Hj.
    + congruence.
    + injection Hi as ->. apply (Hdis x Ha). apply in_flat_map.
      exists b. split; [exact (nth_error_In _ _ Hj) | exact Hb].
    + injection Hj as ->. apply (Hdis x Hb). apply in_flat_map.
      exists a. split; [exact (nth_error_In _ _ Hi) | exact Ha].
    + apply (IH Hl i j a b x Hi Hj); [congruence | assumption | assumption].
Qed.

Lemma NoDup_flat_map_each (A B : Type) (f : A -> list B) (l : list A) (a : A) :
  NoDup (flat_map f l) -> In a l -> NoDup (f a).
Proof.
  induction l as [|y l IH]; intros Hnd [].
  - subst y. cbn [flat_map] in Hnd. exact (proj1 (NoDup_app_parts _ _ _ Hnd)).
  - cbn [flat_map] in Hnd. apply IH; [|assumption].
    exact (proj1 (proj2 (NoDup_app_parts _ _ _ Hnd))).
Qed.

Lemma existsb_firstn_stale (l : list WebElement) (i j : nat) (sj : WebElement) :
  (j < i)%nat -> nth_error l j = Some sj -> stale sj = true ->
  existsb stale (firstn i l) = true.
Proof.
  revert i j. induction l as [|x l IH]; intros i j Hji Hj Hs.
  - destruct j; discriminate.
  - destruct i as [|i]; [lia|]. cbn [firstn existsb].
    destruct j as [|j]; cbn [nth_error] in Hj.
    + injection Hj as ->. now rewrite Hs.
    + rewrite (IH i j ltac:(lia) Hj Hs). apply orb_true_r.
Qed.

Section Distinct.
Variable str_hash : string -> Z.
Variable full_page_screenshot : bool.
Variable pixel_ratio : Z -> Z.
Variable capture_invisible_elements : bool.

Abbreviation listed :=
  (records str_hash full_page_screenshot pixel_ratio capture_invisible_elements).
Abbreviation item := (item_of str_hash full_page_screenshot pixel_ratio).
Abbreviation hash := (hash_of str_hash).
Abbreviation identities := (hashes str_hash).

Lemma identities_flat_map (l : list WebElement) :
  map hash (flat_map nodes l) = flat_map identities l.
Proof.
  induction l as [|c l IH]; [reflexivity|].
  cbn [flat_map]. rewrite map_app, IH. reflexivity.
Qed.

Lemma keys_children_all
  (list_child : WebElement -> nat -> IdToElement) (p : Z) (rest : list WebElement) :
  Forall (fun c => forall i, keys (list_child c i) = identities c) rest ->
  forall i, keys (children_records list_child p rest i) = flat_map identities rest.
Proof.
  induction 1 as [|c rest Hc _ IH]; intros i; [reflexivity|].
  cbn [children_records flat_map]. rewrite keys_app, keys_adopt, Hc, IH. reflexivity.
Qed.

Lemma all_recorded_children (e : WebElement) :
  all_recorded capture_invisible_elements e ->
  Forall (all_recorded capture_invisible_elements) (child_nodes e).
Proof.
  unfold all_recorded. rewrite nodes_unfold. intros H. apply Forall_inv_tail in H.
  apply Forall_flat_map in H. exact H.
Qed.

Lemma keys_records_all (e : WebElement) :
  forall parent_selector siblings index,
    stale_before siblings index = false ->
    all_recorded capture_invisible_elements e ->
    keys (listed e parent_selector siblings index) = identities e.
Proof.
  induction e as [st h t i c v p r1 r2 kids IH] using WebElement_forall_ind.
  intros parent_selector siblings index Hsb Hall.
  set (e := mkWebElement st h t i c v p r1 r2 kids) in *.
  rewrite records_unfold, hashes_unfold. unfold recorded, gate.
  pose proof Hall as Hhere. unfold all_recorded in Hhere. rewrite nodes_unfold in Hhere.
  destruct (Forall_inv Hhere) as [Hs Hg]. rewrite Hs, Hg, Hsb. cbn [negb andb].
  cbn [keys map fst]. f_equal. apply keys_children_all.
  pose proof (all_recorded_children e Hall) as Hk.
  assert (Hsk : Forall (fun sib => stale sib = false) (child_nodes e)).
  { eapply Forall_impl; [|exact Hk]. intros a Ha. unfold all_recorded in Ha.
    rewrite nodes_unfold in Ha. exact (proj1 (Forall_inv Ha)). }
  cbn [child_nodes e] in *. rewrite Forall_forall in IH, Hk.
  apply Forall_forall. intros child Hin i0.
  apply (IH child Hin); [|apply Hk, Hin].
  cbn [stale_before before]. apply existsb_stale_fresh, Hsk.
Qed.

Lemma keyed_records (e : WebElement) (parent_selector : string)
  (siblings : option (list WebElement)) (index : option nat) :
  keyed (listed e parent_selector siblings index).
Proof.
  intros k it Hin.
  destruct (listed_entries _ _ _ _ _ _ _ _ _ Hin) as (m & _ & _ & Hid & _).
  exact Hid.
Qed.

(** The entries of the records of [e] other than the first: each is
    the record of a child of an element of [e], with that element for
    parent. *)
Lemma children_parents
  (list_child : WebElement -> nat -> IdToElement) (e : WebElement)
  (rest : list WebElement) :
  incl rest (child_nodes e) ->
  Forall (fun c => forall i,
              match list_child c i with
              | [] => True
              | (k, it) :: tl =>
                  id it = hash c
                  /\ Forall (fun entry =>
                               exists n c', In n (nodes c) /\ In c' (child_nodes n)
                                            /\ id (snd entry) = hash c'
                                            /\ parent_id (snd entry) = Some (hash n)) tl
              end) rest ->
  forall i,
    Forall (fun entry =>
              exists n c', In n (nodes e) /\ In c' (child_nodes n)
                           /\ id (snd entry) = hash c'
                           /\ parent_id (snd entry) = Some (hash n))
      (children_records list_child (hash e) rest i).
Proof.
  intros Hincl Hall. induction Hall as [|c rest Hc _ IH]; intros i; [constructor|].
  assert (Hin : In c (child_nodes e)) by (apply Hincl; left; reflexivity).
  cbn [children_records]. apply Forall_app. split.
  - specialize (Hc i). destruct (list_child c i) as [|[k it] tl]; [constructor|].
    destruct Hc as [Hid Htl]. cbn [adopt]. constructor.
    + exists e, c. cbn [snd]. repeat split; [apply nodes_self | exact Hin | exact Hid].
    + eapply Forall_impl; [|exact Htl]. intros entry (n & c' & Hn & Hc' & Hrest).
      exists n, c'. split; [exact (child_nodes_incl e c Hin n Hn)|].
      split; [exact Hc' | exact Hrest].
  - apply IH. intros x Hx. apply Hincl. right. exact Hx.
Qed.

Lemma records_parents (e : WebElement) :
  forall parent_selector siblings index,
    match listed e parent_selector siblings index with
    | [] => True
    | (k, it) :: tl =>
        id it = hash e /\ parent_id it = None
        /\ Forall (fun entry =>
                     exists n c', In n (nodes e) /\ In c' (child_nodes n)
                                  /\ id (snd entry) = hash c'
                                  /\ parent_id (snd entry) = Some (hash n)) tl
    end.
Proof.
  induction e as [st h t i c v p r1 r2 kids IH] using WebElement_forall_ind.
  intros parent_selector siblings index.
  set (e := mkWebElement st h t i c v p r1 r2 kids) in *.
  rewrite records_unfold. destruct (recorded _ e index siblings); [|exact I].
  split; [reflexivity|]. split; [reflexivity|].
  apply children_parents; [apply incl_refl|].
  cbn [child_nodes e]. eapply Forall_impl; [|exact IH].
  intros child Hchild i0.
  specialize (Hchild (css_selector (item e index siblings parent_selector))
                (Some kids) (Some i0)).
  destruct (listed child _ _ _) as [|[k it] tl]; [exact I|].
  destruct Hchild as (Hid & _ & Htl). split; assumption.
Qed.

Lemma keys_children_nth
  (list_child : WebElement -> nat -> IdToElement) (p : Z) (rest : list WebElement) :
  forall i h,
    In h (keys (children_records list_child p rest i)) ->
    exists j c, nth_error rest j = Some c /\ In h (keys (list_child c (i + j))).
Proof.
  induction rest as [|c rest IH]; intros i h Hin; [destruct Hin|].
  cbn [children_records] in Hin. rewrite keys_app, keys_adopt in Hin.
  apply in_app_or in Hin as [Hin|Hin].
  - exists 0%nat, c. rewrite Nat.add_0_r. split; [reflexivity | exact Hin].
  - destruct (IH (S i) h Hin) as (j & c' & Hj & Hk). exists (S j), c'.
    split; [exact Hj|]. now rewrite Nat.add_succ_r.
Qed.

(** Nothing is listed for what is below an element that comes after a
    stale sibling. *)
Lemma records_after_stale (e : WebElement) :
  forall parent_selector siblings index n j i sj c m,
    NoDup (identities e) ->
    In n (nodes e) ->
    (j < i)%nat -> nth_error (child_nodes n) j = Some sj -> stale sj = true ->
    nth_error (child_nodes n) i = Some c ->
    In m (nodes c) ->
    ~ In (hash m) (keys (listed e parent_selector siblings index)).
Proof.
  induction e as [st h t i0 c0 v p r1 r2 kids IH] using WebElement_forall_ind.
  intros parent_selector siblings index n j i sj c m Hnd Hn Hji Hj Hs Hi Hm Hin.
  set (e := mkWebElement st h t i0 c0 v p r1 r2 kids) in *.
  assert (Hc : In c (child_nodes n)) by exact (nth_error_In _ _ Hi).
  pose proof (below_is_proper e n c Hn Hc m Hm) as Hproper.
  rewrite hashes_unfold in Hnd. apply NoDup_cons_iff in Hnd as [Hhead Hkids].
  rewrite records_unfold in Hin. destruct (recorded _ e index siblings); [|destruct Hin].
  cbn [keys map fst] in Hin. destruct Hin as [Heq|Hin].
  { apply Hhead. rewrite Heq, <- identities_flat_map. apply in_map. exact Hproper. }
  fold (keys (children_records
                (fun child i1 =>
                   listed child (css_selector (item e index siblings parent_selector))
                     (Some (child_nodes e)) (Some i1)) (hash e) (child_nodes e) 0%nat))
    in Hin.
  apply keys_children_nth in Hin as (j' & c' & Hj' & Hk). cbn [Nat.add] in Hk.
  pose proof (keys_records _ _ _ _ c' _ _ _ _ Hk) as Hc'.
  rewrite nodes_unfold in Hn. destruct Hn as [<-|Hn].
  - destruct (Nat.eq_dec j' i) as [->|Hne].
    + rewrite Hi in Hj'. injection Hj' as <-.
      rewrite records_unfold in Hk. unfold recorded in Hk.
      cbn [stale_before before] in Hk.
      rewrite (existsb_firstn_stale _ _ _ _ Hji Hj Hs) in Hk.
      cbn [negb] in Hk. rewrite andb_false_r in Hk. destruct Hk.
    + apply (NoDup_flat_map_apart _ _ _ _ Hkids j' i c' c (hash m) Hj' Hi Hne Hc').
      apply in_map. exact Hm.
  - apply in_flat_map_nth in Hn as (i'' & k & Hi'' & Hnk).
    cbn [child_nodes e] in *.
    assert (Hmk : In m (nodes k)).
    { apply (nodes_incl k n Hnk). exact (child_nodes_incl n c Hc m Hm). }
    destruct (Nat.eq_dec j' i'') as [->|Hne].
    + rewrite Hi'' in Hj'. injection Hj' as <-.
      rewrite Forall_forall in IH.
      exact (IH k (nth_error_In _ _ Hi'') _ _ _ n j i sj c m
               (NoDup_flat_map_each _ _ _ _ k Hkids (nth_error_In _ _ Hi''))
               Hnk Hji Hj Hs Hi Hm Hk).
    + apply (NoDup_flat_map_apart _ _ _ _ Hkids j' i'' c' k (hash m) Hj' Hi'' Hne Hc').
      apply in_map. exact Hmk.
Qed.

End Distinct.

(** X15: on a page where no two elements have the same identity and
    every element gets a record, no handle being stale and every element
    passing the visibility test, [get_elements] lists one record per
    element, in document order: an element before its children, the
    children in their order, each followed by what is below it. *)
Theorem records_in_document_order
  (str_hash : string -> Z) (full_page_screenshot : bool) (pixel_ratio : Z -> Z)
  (capture_invisible_elements : bool) (root : WebElement) :
  NoDup (hashes str_hash root) ->
  all_recorded capture_invisible_elements root ->
  exists items,
    get_elements str_hash full_page_screenshot pixel_ratio
      capture_invisible_elements (Some root) = Ok items
    /\ map id items = map (hash_of str_hash) (nodes root).
Proof.
  intros Hnd Hall. eexists. split; [apply get_elements_lists; exact Hnd|].
  rewrite (ids_are_keys _ (keyed_records _ _ _ _ _ _ _ _)).
  apply keys_records_all; [reflexivity | exact Hall].
Qed.

Lemma records_in_document_order_witness :
  exists items,
    get_elements Pages.by_length true (fun v => v) true (Some Pages.hidden_branch)
    = Ok items
    /\ map id items = [36%Z; 16%Z; 9%Z; 7%Z].
Proof.
  apply (records_in_document_order Pages.by_length true (fun v => v) true
           Pages.hidden_branch).
  - vm_compute. repeat (constructor; [cbn; intuition discriminate|]). constructor.
  - unfold all_recorded. cbn. repeat constructor.
Defined.

(** X16: on a page where no two elements have the same identity and no
    handle is stale, so that no element leaves the page between the
    moment its record is stored and the moment its parent links it, the
    record of the root has no parent, and every other record has for
    parent the identity of an element of which its own element is a
    child. *)
Theorem parents_on_distinct_identities
  (str_hash : string -> Z) (full_page_screenshot : bool) (pixel_ratio : Z -> Z)
  (capture_invisible_elements : bool) (root : WebElement) :
  NoDup (hashes str_hash root) ->
  fresh root ->
  exists items,
    get_elements str_hash full_page_screenshot pixel_ratio
      capture_invisible_elements (Some root) = Ok items
    /\ (forall it, In it items -> id it = hash_of str_hash root -> parent_id it = None)
    /\ (forall it, In it items -> id it <> hash_of str_hash root ->
          exists n c, In n (nodes root) /\ In c (child_nodes n)
                      /\ id it = hash_of str_hash c
                      /\ parent_id it = Some (hash_of str_hash n)).
Proof.
  intros Hnd _. eexists. split; [apply get_elements_lists; exact Hnd|].
  pose proof (records_parents str_hash full_page_screenshot pixel_ratio
                capture_invisible_elements root "" None None) as H.
  destruct (records _ _ _ _ root "" None None) as [|[k it0] tl]; [split; intros it []|].
  destruct H as (Hid & Hpar & Htl). rewrite Forall_forall in Htl.
  cbn [values map snd]. split.
  - intros it [<-|Hin] Heq; [exact Hpar|]. exfalso.
    destruct (in_values _ _ Hin) as (k' & Hentry).
    destruct (Htl _ Hentry) as (n & c & Hn & Hc & Hidc & _). cbn [snd] in Hidc.
    rewrite hashes_unfold in Hnd. apply NoDup_cons_iff in Hnd as [Hhead _].
    apply Hhead. rewrite <- Heq, Hidc, <- identities_flat_map. apply in_map.
    apply (below_is_proper root n c Hn Hc). apply nodes_self.
  - intros it [<-|Hin] Hne; [congruence|].
    destruct (in_values _ _ Hin) as (k' & Hentry). exact (Htl _ Hentry).
Qed.

Lemma parents_on_distinct_identities_witness :
  exists items,
    get_elements Pages.by_length true (fun v => v) false (Some Pages.header_page)
    = Ok items
    /\ map (fun it => (id it, parent_id it)) items = [(46%Z, None); (25%Z, Some 46%Z)].
Proof.
  destruct (parents_on_distinct_identities Pages.by_length true (fun v => v) false
              Pages.header_page) as (items & Hrun & _).
  - vm_compute. repeat (constructor; [cbn; intuition discriminate|]). constructor.
  - unfold fresh. cbn. repeat constructor.
  - exists items. split; [exact Hrun|].
    vm_compute in Hrun. injection Hrun as <-. reflexivity.
Defined.

(** X17: on a page where no two elements have the same identity, an
    element that comes after a sibling whose handle is stale gets no
    record, and nothing below it does: the stale sibling makes the
    computation of its selector raise, and the loop over the children
    passes over it. *)
Theorem nothing_after_a_stale_sibling
  (str_hash : string -> Z) (full_page_screenshot : bool) (pixel_ratio : Z -> Z)
  (capture_invisible_elements : bool) (root : WebElement)
  (n sj c m : WebElement) (j i : nat) :
  NoDup (hashes str_hash root) ->
  In n (nodes root) ->
  (j < i)%nat -> nth_error (child_nodes n) j = Some sj -> stale sj = true ->
  nth_error (child_nodes n) i = Some c ->
  In m (nodes c) ->
  exists items,
    get_elements str_hash full_page_screenshot pixel_ratio
      capture_invisible_elements (Some root) = Ok items
    /\ forall it, In it items -> id it <> hash_of str_hash m.
Proof.
  intros Hnd Hn Hji Hj Hs Hi Hm. eexists.
  split; [apply get_elements_lists; exact Hnd|].
  intros it Hin Heq. destruct (in_values _ _ Hin) as (k & Hentry).
  apply (records_after_stale str_hash full_page_screenshot pixel_ratio
           capture_invisible_elements root "" None None n j i sj c m); try assumption.
  rewrite <- Heq, (keyed_records _ _ _ _ _ _ _ _ _ _ Hentry).
  apply (in_map fst) in Hentry. exact Hentry.
Qed.

Lemma nothing_after_a_stale_sibling_witness :
  exists items,
    get_elements Pages.by_length true (fun v => v) true (Some after_stale) = Ok items
    /\ forall it, In it items -> id it <> Pages.by_length "<em></em>".
Proof.
  apply (nothing_after_a_stale_sibling Pages.by_length true (fun v => v) true after_stale
           after_stale
           (mkWebElement true "<i></i>" "i" None None true "static"
              (Build_Rect 0 0 0 0) (Build_Rect 0 0 0 0) [])
           (Pages.element "<b><em></em></b>" "b" None None true
              [Pages.element "<em></em>" "em" None None true []])
           (Pages.element "<em></em>" "em" None None true [])
           0%nat 1%nat).
  - vm_compute. repeat (constructor; [cbn; intuition discriminate|]). constructor.
  - left. reflexivity.
  - lia.
  - reflexivity.
  - reflexivity.
  - reflexivity.
  - right. left. reflexivity.
Defined.

Lemma in_children_nth
  (list_child : WebElement -> nat -> IdToElement) (p : Z) (rest : list WebElement) :
  forall i entry,
    In entry (children_records list_child p rest i) ->
    exists j c, nth_error rest j = Some c /\ In entry (adopt p (list_child c (i + j))).
Proof.
  induction rest as [|c rest IH]; intros i entry Hin; [destruct Hin|].
  cbn [children_records] in Hin. apply in_app_or in Hin as [Hin|Hin].
  - exists 0%nat, c. rewrite Nat.add_0_r. split; [reflexivity | exact Hin].
  - destruct (IH (S i) entry Hin) as (j & c' & Hj & Hk). exists (S j), c'.
    split; [exact Hj|]. now rewrite Nat.add_succ_r.
Qed.

(** An entry of an adopted list: the first one with its new parent, or
    one of the others as it was. *)
Lemma in_adopt (p : Z) (l : IdToElement) (k : Z) (it : ElementItem) :
  In (k, it) (adopt p l) ->
  (exists it0 tl, l = (k, it0) :: tl /\ it = set_parent_id p it0)
  \/ (exists e0 tl, l = e0 :: tl /\ In (k, it) tl).
Proof.
  destruct l as [|[k0 it0] tl]; [intros []|].
  cbn [adopt]. intros [H|H].
  - injection H as -> <-. left. eauto.
  - right. eauto.
Qed.

Lemma selector_of_stripped (e : WebElement) (index : option nat)
  (siblings : option (list WebElement)) (parent_selector : string) :
  strip (selector_of e index siblings parent_selector)
  = selector_of e index siblings parent_selector.
Proof. unfold selector_of. apply StringFacts.strip_idempotent. Qed.

Lemma selector_of_extends (e : WebElement) (i : nat)
  (siblings : option (list WebElement)) (parent_selector : string) :
  strip parent_selector = parent_selector ->
  startswith parent_selector (selector_of e (Some i) siblings parent_selector) = true.
Proof.
  intros Hp. unfold selector_of.
  destruct (1 <? same_tag_count (tag e) (before siblings i))%nat;
    apply StringFacts.strip_keeps_prefix; exact Hp.
Qed.

Section Paths.
Variable str_hash : string -> Z.
Variable full_page_screenshot : bool.
Variable pixel_ratio : Z -> Z.
Variable capture_invisible_elements : bool.

Abbreviation listed :=
  (records str_hash full_page_screenshot pixel_ratio capture_invisible_elements).
Abbreviation item := (item_of str_hash full_page_screenshot pixel_ratio).
Abbreviation hash := (hash_of str_hash).
Abbreviation identities := (hashes str_hash).

Lemma records_head (e : WebElement) (parent_selector : string)
  (siblings : option (list WebElement)) (index : option nat)
  (k : Z) (it : ElementItem) (tl : IdToElement) :
  listed e parent_selector siblings index = (k, it) :: tl ->
  k = hash e /\ it = item e index siblings parent_selector.
Proof.
  rewrite records_unfold. destruct (recorded _ e index siblings); [|discriminate].
  intros H. injection H as <- <- _. split; reflexivity.
Qed.

Lemma records_paths (e : WebElement) :
  forall parent_selector siblings index k it k' par,
    NoDup (identities e) ->
    In (k, it) (listed e parent_selector siblings index) ->
    In (k', par) (listed e parent_selector siblings index) ->
    parent_id it = Some k' ->
    startswith (css_selector par) (css_selector it) = true.
Proof.
  induction e as [st h t i0 c0 v p r1 r2 kids IH] using WebElement_forall_ind.
  intros parent_selector siblings index k it k' par Hnd Hit Hpar Hlink.
  set (e := mkWebElement st h t i0 c0 v p r1 r2 kids) in *.
  rewrite hashes_unfold in Hnd. apply NoDup_cons_iff in Hnd as [Hhead Hkids].
  rewrite records_unfold in Hit, Hpar.
  destruct (recorded _ e index siblings); [|destruct Hit].
  set (sel := css_selector (item e index siblings parent_selector)) in *.
  set (f := fun child i1 => listed child sel (Some (child_nodes e)) (Some i1)) in *.
  assert (Hkeys : forall k0 it0,
             In (k0, it0) (children_records f (hash e) (child_nodes e) 0%nat) ->
             exists j c, nth_error (child_nodes e) j = Some c
                         /\ In (k0, it0) (adopt (hash e) (f c j))
                         /\ In k0 (identities c)).
  { intros k0 it0 Hin. apply in_children_nth in Hin as (j & c & Hj & Hin).
    cbn [Nat.add] in Hin. exists j, c. split; [exact Hj|]. split; [exact Hin|].
    apply (keys_records str_hash full_page_screenshot pixel_ratio
             capture_invisible_elements c sel (Some (child_nodes e)) (Some j)).
    rewrite <- (keys_adopt (hash e)). apply (in_map fst) in Hin. exact Hin. }
  assert (Hnothead : forall k0 it0,
             In (k0, it0) (children_records f (hash e) (child_nodes e) 0%nat) ->
             k0 <> hash e).
  { intros k0 it0 Hin ->. destruct (Hkeys _ _ Hin) as (j & c & Hj & _ & Hk).
    apply Hhead. cbn [child_nodes e] in Hj. apply in_flat_map. exists c.
    split; [exact (nth_error_In _ _ Hj) | exact Hk]. }
  destruct Hit as [Hit|Hit]; [injection Hit as <- <-; discriminate Hlink|].
  destruct (Hkeys _ _ Hit) as (j & c & Hj & Hadopt & Hk).
  apply in_adopt in Hadopt as [(it0 & tl & Hl & ->)|(e0 & tl & Hl & Htl)].
  - cbn in Hlink. injection Hlink as <-.
    destruct Hpar as [Hpar|Hpar]; [|elim (Hnothead _ _ Hpar); reflexivity].
    injection Hpar as <-. unfold f in Hl.
    destruct (records_head _ _ _ _ _ _ _ Hl) as [_ ->].
    cbn [set_parent_id css_selector item_of]. fold sel.
    apply selector_of_extends. apply selector_of_stripped.
  - assert (Hin : In (k, it) (f c j)) by (rewrite Hl; right; exact Htl).
    pose proof (records_parents str_hash full_page_screenshot pixel_ratio
                  capture_invisible_elements c sel (Some (child_nodes e)) (Some j))
      as Hpc.
    fold (f c j) in Hpc. rewrite Hl in Hpc. destruct e0 as [k0 it0].
    destruct Hpc as (_ & _ & Hall). rewrite Forall_forall in Hall.
    destruct (Hall _ Htl) as (n & c' & Hn & _ & _ & Hp). cbn [snd] in Hp.
    rewrite Hlink in Hp. injection Hp as ->.
    assert (Hkc : In (hash n) (identities c)) by (apply in_map; exact Hn).
    destruct Hpar as [Hpar|Hpar].
    { injection Hpar as Heq _. exfalso. apply Hhead. rewrite Heq.
      apply in_flat_map. exists c.
      split; [exact (nth_error_In _ _ Hj) | exact Hkc]. }
    destruct (Hkeys _ _ Hpar) as (j' & c'' & Hj' & Hadopt' & Hk').
    cbn [child_nodes e] in Hj, Hj'.
    destruct (Nat.eq_dec j' j) as [->|Hne].
    2:{ exfalso.
        exact (NoDup_flat_map_apart _ _ _ _ Hkids j' j c'' c (hash n) Hj' Hj Hne Hk' Hkc). }
    rewrite Hj in Hj'. injection Hj' as <-.
    assert (Hpar' : exists par', In (hash n, par') (f c j)
                                 /\ css_selector par' = css_selector par).
    { apply in_adopt in Hadopt' as [(p0 & tl' & Hl' & ->)|(e1 & tl' & Hl' & Htl')].
      - exists p0. split; [rewrite Hl'; left; reflexivity | reflexivity].
      - exists par. split; [rewrite Hl'; right; exact Htl' | reflexivity]. }
    destruct Hpar' as (par' & Hpin & <-).
    rewrite Forall_forall in IH.
    exact (IH c (nth_error_In _ _ Hj) sel (Some kids) (Some j) k it (hash n) par'
             (NoDup_flat_map_each _ _ _ _ c Hkids (nth_error_In _ _ Hj)) Hin Hpin Hlink).
Qed.

End Paths.

(** X18: on a page where no two elements have the same identity, the
    selectors are nested like the records: the selector of a record
    starts with the selector of the record that is its parent. *)
Theorem selectors_follow_parents
  (str_hash : string -> Z) (full_page_screenshot : bool) (pixel_ratio : Z -> Z)
  (capture_invisible_elements : bool) (root : WebElement) :
  NoDup (hashes str_hash root) ->
  exists items,
    get_elements str_hash full_page_screenshot pixel_ratio
      capture_invisible_elements (Some root) = Ok items
    /\ forall it parent,
         In it items -> In parent items -> parent_id it = Some (id parent) ->
         startswith (css_selector parent) (css_selector it) = true.
Proof.
  intros Hnd. eexists. split; [apply get_elements_lists; exact Hnd|].
  intros it parent Hit Hpar Hlink.
  destruct (in_values _ _ Hit) as (k & Hk). destruct (in_values _ _ Hpar) as (k' & Hk').
  rewrite (keyed_records _ _ _ _ _ _ _ _ _ _ Hk') in Hlink.
  exact (records_paths str_hash full_page_screenshot pixel_ratio
           capture_invisible_elements root "" None None k it k' parent Hnd Hk Hk' Hlink).
Qed.

Lemma selectors_follow_parents_witness :
  exists items,
    get_elements Pages.by_length true (fun v => v) false (Some Pages.header_page)
    = Ok items
    /\ map css_selector items = ["div#header"; "div#header span.title"]%string
    /\ forall it parent,
         In it items -> In parent items -> parent_id it = Some (id parent) ->
         startswith (css_selector parent) (css_selector it) = true.
Proof.
  destruct (selectors_follow_parents Pages.by_length true (fun v => v) false
              Pages.header_page) as (items & Hrun & Hall).
  - vm_compute. repeat (constructor; [cbn; intuition discriminate|]). constructor.
  - exists items. split; [exact Hrun|]. split; [|exact Hall].
    vm_compute in Hrun. injection Hrun as <-. reflexivity.
Defined.

End RecordFacts.

(** ** The traversal: one record for every identity that is reached *)

Module IdentityFacts.
Import PyDict PyDictFacts Draw Traversal DomView Records TraversalFacts RecordFacts.
#[local] Open Scope list_scope.
#[local] Unset Implicit Arguments.

Lemma keys_orphans (d : IdToElement) : keys (orphans d) = keys d.
Proof.
  unfold orphans, keys. induction d as [|[k it] d IH]; [reflexivity|].
  cbn [map fst]. now rewrite IH.
Qed.

Section Reached.
Variable str_hash : string -> Z.
Variable full_page_screenshot : bool.
Variable pixel_ratio : Z -> Z.
Variable capture_invisible_elements : bool.

Abbreviation traverse :=
  (traverse_dom str_hash full_page_screenshot pixel_ratio capture_invisible_elements).
Abbreviation good := (consistent capture_invisible_elements).
Abbreviation hash := (hash_of str_hash).
Abbreviation item := (item_of str_hash full_page_screenshot pixel_ratio).

(** The keys that a call adds are identities of the subtree. *)
Lemma traverse_dom_bound (e : WebElement) (parent_selector : string)
  (siblings : option (list WebElement)) (index : option nat) (d d' : IdToElement)
  (r : result (option Z)) :
  traverse e parent_selector siblings index d = (d', r) ->
  incl (keys d') (keys d ++ hashes str_hash e).
Proof.
  intros Hrun.
  destruct (traverse_dom_all str_hash full_page_screenshot pixel_ratio
              capture_invisible_elements (nodes e)
              (fun entry => In (fst entry) (keys d ++ hashes str_hash e)))
    with (element := e) (parent_selector := parent_selector) (siblings := siblings)
         (index := index) (d := d) (d' := d') (r := r) as [Hall _].
  - intros n i0 sib psel it Hn _ _ _. cbn [fst]. apply in_or_app. right.
    unfold hashes. apply in_map. exact Hn.
  - intros n c it _ _ H. exact H.
  - apply incl_refl.
  - exact Hrun.
  - apply Forall_forall. intros [k it] Hin. cbn [fst]. apply in_or_app. left.
    unfold keys. apply (in_map fst) in Hin. exact Hin.
  - intros k Hk. destruct (in_keys_entry _ _ Hk) as (it & Hin).
    rewrite Forall_forall in Hall. exact (Hall _ Hin).
Qed.

(** The traversal of an element that gets a record and whose identity is
    new stores the record and goes through all the children. *)
Lemma traverse_dom_expands (e : WebElement) (parent_selector : string)
  (siblings : option (list WebElement)) (index : option nat) (d : IdToElement) :
  recorded capture_invisible_elements e index siblings = true ->
  siblings_given index siblings ->
  mem (hash e) d = false ->
  let it := item e index siblings parent_selector in
  exists d2,
    for_children
      (fun child child_index =>
         traverse child (css_selector it) (Some (child_nodes e)) (Some child_index))
      (hash e) (child_nodes e) 0%nat (set (hash e) it d) = (d2, Ok tt)
    /\ traverse e parent_selector siblings index d = (d2, Ok (Some (hash e))).
Proof.
  intros Hrec Hsib Hm it. unfold recorded in Hrec.
  apply andb_true_iff in Hrec as [Hrec Hsb]. apply andb_true_iff in Hrec as [Hs Hg].
  apply negb_true_iff in Hs. apply negb_true_iff in Hsb. unfold gate in Hg.
  rewrite traverse_dom_unfold.
  unfold get_element_hash, get_attribute, remote. rewrite Hs.
  cbn [bind String.eqb Ascii.eqb Bool.eqb andb]. fold (hash e). rewrite Hm.
  unfold is_displayed, remote. rewrite Hs, Hg. cbn [negb].
  unfold get_bounding_rect, remote. rewrite Hs.
  assert (Hrect : (if full_page_screenshot
                   then Ok (location_size e) else Ok (client_rect e))
                  = Ok (if full_page_screenshot then location_size e else client_rect e))
    by (destruct full_page_screenshot; reflexivity).
  rewrite Hrect, (from_web_element_cases _ _ _ _ _ _ _ Hs Hsib), Hsb.
  unfold find_children, remote. rewrite Hs. fold it.
  destruct (for_children _ (hash e) (child_nodes e) 0%nat (set (hash e) it d))
    as [d2 r2'] eqn:Hloop.
  assert (Hret : r2' = Ok tt).
  { pose proof (for_children_returns
                  (fun child child_index =>
                     traverse child (css_selector it) (Some (child_nodes e))
                       (Some child_index))
                  (hash e) (child_nodes e)) as Hr.
    specialize (Hr ltac:(apply Forall_forall; intros child _ i0;
                         apply traverse_dom_stale_only; discriminate)
                     0%nat (set (hash e) it d)).
    rewrite Hloop in Hr. exact Hr. }
  subst r2'. exists d2. split; reflexivity.
Qed.

(** The loop over the children comes to the child at position [j], and
    what that call stores is still there when the loop ends. *)
Lemma for_children_visit
  (trav : WebElement -> nat -> IdToElement -> IdToElement * result (option Z))
  (p h : Z) (rest : list WebElement) :
  Forall (fun child => forall i,
              keeps capture_invisible_elements (trav child i)
              /\ stale_only (trav child i)
              /\ (forall d d' r, trav child i d = (d', r) ->
                                 incl (keys d') (keys d ++ hashes str_hash child))) rest ->
  forall j c i0 d d' r,
    nth_error rest j = Some c ->
    (forall dc dc' rc,
        good dc ->
        incl (keys dc) (keys d ++ flat_map (hashes str_hash) (firstn j rest)) ->
        trav c (i0 + j)%nat dc = (dc', rc) -> In h (keys dc')) ->
    for_children trav p rest i0 d = (d', r) ->
    good d -> In p (keys d) ->
    In h (keys d').
Proof.
  induction 1 as [|child rest Hchild Hrest IH]; intros j c i0 d d' r Hnth Hc Hrun Hg Hp.
  - destruct j; discriminate Hnth.
  - cbn [for_children] in Hrun.
    destruct (trav child i0 d) as [d1 r1] eqn:Ht.
    destruct (Hchild i0) as (Hkeep & Hso & Hbound).
    destruct (Hkeep d d1 r1 Ht Hg) as (Hg1 & Hi1 & _).
    pose proof (Hbound d d1 r1 Ht) as Hb1.
    assert (Hkeeps : Forall (fun child0 => forall i,
                                 keeps capture_invisible_elements (trav child0 i)) rest).
    { eapply Forall_impl; [|exact Hrest]. intros a Ha i. exact (proj1 (Ha i)). }
    destruct j as [|j].
    + cbn [nth_error] in Hnth. injection Hnth as ->.
      assert (Hin1 : In h (keys d1)).
      { apply (Hc d d1 r1 Hg).
        - cbn [firstn flat_map]. rewrite app_nil_r. apply incl_refl.
        - rewrite Nat.add_0_r. exact Ht. }
      assert (Hnext : forall dnext,
                 good dnext -> keys dnext = keys d1 ->
                 for_children trav p rest (S i0) dnext = (d', r) -> In h (keys d')).
      { intros dnext Hgn Hkn Hrunn.
        destruct (for_children_keeps capture_invisible_elements trav p rest Hkeeps
                    (S i0) dnext d' r Hrunn Hgn) as (_ & Hincl).
        - rewrite Hkn. apply Hi1, Hp.
        - apply Hincl. rewrite Hkn. exact Hin1. }
      destruct r1 as [[child_item|]|ex].
      * apply (Hnext _ (good_adopt capture_invisible_elements _ child_item _ Hg1
                          (Hi1 _ Hp)) (keys_update _ _ _ _) Hrun).
      * apply (Hnext _ Hg1 eq_refl Hrun).
      * destruct ex; try (inversion Hrun; subst; exact Hin1).
        apply (Hnext _ Hg1 eq_refl Hrun).
    + cbn [nth_error] in Hnth.
      assert (Hnext : forall dnext,
                 good dnext -> keys dnext = keys d1 ->
                 for_children trav p rest (S i0) dnext = (d', r) -> In h (keys d')).
      { intros dnext Hgn Hkn Hrunn.
        apply (IH j c (S i0) dnext d' r Hnth); [|exact Hrunn | exact Hgn |].
        - intros dc dc' rc Hgc Hic Hrc.
          apply (Hc dc dc' rc Hgc).
          + cbn [firstn flat_map]. intros k Hk. apply Hic in Hk.
            rewrite Hkn in Hk. apply in_app_or in Hk as [Hk|Hk].
            * apply Hb1 in Hk. apply in_app_or in Hk as [Hk|Hk].
              -- apply in_or_app. left. exact Hk.
              -- apply in_or_app. right. apply in_or_app. left. exact Hk.
            * apply in_or_app. right. apply in_or_app. right. exact Hk.
          + rewrite Nat.add_succ_r. exact Hrc.
        - rewrite Hkn. apply Hi1, Hp. }
      destruct r1 as [[child_item|]|ex].
      * apply (Hnext _ (good_adopt capture_invisible_elements _ child_item _ Hg1
                          (Hi1 _ Hp)) (keys_update _ _ _ _) Hrun).
      * apply (Hnext _ Hg1 eq_refl Hrun).
      * pose proof (Hso d ex) as Hex. rewrite Ht in Hex. specialize (Hex eq_refl).
        subst ex. apply (Hnext _ Hg1 eq_refl Hrun).
Qed.

(** The identity of an element that the traversal reaches is a key of
    the dictionary when the call returns. *)
Lemma traverse_dom_reaches (path : list nat) :
  forall e siblings index n seen parent_selector d d' r,
    reaches str_hash capture_invisible_elements seen e siblings index path n ->
    siblings_given index siblings ->
    incl (keys d) seen ->
    good d ->
    traverse e parent_selector siblings index d = (d', r) ->
    In (hash n) (keys d').
Proof.
  induction path as [|i path IH];
    intros e siblings index n seen parent_selector d d' r Hreach Hsib Hseen Hg Hrun;
    cbn [reaches] in Hreach; destruct Hreach as [Hrec Hreach].
  - subst n. destruct (mem (hash e) d) eqn:Hm.
    + destruct (traverse_dom_keeps str_hash full_page_screenshot pixel_ratio
                  capture_invisible_elements e parent_selector siblings index
                  d d' r Hrun Hg) as (_ & Hincl & _).
      apply Hincl. apply mem_true_iff. exact Hm.
    + destruct (traverse_dom_expands e parent_selector siblings index d Hrec Hsib Hm)
        as (d2 & _ & Hrun2).
      rewrite Hrun2 in Hrun. inversion Hrun; subst.
      destruct (traverse_dom_keeps str_hash full_page_screenshot pixel_ratio
                  capture_invisible_elements e parent_selector siblings index
                  d d' _ Hrun2 Hg) as (_ & _ & Hk).
      apply Hk. reflexivity.
  - destruct Hreach as (Hnew & c & Hnth & Hbelow).
    assert (Hm : mem (hash e) d = false).
    { apply mem_false_iff. intros Hin. apply Hnew, Hseen, Hin. }
    destruct (traverse_dom_expands e parent_selector siblings index d Hrec Hsib Hm)
      as (d2 & Hloop & Hrun2).
    rewrite Hrun2 in Hrun. inversion Hrun; subst. clear Hrun.
    set (it := item e index siblings parent_selector) in *.
    assert (Hk1 : keys (set (hash e) it d) = keys d ++ [hash e]).
    { rewrite (set_fresh _ _ _ _ Hm). apply keys_app. }
    assert (Hg1 : good (set (hash e) it d)).
    { apply good_insert; try assumption; try reflexivity.
      intros Hc. cbn. unfold recorded, gate in Hrec. rewrite Hc, orb_false_r in Hrec.
      apply andb_true_iff in Hrec as [Hrec _]. apply andb_true_iff in Hrec as [_ Hv].
      exact Hv. }
    apply (for_children_visit
             (fun child child_index =>
                traverse child (css_selector it) (Some (child_nodes e)) (Some child_index))
             (hash e) (hash n) (child_nodes e)) with
      (j := i) (c := c) (i0 := 0%nat) (d := set (hash e) it d) (r := Ok tt).
    + apply Forall_forall. intros child _ i0. split; [|split].
      * apply traverse_dom_keeps.
      * apply traverse_dom_stale_only. discriminate.
      * intros d0 d0' r0. apply traverse_dom_bound.
    + exact Hnth.
    + intros dc dc' rc Hgc Hic Hrc. cbn [Nat.add] in Hrc.
      apply (IH c (Some (child_nodes e)) (Some i) n _ (css_selector it) dc dc' rc
               Hbelow); [discriminate | | exact Hgc | exact Hrc].
      intros k Hk. apply Hic in Hk. rewrite Hk1, <- app_assoc in Hk.
      apply in_app_or in Hk as [Hk|Hk].
      * apply in_or_app. left. apply Hseen, Hk.
      * apply in_or_app. right. exact Hk.
    + exact Hloop.
    + exact Hg1.
    + rewrite Hk1. apply in_or_app. right. left. reflexivity.
Qed.

Lemma get_elements_reaches (root : WebElement) (path : list nat) (n : WebElement) :
  reaches str_hash capture_invisible_elements [] root None None path n ->
  exists d,
    get_elements str_hash full_page_screenshot pixel_ratio
      capture_invisible_elements (Some root) = Ok (values d)
    /\ good d /\ In (hash n) (keys d).
Proof.
  intros Hreach.
  assert (Hrec : recorded capture_invisible_elements root None None = true)
    by (destruct path; exact (proj1 Hreach)).
  assert (Hsib : siblings_given None None) by (intros H; exfalso; apply H; reflexivity).
  destruct (traverse_dom_expands root "" None None (empty ElementItem) Hrec Hsib eq_refl)
    as (d2 & _ & Hrun).
  exists d2. cbn [get_elements]. rewrite Hrun. split; [reflexivity|].
  destruct (traverse_dom_keeps str_hash full_page_screenshot pixel_ratio
              capture_invisible_elements root "" None None _ _ _ Hrun
              (good_empty capture_invisible_elements)) as (Hg & _ & _).
  split; [exact Hg|].
  apply (traverse_dom_reaches path root None None n [] "" (empty ElementItem) d2
           (Ok (Some (hash root))) Hreach Hsib);
    [intros k [] | exact (good_empty capture_invisible_elements) | exact Hrun].
Qed.

End Reached.

(** C4 (amended): whatever the page and the flags, [get_elements] lists
    at most one record for an identity, hence at most one for two
    elements whose markup has the same hash.  It lists exactly one for
    the identity of every element that the traversal reaches: the
    element and the elements above it have a handle that is not stale,
    pass the visibility test and come after no sibling whose handle is
    stale, and the elements above it have an identity that no element
    before them in the document has.  So two elements with the same
    markup that are reached along two different paths share one record.
    A call of [traverse_dom] on an element whose hash is already a key
    returns that key, that is the cached record, and leaves the
    dictionary as it is. *)
Theorem one_record_per_identity
  (str_hash : string -> Z) (full_page_screenshot : bool) (pixel_ratio : Z -> Z)
  (capture_invisible_elements : bool) (root_element : option WebElement) :
  (exists items,
     get_elements str_hash full_page_screenshot pixel_ratio
       capture_invisible_elements root_element = Ok items
     /\ NoDup (map id items)
     /\ (forall h, (List.length (filter (fun it => Z.eqb (id it) h) items) <= 1)%nat)
     /\ (forall root path n,
           root_element = Some root ->
           reaches str_hash capture_invisible_elements [] root None None path n ->
           List.length (filter (fun it => Z.eqb (id it) (hash_of str_hash n)) items)
           = 1%nat))
  /\ (forall e parent_selector siblings index d,
        stale e = false ->
        mem (hash_of str_hash e) d = true ->
        traverse_dom str_hash full_page_screenshot pixel_ratio
          capture_invisible_elements e parent_selector siblings index d
        = (d, Ok (Some (hash_of str_hash e)))).
Proof.
  split.
  - destruct (get_elements_good str_hash full_page_screenshot pixel_ratio
                capture_invisible_elements root_element)
      as (d & Hrun & (Hnd & Hk & Hp & Hv)).
    exists (values d). split; [exact Hrun|].
    assert (Hids : NoDup (map id (values d))) by (rewrite (ids_are_keys _ Hk); exact Hnd).
    split; [exact Hids|]. split; [intros h; apply at_most_one; exact Hids|].
    intros root path n -> Hreach.
    destruct (get_elements_reaches str_hash full_page_screenshot pixel_ratio
                capture_invisible_elements root path n Hreach)
      as (d2 & Hrun2 & (_ & Hk2 & _) & Hin).
    rewrite Hrun in Hrun2. injection Hrun2 as Hvalues.
    pose proof (at_most_one (hash_of str_hash n) _ Hids) as Hle.
    assert (Hge : In (hash_of str_hash n) (map id (values d)))
      by (rewrite Hvalues, (ids_are_keys _ Hk2); exact Hin).
    pose proof (at_least_one (hash_of str_hash n) _ Hge). lia.
  - intros e parent_selector siblings index d Hs Hm.
    rewrite traverse_dom_unfold. unfold get_element_hash, get_attribute, remote.
    rewrite Hs. cbn [bind String.eqb Ascii.eqb Bool.eqb andb].
    unfold hash_of in Hm. rewrite Hm. reflexivity.
Qed.

(** Two paragraphs with the same markup under the root, both displayed:
    the traversal reaches the second one, and it shares the record of the
    first. *)
Lemma one_record_per_identity_witness :
  let p := Pages.element "<p></p>" "p" None None true [] in
  let d := fst (traverse_dom Pages.by_length true (fun v => v) false p "html"
                  (Some [p; p]) (Some 0%nat) (empty ElementItem)) in
  (keys d = [7%Z]
   /\ traverse_dom Pages.by_length true (fun v => v) false p "html" (Some [p; p])
        (Some 1%nat) d
      = (d, Ok (Some 7%Z)))
  /\ reaches Pages.by_length false [] Pages.twins None None [1%nat] p
  /\ exists items,
       get_elements Pages.by_length true (fun v => v) false (Some Pages.twins) = Ok items
       /\ List.length items = 2%nat
       /\ List.length (filter (fun it => Z.eqb (id it) (Pages.by_length "<p></p>")) items)
          = 1%nat.
Proof.
  intros p d.
  assert (Hreach : reaches Pages.by_length false [] Pages.twins None None [1%nat] p).
  { cbn [reaches]. split; [reflexivity|]. split; [intros []|].
    exists p. split; [reflexivity|]. split; reflexivity. }
  split; [|split; [exact Hreach|]].
  - split; [reflexivity|].
    apply (proj2 (one_record_per_identity Pages.by_length true (fun v => v) false None)
             p "html"%string (Some [p; p]) (Some 1%nat) d); reflexivity.
  - destruct (proj1 (one_record_per_identity Pages.by_length true (fun v => v) false
                       (Some Pages.twins)))
      as (items & Hrun & _ & _ & Hone).
    exists items. split; [exact Hrun|].
    pose proof (Hone Pages.twins [1%nat] p eq_refl Hreach) as H.
    vm_compute in Hrun. injection Hrun as <-.
    split; [reflexivity | exact H].
Defined.

End IdentityFacts.

(** ** The scroll actions *)

Module ScrollFacts.
Import Actions Scroll.
#[local] Unset Implicit Arguments.

(** X19: [ScrollUpAction] writes a minus sign in front of [how_much].
    For a positive amount the script is that of a [ScrollDownAction] of
    the opposite amount.  For a negative amount the number is written
    with two minus signs, and for zero as [-0]. *)
Theorem scroll_up_writes_a_minus (how_much : Z) (q : option string) :
  let up h := to_javascript (ScrollUp {| su_how_much := h; su_element_query_selector := q |}) in
  let down h :=
    to_javascript (ScrollDown {| sd_how_much := h; sd_element_query_selector := q |}) in
  ((0 < how_much)%Z -> up how_much = down (- how_much)%Z)
  /\ ((how_much < 0)%Z ->
      up how_much = scroll_by q ("--" ++ str_of_int (- how_much)%Z))
  /\ up 0%Z = scroll_by q "-0"
  /\ down how_much = scroll_by q (str_of_int how_much).
Proof.
  intros up down. unfold up, down.
  split; [|split; [|split]].
  - intros H. destruct how_much as [|p|p]; try lia. destruct q; reflexivity.
  - intros H. destruct how_much as [|p|p]; try lia. destruct q; reflexivity.
  - destruct q; reflexivity.
  - destruct q; reflexivity.
Qed.

Lemma scroll_up_writes_a_minus_witness :
  to_javascript (ScrollUp {| su_how_much := 300; su_element_query_selector := None |})
  = to_javascript (ScrollDown {| sd_how_much := -300; sd_element_query_selector := None |})
  /\ to_javascript (ScrollUp {| su_how_much := -300; su_element_query_selector := None |})
     = "window.scrollBy(0, --300);".
Proof.
  split.
  - apply (proj1 (scroll_up_writes_a_minus 300%Z None)). lia.
  - apply (proj1 (proj2 (scroll_up_writes_a_minus (-300)%Z None))). lia.
Defined.

End ScrollFacts.

(** ** The progress of a group of tasks *)

Module ProgressFacts.
Import Schema.
#[local] Open Scope list_scope.
#[local] Unset Implicit Arguments.

Abbreviation done_ok := (fun a => Celery.ready a && Celery.successful a).
Abbreviation done_ko := (fun a => Celery.ready a && negb (Celery.successful a)).
Abbreviation count f l := (Z.of_nat (List.length (filter f l))).

Lemma fold_collect (l : list Celery.AsyncResult) :
  forall c f st,
    fold_left collect l (c, f, st)
    = ((c + count done_ok l)%Z, (f + count done_ko l)%Z, st ++ map Celery.state l).
Proof.
  induction l as [|a l IH]; intros c f st.
  - cbn. now rewrite !Z.add_0_r, app_nil_r.
  - cbn [fold_left collect filter map].
    destruct (Celery.ready a), (Celery.successful a);
      rewrite IH; cbn [andb negb List.length]; rewrite <- app_assoc;
      cbn [app]; f_equal; f_equal; lia.
Qed.

Lemma counts_le (l : list Celery.AsyncResult) :
  (count done_ok l + count done_ko l
   = Z.of_nat (List.length (filter Celery.ready l)))%Z.
Proof.
  induction l as [|a l IH]; [reflexivity|].
  cbn [filter]. destruct (Celery.ready a), (Celery.successful a);
    cbn [andb negb List.length]; lia.
Qed.

Lemma filter_all (A : Type) (f : A -> bool) (l : list A) :
  List.length (filter f l) = List.length l <-> Forall (fun a => f a = true) l.
Proof.
  induction l as [|a l IH]; [split; constructor|].
  cbn [filter]. pose proof (filter_length_le f l) as Hle.
  destruct (f a) eqn:Hf; cbn [List.length]; split.
  - intros H. constructor; [exact Hf | apply IH; lia].
  - intros H. f_equal. apply IH. exact (Forall_inv_tail H).
  - intros H. lia.
  - intros H. apply Forall_inv in H. congruence.
Qed.

Lemma from_async_result_list_eq (l : list Celery.AsyncResult) :
  from_async_result_list l
  = let completed := count done_ok l in
    let failed := count done_ko l in
    let total := Z.of_nat (List.length l) in
    let states := map Celery.state l in
    {| completed := completed;
       failed := failed;
       total := total;
       state :=
         if (0 <? List.length states)%nat && forallb (String.eqb "SUCCESS") states
         then "SUCCESS"
         else if existsb (String.eqb "PENDING") states then "PENDING"
         else if existsb (String.eqb "FAILURE") states then "FAILURE"
         else "UNKNOWN";
       all_successful := (0 <? completed)%Z && (completed =? total)%Z && (failed =? 0)%Z;
       ready := (completed + failed =? total)%Z |}.
Proof. unfold from_async_result_list. rewrite fold_collect. reflexivity. Qed.

(** X20: the counts of [from_async_result_list].  [completed] counts
    the results that are ready and successful, [failed] those that are
    ready and not successful, [total] all of them; [ready] says that
    every result is ready, and [all_successful] that there is at least
    one result and that every result is ready and successful.  For the
    empty list [ready] is true and [all_successful] false. *)
Theorem progress_counts (l : list Celery.AsyncResult) :
  let r := from_async_result_list l in
  completed r = count done_ok l
  /\ failed r = count done_ko l
  /\ total r = Z.of_nat (List.length l)
  /\ (completed r + failed r <= total r)%Z
  /\ (ready r = true <-> Forall (fun a => Celery.ready a = true) l)
  /\ (all_successful r = true
      <-> l <> [] /\ Forall (fun a => Celery.ready a = true
                                      /\ Celery.successful a = true) l).
Proof.
  intros r. unfold r. rewrite from_async_result_list_eq.
  cbn [completed failed total ready all_successful].
  pose proof (counts_le l) as Hsum.
  pose proof (filter_length_le Celery.ready l) as Hle.
  split; [reflexivity|]. split; [reflexivity|]. split; [reflexivity|].
  split; [lia|]. split.
  - rewrite Z.eqb_eq, Hsum, <- filter_all. lia.
  - rewrite !andb_true_iff, Z.ltb_lt, !Z.eqb_eq.
    assert (Hok : List.length (filter done_ok l) = List.length l
                  <-> Forall (fun a => Celery.ready a = true
                                       /\ Celery.successful a = true) l).
    { rewrite filter_all. split; intros H; (eapply Forall_impl; [|exact H]);
        intros a; rewrite andb_true_iff; tauto. }
    pose proof (filter_length_le done_ok l) as Hle'.
    split.
    + intros [[Hpos Heq] Hz]. split.
      * intros ->. cbn in Hpos. lia.
      * apply Hok. lia.
    + intros [Hne Hall]. apply Hok in Hall.
      destruct l as [|a l]; [congruence|]. cbn [List.length] in *. lia.
Qed.

Lemma forallb_map_eqb (s : string) (l : list Celery.AsyncResult) :
  forallb (String.eqb s) (map Celery.state l) = true
  <-> Forall (fun a => Celery.state a = s) l.
Proof.
  rewrite forallb_forall, Forall_forall. split.
  - intros H a Ha. symmetry. apply String.eqb_eq, H, in_map, Ha.
  - intros H x Hx. apply in_map_iff in Hx as (a & <- & Ha).
    apply String.eqb_eq. symmetry. exact (H a Ha).
Qed.

Lemma existsb_map_eqb (s : string) (l : list Celery.AsyncResult) :
  existsb (String.eqb s) (map Celery.state l) = true
  <-> Exists (fun a => Celery.state a = s) l.
Proof.
  rewrite existsb_exists, Exists_exists. split.
  - intros (x & Hx & He). apply in_map_iff in Hx as (a & <- & Ha).
    exists a. split; [exact Ha|]. symmetry. now apply String.eqb_eq.
  - intros (a & Ha & He). exists (Celery.state a). split; [apply in_map, Ha|].
    apply String.eqb_eq. now symmetry.
Qed.

(** X21: the overall state of [from_async_result_list] is one of four.
    It is [SUCCESS] when there is at least one result and the state of
    every result is [SUCCESS]; [PENDING] when the state of some result
    is [PENDING], whatever the others are; [FAILURE] when none is
    [PENDING] and some is [FAILURE]; and [UNKNOWN] otherwise, as for the
    empty list. *)
Theorem progress_state (l : list Celery.AsyncResult) :
  let r := from_async_result_list l in
  let some s := Exists (fun a => Celery.state a = s) l in
  let all s := Forall (fun a => Celery.state a = s) l in
  (state r = "SUCCESS" <-> l <> [] /\ all "SUCCESS")
  /\ (state r = "PENDING" <-> some "PENDING")
  /\ (state r = "FAILURE" <-> some "FAILURE" /\ ~ some "PENDING")
  /\ (state r = "UNKNOWN"
      <-> ~ (l <> [] /\ all "SUCCESS") /\ ~ some "PENDING" /\ ~ some "FAILURE").
Proof.
  intros r some all. unfold r. rewrite from_async_result_list_eq. cbn [state].
  assert (Hnil : (0 <? List.length (map Celery.state l))%nat = true <-> l <> []).
  { rewrite Nat.ltb_lt, length_map. destruct l; cbn; split; try congruence; lia. }
  assert (Hexcl : forall s, s <> "SUCCESS" -> l <> [] /\ all "SUCCESS" -> ~ some s).
  { intros s Hs [Hne Hall] Hex. apply Exists_exists in Hex as (a & Ha & He).
    unfold all in Hall. rewrite Forall_forall in Hall. rewrite (Hall a Ha) in He.
    congruence. }
  pose proof (forallb_map_eqb "SUCCESS" l) as Hs.
  pose proof (existsb_map_eqb "PENDING" l) as Hp.
  pose proof (existsb_map_eqb "FAILURE" l) as Hf.
  fold (all "SUCCESS") in Hs. fold (some "PENDING") in Hp. fold (some "FAILURE") in Hf.
  destruct ((0 <? List.length (map Celery.state l))%nat
            && forallb (String.eqb "SUCCESS") (map Celery.state l)) eqn:Hsucc.
  - apply andb_true_iff in Hsucc as [H1 H2].
    assert (Hok : l <> [] /\ all "SUCCESS") by (split; [apply Hnil, H1 | apply Hs, H2]).
    pose proof (Hexcl "PENDING" ltac:(discriminate) Hok).
    pose proof (Hexcl "FAILURE" ltac:(discriminate) Hok).
    repeat split; try discriminate; try tauto.
  - assert (Hno : ~ (l <> [] /\ all "SUCCESS")).
    { intros [Hne Hall]. apply Hnil in Hne. apply Hs in Hall.
      rewrite Hne, Hall in Hsucc. discriminate. }
    destruct (existsb (String.eqb "PENDING") (map Celery.state l)) eqn:Hpe.
    + assert (some "PENDING") by (apply Hp; reflexivity).
      repeat split; try discriminate; tauto.
    + assert (~ some "PENDING") by (intros H; apply Hp in H; discriminate).
      destruct (existsb (String.eqb "FAILURE") (map Celery.state l)) eqn:Hfe.
      * assert (some "FAILURE") by (apply Hf; reflexivity).
        repeat split; try discriminate; tauto.
      * assert (~ some "FAILURE") by (intros H'; apply Hf in H'; discriminate).
        repeat split; try discriminate; tauto.
Qed.

End ProgressFacts.

(** ** The sanitized hostname *)

Module AppFacts.
Import App.
#[local] Unset Implicit Arguments.

(** Whether the character [a] occurs in [s]. *)
Abbreviation occurs a s := (contains (String a EmptyString) s).

Lemma occurs_cons (a c : ascii) (s : string) :
  occurs a (String c s) = Ascii.eqb a c || occurs a s.
Proof. cbn [contains startswith]. now rewrite andb_true_r. Qed.

Lemma replace_char (c : ascii) (s : string) :
  forall a, occurs a (replace (String c EmptyString) "" s)
            = occurs a s && negb (Ascii.eqb a c).
Proof.
  unfold replace. induction s as [|x s IH]; intros a; [reflexivity|].
  cbn [replace_from startswith String.length Nat.sub]. rewrite andb_true_r.
  destruct (Ascii.eqb_spec c x) as [->|Hne].
  - cbn [append]. rewrite IH, occurs_cons.
    destruct (Ascii.eqb a x); cbn; [now rewrite andb_false_r | reflexivity].
  - rewrite !occurs_cons, IH.
    destruct (Ascii.eqb_spec a x) as [->|Hax].
    + cbn. destruct (Ascii.eqb_spec x c); [congruence | reflexivity].
    + reflexivity.
Qed.

(** X22: the sanitized hostname of a task never holds a slash or a
    backslash.  It can still be the name of the parent directory: the
    hostname made of a dot, a backslash and a dot has no two dots in a
    row, and comes out as two dots. *)
Theorem safe_hostname_has_no_separator :
  (forall hostname,
      contains "/" (safe_hostname hostname) = false
      /\ contains "\" (safe_hostname hostname) = false)
  /\ contains ".." ".\." = false
  /\ safe_hostname ".\." = "..".
Proof.
  split; [|split; reflexivity].
  intros hostname. unfold safe_hostname. rewrite !replace_char.
  split.
  - cbn. now rewrite andb_false_r.
  - cbn. now rewrite andb_false_r.
Qed.

End AppFacts.

(** ** The window size: validation, parsing, and the size of a device *)

Module WindowFacts.
Import PyStr Device Setup Schema.
#[local] Open Scope string_scope.
#[local] Open Scope list_scope.
#[local] Unset Implicit Arguments.

Lemma append_assoc (a b c : string) : ((a ++ b) ++ c = a ++ (b ++ c))%string.
Proof. induction a as [|x a IH]; [reflexivity|]. cbn. now rewrite IH. Qed.

Lemma append_nil_r (a : string) : (a ++ "")%string = a.
Proof. induction a as [|x a IH]; [reflexivity|]. cbn. now rewrite IH. Qed.

Lemma length_append (a b : string) :
  String.length (a ++ b) = (String.length a + String.length b)%nat.
Proof. induction a as [|x a IH]; [reflexivity|]. cbn. now rewrite IH. Qed.

Lemma digit_is_not_x (c : ascii) : is_digit c = true -> Ascii.eqb "x" c = false.
Proof.
  unfold is_digit. intros H. destruct (Ascii.eqb_spec "x"%char c) as [<-|]; [|reflexivity].
  discriminate H.
Qed.

Lemma split_digits (p : string) :
  all_digits p = true ->
  forall cur rest,
    split_from "x" 0 cur (p ++ rest) = split_from "x" 0 (cur ++ p) rest.
Proof.
  induction p as [|c p IH]; intros Hp cur rest.
  - cbn [append]. now rewrite append_nil_r.
  - cbn [all_digits] in Hp. apply andb_true_iff in Hp as [Hc Hp].
    cbn [append split_from startswith]. rewrite (digit_is_not_x c Hc). cbn [andb].
    rewrite (IH Hp), append_assoc. reflexivity.
Qed.

Lemma split_two (p q : string) :
  all_digits p = true -> all_digits q = true ->
  split "x" (p ++ "x" ++ q) = [p; q].
Proof.
  intros Hp Hq. unfold split. rewrite (split_digits p Hp). cbn [append].
  cbn [split_from startswith String.length Nat.sub]. rewrite Ascii.eqb_refl. cbn [andb].
  f_equal. rewrite <- (append_nil_r q) at 1. rewrite (split_digits q Hq).
  reflexivity.
Qed.

Lemma split_from_length (sep : string) (s : string) :
  forall skip cur part,
    In part (split_from sep skip cur s) ->
    (String.length part <= String.length cur + String.length s)%nat.
Proof.
  induction s as [|c s IH]; intros skip cur part Hin.
  - cbn in Hin. destruct Hin as [<-|[]]. lia.
  - cbn [split_from] in Hin. cbn [String.length]. destruct skip as [|k].
    + destruct (startswith sep (String c s)).
      * destruct Hin as [<-|Hin]; [lia|]. apply IH in Hin. cbn [String.length] in Hin. lia.
      * apply IH in Hin. rewrite length_append in Hin. cbn [String.length] in Hin. lia.
    + apply IH in Hin. lia.
Qed.

Lemma uint_of_string_digits (s : string) (d : Decimal.uint) :
  NilEmpty.uint_of_string s = Some d -> all_digits s = true.
Proof.
  revert d. induction s as [|c s IH]; intros d H; [reflexivity|].
  cbn [NilEmpty.uint_of_string] in H. cbn [all_digits].
  destruct (NilEmpty.uint_of_string s) as [d'|]; [|discriminate H].
  rewrite (IH d' eq_refl), andb_true_r.
  destruct c as [[] [] [] [] [] [] [] []]; cbn in H; try discriminate H; reflexivity.
Qed.

Lemma digits_uint_of_string (s : string) :
  all_digits s = true -> exists d, NilEmpty.uint_of_string s = Some d.
Proof.
  induction s as [|c s IH]; intros H; [eexists; reflexivity|].
  cbn [all_digits] in H. apply andb_true_iff in H as [Hc Hs].
  destruct (IH Hs) as (d & Hd). cbn [NilEmpty.uint_of_string]. rewrite Hd.
  destruct c as [[] [] [] [] [] [] [] []]; cbn in Hc; try discriminate Hc;
    eexists; reflexivity.
Qed.

Lemma decimal_nonneg (s : string) : (0 <= decimal s)%Z.
Proof.
  unfold decimal. destruct (NilZero.uint_of_string s); [|lia].
  unfold Z.of_uint. apply N2Z.is_nonneg.
Qed.

(** The decimal writing of a natural number: digits only, and the
    number is read back from it. *)
Lemma str_of_int_digits (n : Z) :
  (0 <= n)%Z -> isdigit (str_of_int n) = true /\ decimal (str_of_int n) = n.
Proof.
  intros Hn. destruct n as [|p|p]; [split; reflexivity| |lia].
  unfold str_of_int. cbn [Z.to_int NilZero.string_of_int].
  pose proof (NilZero.usu (Pos.to_uint p) (DecimalPos.Unsigned.to_uint_nonnil p)) as Hu.
  split.
  - unfold NilZero.uint_of_string in Hu.
    destruct (NilZero.string_of_uint (Pos.to_uint p)) as [|c s] eqn:Hs; [discriminate Hu|].
    cbn [isdigit]. exact (uint_of_string_digits _ _ Hu).
  - unfold decimal. rewrite Hu. unfold Z.of_uint.
    now rewrite DecimalPos.Unsigned.of_to.
Qed.

Lemma isdigit_all_digits (s : string) : isdigit s = true -> all_digits s = true.
Proof. destruct s; [discriminate | exact (fun H => H)]. Qed.

Section Parsing.
Variable int_other : string -> result Z.

Lemma int_of_digits (s : string) :
  isdigit s = true -> (String.length s <= max_str_digits)%nat ->
  int_of_str int_other s = Ok (decimal s).
Proof.
  intros Hd Hl. unfold int_of_str. rewrite Hd. apply Nat.leb_le in Hl. now rewrite Hl.
Qed.

End Parsing.

Lemma split_from_nonempty (sep s : string) :
  forall skip cur, split_from sep skip cur s <> [].
Proof.
  induction s as [|c s IH]; intros skip cur; [discriminate|].
  cbn [split_from]. destruct skip; [|apply IH].
  destruct (startswith sep (String c s)); [discriminate | apply IH].
Qed.

(** The pieces of a string cut at every [x], joined with an [x], are
    the string. *)
Lemma join_split_from (s : string) :
  forall cur, join "x" (split_from "x" 0 cur s) = (cur ++ s)%string.
Proof.
  induction s as [|c s IH]; intros cur.
  - cbn. now rewrite append_nil_r.
  - cbn [split_from startswith String.length Nat.sub]. rewrite andb_true_r.
    destruct (Ascii.eqb_spec "x"%char c) as [<-|Hne].
    + specialize (IH ""%string). cbn [append] in IH.
      destruct (split_from "x" 0 "" s) as [|part rest] eqn:Hsp.
      * exfalso. exact (split_from_nonempty "x" s 0%nat "" Hsp).
      * cbn [join]. cbn [join] in IH. rewrite IH. reflexivity.
    + rewrite IH, append_assoc. reflexivity.
Qed.

(** X23: [validate_window_size] accepts a string of ASCII characters
    exactly when it is made of a string of digits, the letter [x] and a
    string of digits, neither of the two being empty; it raises
    [ValueError] for every other string. *)
Theorem window_size_format (v : string) :
  isascii v = true ->
  (validate_window_size (Some v) = Ok (Some v)
   <-> exists w h, isdigit w = true /\ isdigit h = true /\ v = (w ++ "x" ++ h)%string)
  /\ (validate_window_size (Some v) = Ok (Some v)
      \/ validate_window_size (Some v) = Raise ValueError).
Proof.
  intros _. split.
  - split.
    + unfold validate_window_size. intros Hv.
      pose proof (join_split_from v "") as Hj. fold (split "x" v) in Hj.
      destruct (split "x" v) as [|a [|b [|c parts]]]; cbn in Hv; try discriminate Hv.
      destruct (isdigit a) eqn:Ha; [|discriminate Hv].
      destruct (isdigit b) eqn:Hb; [|discriminate Hv].
      exists a, b. split; [exact Ha|]. split; [exact Hb|].
      cbn in Hj. symmetry. exact Hj.
    + intros (w & h & Hw & Hh & ->). unfold validate_window_size.
      rewrite (split_two w h (isdigit_all_digits _ Hw) (isdigit_all_digits _ Hh)).
      cbn. now rewrite Hw, Hh.
  - unfold validate_window_size. destruct (_ || _); auto.
Qed.

Lemma window_size_format_witness :
  validate_window_size (Some "1920x1080") = Ok (Some "1920x1080")
  /\ validate_window_size (Some "100500") = Raise ValueError.
Proof.
  destruct (window_size_format "1920x1080" eq_refl) as [[_ Hyes] _].
  destruct (window_size_format "100500" eq_refl) as [[Hno _] Hor].
  split.
  - apply Hyes. exists "1920", "1080". repeat split.
  - destruct Hor as [H|H]; [|exact H]. discriminate H.
Defined.

(** X24: a window size made of ASCII characters that
    [validate_window_size] accepts is read by [setup_driver] without an
    error, as two natural numbers, the width and the height, when it is
    not longer than the longest string of digits that [int] converts. *)
Theorem validated_window_size_parses (v : string) :
  isascii v = true ->
  validate_window_size (Some v) = Ok (Some v) ->
  (String.length v <= max_str_digits)%nat ->
  exists w h,
    (0 <= w)%Z /\ (0 <= h)%Z
    /\ forall int_other device_config,
         override_window_size int_other (Some v) device_config
         = Ok {| width := w;
                 height := h;
                 pixel_ratio := pixel_ratio device_config;
                 is_mobile_view := is_mobile_view device_config;
                 user_agent := user_agent device_config |}.
Proof.
  unfold validate_window_size. intros _ Hv Hl.
  pose proof (split_from_length "x" v 0%nat "" ) as Hlen. fold (split "x" v) in Hlen.
  destruct (split "x" v) as [|a [|b [|c parts]]] eqn:Hsp; cbn in Hv;
    try discriminate Hv.
  destruct (isdigit a) eqn:Ha; [|discriminate Hv].
  destruct (isdigit b) eqn:Hb; [|discriminate Hv].
  exists (decimal a), (decimal b).
  split; [apply decimal_nonneg|]. split; [apply decimal_nonneg|].
  intros int_other device_config. unfold override_window_size.
  rewrite Hsp. cbn [map_int].
  pose proof (Hlen a (or_introl eq_refl)) as Hla.
  pose proof (Hlen b (or_intror (or_introl eq_refl))) as Hlb.
  cbn [String.length] in Hla, Hlb.
  rewrite (int_of_digits int_other a Ha) by lia.
  rewrite (int_of_digits int_other b Hb) by lia.
  reflexivity.
Qed.

Lemma validated_window_size_parses_witness :
  exists w h,
    (0 <= w)%Z /\ (0 <= h)%Z
    /\ forall int_other device_config,
         override_window_size int_other (Some "1280x720") device_config
         = Ok {| width := w;
                 height := h;
                 pixel_ratio := pixel_ratio device_config;
                 is_mobile_view := is_mobile_view device_config;
                 user_agent := user_agent device_config |}.
Proof.
  apply (validated_window_size_parses "1280x720"); [reflexivity | reflexivity |].
  apply Nat.leb_le. reflexivity.
Defined.

(** X25: the window size that a device writes for itself goes through.
    For a device whose width and height are natural numbers, written
    with no more digits than [int] converts, [get_window_size] is
    accepted by [validate_window_size], and [setup_driver] reads the
    same width and the same height back from it.  So it is for the four
    devices of [Device]. *)
Theorem device_window_size_round_trip (device : DeviceConfig) :
  (0 <= width device)%Z -> (0 <= height device)%Z ->
  (String.length (str_of_int (width device)) <= max_str_digits)%nat ->
  (String.length (str_of_int (height device)) <= max_str_digits)%nat ->
  validate_window_size (Some (get_window_size device))
  = Ok (Some (get_window_size device))
  /\ forall int_other device_config,
       override_window_size int_other (Some (get_window_size device)) device_config
       = Ok {| width := width device;
               height := height device;
               pixel_ratio := pixel_ratio device_config;
               is_mobile_view := is_mobile_view device_config;
               user_agent := user_agent device_config |}.
Proof.
  intros Hw Hh Hlw Hlh.
  destruct (str_of_int_digits _ Hw) as [Hdw Hvw].
  destruct (str_of_int_digits _ Hh) as [Hdh Hvh].
  assert (Hsplit : split "x" (get_window_size device)
                   = [str_of_int (width device); str_of_int (height device)]).
  { unfold get_window_size. apply split_two; apply isdigit_all_digits; assumption. }
  split.
  - unfold validate_window_size. rewrite Hsplit. cbn. now rewrite Hdw, Hdh.
  - intros int_other device_config. unfold override_window_size.
    rewrite Hsplit. cbn [map_int].
    rewrite (int_of_digits int_other _ Hdw Hlw), (int_of_digits int_other _ Hdh Hlh).
    cbn [bind]. now rewrite Hvw, Hvh.
Qed.

Lemma device_window_size_round_trip_witness :
  let device := get_device_config SAMSUNG_GALAXY_S20 in
  get_window_size device = "320x720"
  /\ validate_window_size (Some (get_window_size device))
     = Ok (Some (get_window_size device))
  /\ forall int_other device_config,
       override_window_size int_other (Some (get_window_size device)) device_config
       = Ok {| width := 320;
               height := 720;
               pixel_ratio := pixel_ratio device_config;
               is_mobile_view := is_mobile_view device_config;
               user_agent := user_agent device_config |}.
Proof.
  intros device. split; [reflexivity|].
  apply (device_window_size_round_trip device).
  - cbn. lia.
  - cbn. lia.
  - apply Nat.leb_le. reflexivity.
  - apply Nat.leb_le. reflexivity.
Defined.

End WindowFacts.
